(** * zset: a sorted set built from a span-augmented skiplist and a dictionary

    Shallow embedding of [zset.go].  Nodes live in an arena (a list indexed by
    address); a Go pointer is an [option ptr], [None] being [nil].  Every
    operation returns an [option]: [None] stands for a run that does not
    return normally (a nil dereference, an index out of range, or a pointer
    walk that never ends). *)

From Stdlib Require Import ZArith Lia.
From Stdlib Require Import Floats.SpecFloat.
From stdpp Require Import gmap strings list sorting.

Open Scope Z_scope.

(** ** Machine integers and float64 *)

(** [uint64] arithmetic wraps modulo 2^64. *)
Definition u64 (x : Z) : Z := x mod 2 ^ 64.

(** Conversion of a [uint64] bit pattern to [int64] and back. *)
Definition i64 (x : Z) : Z := (x + 2 ^ 63) mod 2 ^ 64 - 2 ^ 63.

(** A [float64] is an IEEE-754 datum; [SFltb], [SFeqb] and [SFleb] are the
    comparisons [<], [==] and [<=] of Go. *)
Abbreviation float64 := spec_float.

Definition float64_of_Z (n : Z) : float64 := binary_normalize 53 1024 n 0 false.

Definition is_NaN (f : float64) : bool :=
  match f with S754_nan => true | _ => false end.

(** ** Data model *)

Definition SKIPLIST_MAXLEVEL : nat := 32.

Definition ptr := nat.

Record skiplistLevel := mkLevel {
  forward : option ptr;
  span : Z
}.

Record skiplistNode := mkNode {
  ele : string;
  score : float64;
  backward : option ptr;
  level : list skiplistLevel
}.

(** The skiplist header struct together with the arena of the nodes it owns.
    The fields [header], [tail], [length] and [level] of the Go struct carry
    an [sl_] prefix. *)
Record skiplist := mkSkiplist {
  sl_header : ptr;
  sl_tail : option ptr;
  sl_length : Z;
  sl_level : nat;
  sl_nodes : list skiplistNode
}.

Record ZSet := mkZSet {
  dict : gmap string float64;
  zsl : skiplist
}.

(** ** Arena access *)

Definition getLevel (h : list skiplistNode) (x : ptr) (i : nat) : option skiplistLevel :=
  n ← h !! x; level n !! i.

Definition setLevel (h : list skiplistNode) (x : ptr) (i : nat) (lv : skiplistLevel)
  : option (list skiplistNode) :=
  n ← h !! x;
  _ ← level n !! i;
  Some (<[x := mkNode (ele n) (score n) (backward n) (<[i := lv]> (level n))]> h).

Definition setForward (h : list skiplistNode) (x : ptr) (i : nat) (f : option ptr) :=
  lv ← getLevel h x i; setLevel h x i (mkLevel f (span lv)).

Definition setSpan (h : list skiplistNode) (x : ptr) (i : nat) (s : Z) :=
  lv ← getLevel h x i; setLevel h x i (mkLevel (forward lv) s).

Definition setBackward (h : list skiplistNode) (x : ptr) (b : option ptr)
  : option (list skiplistNode) :=
  n ← h !! x;
  Some (<[x := mkNode (ele n) (score n) b (level n)]> h).

(** [for i := lo; i < hi; i++ { body }] over a state [S]. *)
Fixpoint for_each {S : Type} (idx : list nat) (body : nat → S → option S) (s : S) : option S :=
  match idx with
  | [] => Some s
  | i :: rest => s' ← body i s; for_each rest body s'
  end.

Definition for_range {S : Type} (lo hi : nat) (body : nat → S → option S) (s : S) :=
  for_each (seq lo (hi - lo)) body s.

(** ** Construction *)

Definition createNode (lvl : nat) (sc : float64) (e : string) : skiplistNode :=
  mkNode e sc None (replicate lvl (mkLevel None 0)).

Definition alloc (h : list skiplistNode) (n : skiplistNode) : list skiplistNode * ptr :=
  (h ++ [n], base.length h).

Definition createSkiplist : option skiplist :=
  let '(h, hd) := alloc [] (createNode SKIPLIST_MAXLEVEL (S754_zero false) EmptyString) in
  h ← for_range 0 SKIPLIST_MAXLEVEL
        (λ j h, h ← setForward h hd j None; setSpan h hd j 0) h;
  h ← setBackward h hd None;
  Some (mkSkiplist hd None 0 1 h).

Definition NewZSet : option ZSet :=
  sl ← createSkiplist; Some (mkZSet ∅ sl).

(** [randomLevel]: [draws] lists, for the successive calls of
    [rand.Float64()], whether the drawn number is below [SKIPLIST_P]. *)
Fixpoint randomLevel_loop (room : nat) (draws : list bool) (lvl : nat) : nat :=
  match draws, room with
  | true :: ds, S r => randomLevel_loop r ds (S lvl)
  | _, _ => lvl
  end.

Definition randomLevel (draws : list bool) : nat :=
  randomLevel_loop (SKIPLIST_MAXLEVEL - 1) draws 1.

(** ** Key comparisons of the search loops *)

Definition keyLess (sc : float64) (e : string) (n : skiplistNode) : bool :=
  SFltb (score n) sc || (SFeqb (score n) sc && String.ltb (ele n) e).

Definition keyLessEq (sc : float64) (e : string) (n : skiplistNode) : bool :=
  SFltb (score n) sc || (SFeqb (score n) sc && String.leb (ele n) e).

Definition keyEq (sc : float64) (e : string) (n : skiplistNode) : bool :=
  SFeqb (score n) sc && String.eqb (ele n) e.

Definition scoreLess (min : float64) (n : skiplistNode) : bool :=
  SFltb (score n) min.

(** The inner loop [for x.level[i].forward != nil && p(x.level[i].forward)
    { x = x.level[i].forward }].  A chain of distinct nodes has at most as
    many links as the arena has nodes, which bounds [fuel]. *)
Fixpoint advance (fuel : nat) (p : skiplistNode → bool) (h : list skiplistNode)
    (i : nat) (x : ptr) : option ptr :=
  lv ← getLevel h x i;
  match forward lv with
  | None => Some x
  | Some y =>
      ny ← h !! y;
      if p ny then
        match fuel with
        | O => None
        | S f => advance f p h i y
        end
      else Some x
  end.

(** The same loop when it also accumulates the spans it crosses. *)
Fixpoint advance_rank (fuel : nat) (p : skiplistNode → bool) (h : list skiplistNode)
    (i : nat) (x : ptr) (r : Z) : option (ptr * Z) :=
  lv ← getLevel h x i;
  match forward lv with
  | None => Some (x, r)
  | Some y =>
      ny ← h !! y;
      if p ny then
        match fuel with
        | O => None
        | S f => advance_rank f p h i y (u64 (r + span lv))
        end
      else Some (x, r)
  end.

Definition fuel_of (h : list skiplistNode) : nat := base.length h.

(** [update[i] = x] and [rank[i] = r] on arrays of fixed size. *)
Definition store {A : Type} (arr : list A) (i : nat) (v : A) : option (list A) :=
  if decide (i < base.length arr)%nat then Some (<[i := v]> arr) else None.

(** ** insert *)

(** The descent of [insert], levels [n-1] down to [0]. *)
Fixpoint insert_search (sl : skiplist) (sc : float64) (e : string) (n : nat)
    (x : ptr) (update : list (option ptr)) (rank : list Z)
  : option (ptr * list (option ptr) * list Z) :=
  match n with
  | O => Some (x, update, rank)
  | S i =>
      r0 ← (if decide (i = sl_level sl - 1)%nat then Some 0 else rank !! (S i));
      rank ← store rank i r0;
      '(x, r) ← advance_rank (fuel_of (sl_nodes sl)) (keyLess sc e) (sl_nodes sl) i x r0;
      rank ← store rank i r;
      update ← store update i (Some x);
      insert_search sl sc e i x update rank
  end.

Definition deref (update : list (option ptr)) (i : nat) : option ptr :=
  mjoin (update !! i).

(** [if level > sl.level]: one round of the loop that hands the new levels
    to the header. *)
Definition insert_raise (sl : skiplist) (i : nat)
    (st : list (option ptr) * list Z * list skiplistNode)
  : option (list (option ptr) * list Z * list skiplistNode) :=
  let '(update, rank, h) := st in
  rank ← store rank i 0;
  update ← store update i (Some (sl_header sl));
  u ← deref update i;
  h ← setSpan h u i (sl_length sl);
  Some (update, rank, h).

(** One round of the loop that links the new node [x] in at level [i]. *)
Definition insert_splice (update : list (option ptr)) (rank : list Z) (x : ptr)
    (i : nat) (h : list skiplistNode) : option (list skiplistNode) :=
  u ← deref update i;
  ul ← getLevel h u i;
  h ← setForward h x i (forward ul);
  h ← setForward h u i (Some x);
  ul ← getLevel h u i;
  r0 ← rank !! 0%nat;
  ri ← rank !! i;
  h ← setSpan h x i (u64 (span ul - u64 (r0 - ri)));
  setSpan h u i (u64 (u64 (r0 - ri) + 1)).

(** One round of the loop over the levels above the new node. *)
Definition insert_bump (update : list (option ptr)) (i : nat) (h : list skiplistNode)
  : option (list skiplistNode) :=
  u ← deref update i;
  ul ← getLevel h u i;
  setSpan h u i (u64 (span ul + 1)).

Definition insert (sl : skiplist) (draws : list bool) (sc : float64) (e : string)
  : option (skiplist * ptr) :=
  let update := replicate SKIPLIST_MAXLEVEL (None : option ptr) in
  let rank := replicate SKIPLIST_MAXLEVEL 0 in
  '(_, update, rank) ← insert_search sl sc e (sl_level sl) (sl_header sl) update rank;
  let lvl := randomLevel draws in
  '(update, rank, h) ←
     (if decide (sl_level sl < lvl)%nat then
        for_range (sl_level sl) lvl (insert_raise sl) (update, rank, sl_nodes sl)
      else Some (update, rank, sl_nodes sl));
  let sl_lvl := if decide (sl_level sl < lvl)%nat then lvl else sl_level sl in
  let '(h, x) := alloc h (createNode lvl sc e) in
  h ← for_range 0 lvl (insert_splice update rank x) h;
  h ← for_range lvl sl_lvl (insert_bump update) h;
  u0 ← deref update 0;
  h ← setBackward h x (if decide (u0 = sl_header sl) then None else Some u0);
  xl ← getLevel h x 0;
  '(h, tl) ←
     match forward xl with
     | Some y => h ← setBackward h y (Some x); Some (h, sl_tail sl)
     | None => Some (h, Some x)
     end;
  Some (mkSkiplist (sl_header sl) tl (u64 (sl_length sl + 1)) sl_lvl h, x).

(** ** delete *)

Fixpoint delete_search (sl : skiplist) (sc : float64) (e : string) (n : nat)
    (x : ptr) (update : list (option ptr)) : option (ptr * list (option ptr)) :=
  match n with
  | O => Some (x, update)
  | S i =>
      x ← advance (fuel_of (sl_nodes sl)) (keyLess sc e) (sl_nodes sl) i x;
      update ← store update i (Some x);
      delete_search sl sc e i x update
  end.

(** The loop [for sl.level > 1 && sl.header.level[sl.level-1].forward == nil
    { sl.level-- }]. *)
Fixpoint shrink_level (h : list skiplistNode) (hd : ptr) (lvl : nat) : option nat :=
  match lvl with
  | S (S l as lvl') =>
      hl ← getLevel h hd lvl';
      match forward hl with
      | None => shrink_level h hd lvl'
      | Some _ => Some lvl
      end
  | _ => Some lvl
  end.

(** One round of the first loop of [deleteNode]. *)
Definition deleteNode_unlink (update : list (option ptr)) (x : ptr) (i : nat)
    (h : list skiplistNode) : option (list skiplistNode) :=
  u ← deref update i;
  ul ← getLevel h u i;
  if decide (forward ul = Some x) then
    xl ← getLevel h x i;
    h ← setSpan h u i (u64 (span ul + u64 (span xl - 1)));
    xl ← getLevel h x i;
    setForward h u i (forward xl)
  else
    setSpan h u i (u64 (span ul - 1)).

Definition deleteNode (sl : skiplist) (x : ptr) (update : list (option ptr))
  : option skiplist :=
  h ← for_range 0 (sl_level sl) (deleteNode_unlink update x) (sl_nodes sl);
  xl ← getLevel h x 0;
  nx ← h !! x;
  '(h, tl) ←
     match forward xl with
     | Some y => h ← setBackward h y (backward nx); Some (h, sl_tail sl)
     | None => Some (h, backward nx)
     end;
  lvl ← shrink_level h (sl_header sl) (sl_level sl);
  Some (mkSkiplist (sl_header sl) tl (u64 (sl_length sl - 1)) lvl h).

Definition delete (sl : skiplist) (sc : float64) (e : string) : option (skiplist * bool) :=
  let update := replicate SKIPLIST_MAXLEVEL (None : option ptr) in
  '(x, update) ← delete_search sl sc e (sl_level sl) (sl_header sl) update;
  xl ← getLevel (sl_nodes sl) x 0;
  match forward xl with
  | Some y =>
      ny ← sl_nodes sl !! y;
      if keyEq sc e ny then
        sl' ← deleteNode sl y update; Some (sl', true)
      else Some (sl, false)
  | None => Some (sl, false)
  end.

(** ** The ZSet facade *)

Definition Add (z : ZSet) (draws : list bool) (e : string) (sc : float64)
  : option (ZSet * bool) :=
  match dict z !! e with
  | Some oldScore =>
      if SFeqb oldScore sc then Some (z, false)
      else
        '(sl, _) ← delete (zsl z) oldScore e;
        '(sl, _) ← insert sl draws sc e;
        Some (mkZSet (<[e := sc]> (dict z)) sl, false)
  | None =>
      '(sl, _) ← insert (zsl z) draws sc e;
      Some (mkZSet (<[e := sc]> (dict z)) sl, true)
  end.

Definition Remove (z : ZSet) (e : string) : option (ZSet * bool) :=
  match dict z !! e with
  | None => Some (z, false)
  | Some sc =>
      '(sl, _) ← delete (zsl z) sc e;
      Some (mkZSet (base.delete e (dict z)) sl, true)
  end.

Definition Score (z : ZSet) (e : string) : float64 * bool :=
  match dict z !! e with
  | Some sc => (sc, true)
  | None => (S754_zero false, false)
  end.

Fixpoint getRank_loop (sl : skiplist) (sc : float64) (e : string) (n : nat)
    (x : ptr) (rank : Z) : option Z :=
  match n with
  | O => Some 0
  | S i =>
      '(x, rank) ← advance_rank (fuel_of (sl_nodes sl)) (keyLessEq sc e) (sl_nodes sl) i x rank;
      nx ← sl_nodes sl !! x;
      if negb (bool_decide (x = sl_header sl)) && keyEq sc e nx then Some rank
      else getRank_loop sl sc e i x rank
  end.

Definition getRank (sl : skiplist) (sc : float64) (e : string) : option Z :=
  getRank_loop sl sc e (sl_level sl) (sl_header sl) 0.

Definition Rank (z : ZSet) (e : string) (reverse : bool) : option Z :=
  match dict z !! e with
  | None => Some (-1)
  | Some sc =>
      rank ← getRank (zsl z) sc e;
      if decide (rank = 0) then Some (-1)
      else
        let rank := u64 (rank - 1) in
        if reverse then Some (i64 (u64 (u64 (sl_length (zsl z) - rank) - 1)))
        else Some (i64 rank)
  end.

(** The inner loop of [getElementByRank]. *)
Fixpoint advance_span (fuel : nat) (h : list skiplistNode) (i : nat) (rank : Z)
    (x : ptr) (traversed : Z) : option (ptr * Z) :=
  lv ← getLevel h x i;
  match forward lv with
  | None => Some (x, traversed)
  | Some y =>
      if decide (u64 (traversed + span lv) ≤ rank) then
        match fuel with
        | O => None
        | S f => advance_span f h i rank y (u64 (traversed + span lv))
        end
      else Some (x, traversed)
  end.

Fixpoint getElementByRank_loop (sl : skiplist) (rank : Z) (n : nat) (x : ptr)
    (traversed : Z) : option (option ptr) :=
  match n with
  | O => Some None
  | S i =>
      '(x, traversed) ← advance_span (fuel_of (sl_nodes sl)) (sl_nodes sl) i rank x traversed;
      if decide (traversed = rank) then Some (Some x)
      else getElementByRank_loop sl rank i x traversed
  end.

Definition getElementByRank (sl : skiplist) (rank : Z) : option (option ptr) :=
  if decide (rank = 0 ∨ sl_length sl < rank) then Some None
  else getElementByRank_loop sl rank (sl_level sl) (sl_header sl) 0.

Definition GetByRank (z : ZSet) (rank : Z) (reverse : bool)
  : option (string * float64 * bool) :=
  if decide (rank < 0 ∨ i64 (sl_length (zsl z)) ≤ rank) then
    Some (EmptyString, S754_zero false, false)
  else
    let rank := if reverse then i64 (i64 (sl_length (zsl z)) - 1 - rank) else rank in
    n ← getElementByRank (zsl z) (u64 (rank + 1));
    match n with
    | None => Some (EmptyString, S754_zero false, false)
    | Some a => na ← sl_nodes (zsl z) !! a; Some (ele na, score na, true)
    end.

Fixpoint range_search (sl : skiplist) (min : float64) (n : nat) (x : ptr) : option ptr :=
  match n with
  | O => Some x
  | S i =>
      x ← advance (fuel_of (sl_nodes sl)) (scoreLess min) (sl_nodes sl) i x;
      range_search sl min i x
  end.

(** [for x != nil && skipped < offset { if x.score > max { break }; ... }] *)
Fixpoint range_skip (fuel : nat) (h : list skiplistNode) (max : float64)
    (offset : Z) (x : option ptr) (skipped : Z) : option (option ptr) :=
  match x with
  | Some a =>
      if decide (skipped < offset) then
        na ← h !! a;
        if SFltb max (score na) then Some x
        else
          nl ← level na !! 0%nat;
          match fuel with
          | O => None
          | S f => range_skip f h max offset (forward nl) (i64 (skipped + 1))
          end
      else Some x
  | None => Some x
  end.

Fixpoint range_collect (fuel : nat) (h : list skiplistNode) (max : float64)
    (count : Z) (x : option ptr) (returned : Z) (result : list (string * float64))
  : option (list (string * float64)) :=
  match x with
  | Some a =>
      if decide (count < 0 ∨ returned < count) then
        na ← h !! a;
        if SFltb max (score na) then Some result
        else
          nl ← level na !! 0%nat;
          match fuel with
          | O => None
          | S f =>
              range_collect f h max count (forward nl) (i64 (returned + 1))
                (result ++ [(ele na, score na)])
          end
      else Some result
  | None => Some result
  end.

Definition RangeByScore (z : ZSet) (min max : float64) (offset count : Z)
  : option (list (string * float64)) :=
  let sl := zsl z in
  let offset := if decide (offset < 0) then 0 else offset in
  x ← range_search sl min (sl_level sl) (sl_header sl);
  xl ← getLevel (sl_nodes sl) x 0;
  x ← range_skip (fuel_of (sl_nodes sl)) (sl_nodes sl) max offset (forward xl) 0;
  range_collect (fuel_of (sl_nodes sl)) (sl_nodes sl) max count x 0 [].

Definition Len (z : ZSet) : Z := sl_length (zsl z).

(** * Specification vocabulary *)

(** ** Reading the arena *)

Definition nodeKey (h : list skiplistNode) (a : ptr) : option (string * float64 * nat) :=
  (λ n, (ele n, score n, base.length (level n))) <$> h !! a.

Definition nodeBack (h : list skiplistNode) (a : ptr) : option (option ptr) :=
  backward <$> h !! a.

(** [h'] is [h] with the level entry [(x, i)] replaced by [lv]. *)
Record level_update (h h' : list skiplistNode) (x : ptr) (i : nat) (lv : skiplistLevel) : Prop := {
  lu_length : base.length h' = base.length h;
  lu_here : getLevel h' x i = Some lv;
  lu_frame : ∀ y j, (y ≠ x ∨ j ≠ i) → getLevel h' y j = getLevel h y j;
  lu_key : ∀ y, nodeKey h' y = nodeKey h y;
  lu_back : ∀ y, nodeBack h' y = nodeBack h y
}.

(** [h'] is [h] with the backward pointer of [x] replaced by [b]. *)
Record back_update (h h' : list skiplistNode) (x : ptr) (b : option ptr) : Prop := {
  bu_length : base.length h' = base.length h;
  bu_level : ∀ y j, getLevel h' y j = getLevel h y j;
  bu_key : ∀ y, nodeKey h' y = nodeKey h y;
  bu_here : nodeBack h' x = Some b;
  bu_frame : ∀ y, y ≠ x → nodeBack h' y = nodeBack h y
}.

(** ** The abstract view: the level-0 chain as a list of cells *)

(** A cell is a node of the chain: its address, its key and the number of
    levels it takes part in. *)
Record cell := mkCell {
  c_addr : ptr;
  c_ele : string;
  c_score : float64;
  c_height : nat
}.

(** The first cell of [l] that reaches above level [i], with its distance. *)
Fixpoint nxt (i : nat) (l : list cell) : option (nat * cell) :=
  match l with
  | [] => None
  | c :: l' =>
      if decide (i < c_height c)%nat then Some (1%nat, c)
      else (λ '(d, c'), (S d, c')) <$> nxt i l'
  end.

(** The level entry [(a, i)] points to the cell [r] names and spans the
    distance to it; a nil link may hold any span. *)
Definition link_ok (h : list skiplistNode) (a : ptr) (i : nat) (r : option (nat * cell)) : Prop :=
  ∃ lv, getLevel h a i = Some lv ∧
    match r with
    | None => forward lv = None
    | Some (d, c) => forward lv = Some (c_addr c) ∧ span lv = u64 (Z.of_nat d)
    end.

Definition links_at (h : list skiplistNode) (i : nat) (cells : list cell) : Prop :=
  ∀ p c, cells !! p = Some c → (i < c_height c)%nat →
    link_ok h (c_addr c) i (nxt i (drop (S p) cells)).

Definition cell_ok (h : list skiplistNode) (c : cell) : Prop :=
  nodeKey h (c_addr c) = Some (c_ele c, c_score c, c_height c).

Definition back_ok (h : list skiplistNode) (L : list cell) : Prop :=
  ∀ k c, L !! k = Some c →
    nodeBack h (c_addr c) =
      Some (match k with O => None | S k' => c_addr <$> L !! k' end).

Definition max_height (L : list cell) : nat :=
  foldr (λ c m, Nat.max (c_height c) m) 1%nat L.

Definition header_cell (hd : ptr) : cell :=
  mkCell hd EmptyString (S754_zero false) SKIPLIST_MAXLEVEL.

(** [Rep sl L]: the arena of [sl] holds exactly the skiplist whose level-0
    chain is [L]. *)
Record Rep (sl : skiplist) (L : list cell) : Prop := {
  rep_nodup : NoDup (c_addr <$> header_cell (sl_header sl) :: L);
  rep_cells : Forall (cell_ok (sl_nodes sl)) (header_cell (sl_header sl) :: L);
  rep_heights : Forall (λ c, 1 ≤ c_height c ≤ SKIPLIST_MAXLEVEL)%nat L;
  rep_links : ∀ i, links_at (sl_nodes sl) i (header_cell (sl_header sl) :: L);
  rep_back : back_ok (sl_nodes sl) L;
  rep_tail : sl_tail sl = c_addr <$> last L;
  rep_length : sl_length sl = u64 (Z.of_nat (base.length L));
  rep_level : sl_level sl = max_height L
}.

(** The test a search loop applies to a node depends on its key only. *)
Definition key_test (p : skiplistNode → bool) (q : cell → bool) : Prop :=
  ∀ n c, ele n = c_ele c → score n = c_score c → p n = q c.


(** [pred_at cells q P j a pj]: among the cells up to position [P], the last
    one that reaches above level [j] sits at position [pj] and has address
    [a]; the level-[j] link that leaves it ends the search for [q]. *)
Definition pred_at (cells : list cell) (q : cell → bool) (P j : nat) (a : ptr) (pj : nat) : Prop :=
  (pj ≤ P)%nat ∧
  (∃ cu, cells !! pj = Some cu ∧ c_addr cu = a ∧ (j < c_height cu)%nat) ∧
  (∀ k ck, (pj < k ≤ P)%nat → cells !! k = Some ck → (c_height ck ≤ j)%nat) ∧
  (∀ d cn, nxt j (drop (S pj) cells) = Some (d, cn) → q cn = false).

(** What the descent has recorded in [update] and [rank] for the levels
    [lo ≤ j < hi]. *)
Definition recorded (cells : list cell) (q : cell → bool) (P lo hi : nat)
    (update : list (option ptr)) (rank : list Z) : Prop :=
  ∀ j, (lo ≤ j < hi)%nat →
    ∃ a pj, update !! j = Some (Some a) ∧ rank !! j = Some (u64 (Z.of_nat pj)) ∧
            pred_at cells q P j a pj.


(** In [pre], the cell at [pi] is the last that reaches above level [i]. *)
Definition last_above (pre : list cell) (i pi : nat) (cu : cell) : Prop :=
  pre !! pi = Some cu ∧ (i < c_height cu)%nat ∧
  ∀ k ck, (pi < k)%nat → pre !! k = Some ck → (c_height ck ≤ i)%nat.


(** [h'] has the same nodes as [h], with the same keys and backward
    pointers. *)
Record heap_frame (h h' : list skiplistNode) : Prop := {
  hf_length : base.length h' = base.length h;
  hf_key : ∀ y, nodeKey h' y = nodeKey h y;
  hf_back : ∀ y, nodeBack h' y = nodeBack h y
}.


(** ** The composite key order *)

(** [(s1, e1) < (s2, e2)]: by score, ties broken by the member. *)
Definition key_lt (s1 : float64) (e1 : string) (s2 : float64) (e2 : string) : bool :=
  SFltb s1 s2 || (SFeqb s1 s2 && String.ltb e1 e2).

Definition key_le (s1 : float64) (e1 : string) (s2 : float64) (e2 : string) : bool :=
  SFltb s1 s2 || (SFeqb s1 s2 && String.leb e1 e2).

Definition cellLess (sc : float64) (e : string) (c : cell) : bool :=
  key_lt (c_score c) (c_ele c) sc e.

Definition cellLessEq (sc : float64) (e : string) (c : cell) : bool :=
  key_le (c_score c) (c_ele c) sc e.

Definition cellEq (sc : float64) (e : string) (c : cell) : bool :=
  SFeqb (c_score c) sc && String.eqb (c_ele c) e.

Definition cell_lt (a b : cell) : Prop :=
  key_lt (c_score a) (c_ele a) (c_score b) (c_ele b) = true.

(** [Inv z L]: the skiplist of [z] holds the chain [L], the chain is strictly
    increasing and free of NaN, and the dictionary maps exactly the members
    of the chain to their scores. *)
Record Inv (z : ZSet) (L : list cell) : Prop := {
  inv_rep : Rep (zsl z) L;
  inv_sorted : StronglySorted cell_lt L;
  inv_nonan : Forall (λ c, is_NaN (c_score c) = false) L;
  inv_dict : ∀ m s, dict z !! m = Some s ↔ ∃ c, c ∈ L ∧ c_ele c = m ∧ c_score c = s;
  inv_uniq : NoDup (c_ele <$> L)
}.


(** ** Reachable states and what can be observed of a skiplist *)

(** The states that completed [Add] and [Remove] calls produce from the empty
    set.  Scores are not NaN (§3 of the specification); the draws of the
    random source are arbitrary. *)
Inductive reachable : ZSet → Prop :=
  | reach_new z :
      NewZSet = Some z → reachable z
  | reach_add z draws e sc z' b :
      reachable z → is_NaN sc = false →
      Add z draws e sc = Some (z', b) → reachable z'
  | reach_remove z e z' b :
      reachable z → Remove z e = Some (z', b) → reachable z'.

(** The states reachable when the scores passed to [Add] are arbitrary, NaN
    included. *)
Inductive reachable_any : ZSet → Prop :=
  | any_new z :
      NewZSet = Some z → reachable_any z
  | any_add z draws e sc z' b :
      reachable_any z → Add z draws e sc = Some (z', b) → reachable_any z'
  | any_remove z e z' b :
      reachable_any z → Remove z e = Some (z', b) → reachable_any z'.

(** The nodes met along the level-[i] forward links that start at [x], each
    with the sum of the spans crossed from [x] to it. *)
Fixpoint level_walk (fuel : nat) (h : list skiplistNode) (i : nat) (x : ptr) (acc : Z)
  : list (ptr * Z) :=
  match fuel with
  | O => []
  | S f =>
      match getLevel h x i with
      | Some lv =>
          match forward lv with
          | Some y => (y, acc + span lv) :: level_walk f h i y (acc + span lv)
          | None => []
          end
      | None => []
      end
  end.

Definition level_chain (sl : skiplist) (i : nat) : list (ptr * Z) :=
  level_walk (fuel_of (sl_nodes sl)) (sl_nodes sl) i (sl_header sl) 0.

(** The nodes of the level-0 chain, in order. *)
Definition chain_addrs (sl : skiplist) : list ptr := fst <$> level_chain sl 0.

(** The (member, score) pairs of the level-0 chain, in order. *)
Definition chain (sl : skiplist) : list (string * float64) :=
  omap (λ a, (λ n, (ele n, score n)) <$> sl_nodes sl !! a) (chain_addrs sl).

(** The cells of [l] above level [i], each with its 1-based position when
    [l] starts after position [pos]. *)
Fixpoint over_level (i : nat) (pos : Z) (l : list cell) : list (ptr * Z) :=
  match l with
  | [] => []
  | c :: l' =>
      if decide (i < c_height c)%nat
      then (c_addr c, pos + 1) :: over_level i (pos + 1) l'
      else over_level i (pos + 1) l'
  end.

Definition cell_pair (c : cell) : string * float64 := (c_ele c, c_score c).


(** ** RangeByScore, as the specification words it *)

Fixpoint take_while {A} (p : A → bool) (l : list A) : list A :=
  match l with
  | [] => []
  | a :: l' => if p a then a :: take_while p l' else []
  end.

Fixpoint drop_while {A} (p : A → bool) (l : list A) : list A :=
  match l with
  | [] => []
  | a :: l' => if p a then drop_while p l' else l
  end.

(** Start at the first pair whose score is at least [min]; skip [offset]
    pairs, giving up altogether when one of them exceeds [max]; then collect
    while the score is at most [max], at most [count] pairs unless [count] is
    negative. *)
Definition range_by_score_spec (K : list (string * float64)) (min max : float64)
    (offset count : Z) : list (string * float64) :=
  let offset := if decide (offset < 0) then 0 else offset in
  let from := drop_while (λ p, negb (SFleb min p.2)) K in
  if existsb (λ p, SFltb max p.2) (take (Z.to_nat offset) from) then []
  else
    let inrange := take_while (λ p, SFleb p.2 max) (drop (Z.to_nat offset) from) in
    if decide (count < 0) then inrange else take (Z.to_nat count) inrange.

(** Where the skip loop of [RangeByScore] stops in a list of pairs. *)
Fixpoint skip_res (max : float64) (l : list (string * float64)) (m : Z)
  : list (string * float64) :=
  match l with
  | [] => []
  | p :: l' =>
      if decide (0 < m) then
        if SFltb max p.2 then l else skip_res max l' (m - 1)
      else l
  end.

(** What the collect loop of [RangeByScore] gathers from a list of pairs. *)
Fixpoint collect_res (max : float64) (l : list (string * float64)) (count : Z) (n : Z)
  : list (string * float64) :=
  match l with
  | [] => []
  | p :: l' =>
      if decide (count < 0 ∨ n < count) then
        if SFltb max p.2 then []
        else p :: collect_res max l' count (n + 1)
      else []
  end.

(** [RangeByScore] as a function of the chain, loop by loop. *)
Definition range_chain (K : list (string * float64)) (min max : float64)
    (offset count : Z) : list (string * float64) :=
  let offset := if decide (offset < 0) then 0 else offset in
  collect_res max (skip_res max (drop_while (λ p, SFltb p.2 min) K) offset) count 0.

(** ** Vocabulary of the claims *)

(** Number of members of the set. *)
Definition card (z : ZSet) : Z := Z.of_nat (size (dict z)).

(** Strict order of the chain on (member, score) pairs. *)
Definition pair_lt (p1 p2 : string * float64) : Prop :=
  key_lt p1.2 p1.1 p2.2 p2.1 = true.

(** The highest level, counted from 1, at which a node has a forward
    pointer; 0 when it has none. *)
Fixpoint top_link (lv : list skiplistLevel) : nat :=
  match lv with
  | [] => 0%nat
  | l :: rest =>
      match top_link rest with
      | S t => S (S t)
      | O => match forward l with Some _ => 1%nat | None => 0%nat end
      end
  end.

Definition header_top (sl : skiplist) : nat :=
  match sl_nodes sl !! sl_header sl with
  | Some n => top_link (level n)
  | None => 0%nat
  end.

(** Operations of the facade and what they return. *)
Inductive op :=
  | OpAdd (e : string) (sc : float64)
  | OpRemove (e : string)
  | OpScore (e : string)
  | OpRank (e : string) (reverse : bool)
  | OpGetByRank (rank : Z) (reverse : bool)
  | OpRangeByScore (min max : float64) (offset count : Z)
  | OpLen.

Inductive ret :=
  | RetBool (b : bool)
  | RetScore (sc : float64) (ok : bool)
  | RetRank (r : Z)
  | RetElem (e : string) (sc : float64) (ok : bool)
  | RetRange (l : list (string * float64))
  | RetLen (n : Z).

Definition step (z : ZSet) (draws : list bool) (o : op) : option (ZSet * ret) :=
  match o with
  | OpAdd e sc => '(z', b) ← Add z draws e sc; Some (z', RetBool b)
  | OpRemove e => '(z', b) ← Remove z e; Some (z', RetBool b)
  | OpScore e => let '(sc, ok) := Score z e in Some (z, RetScore sc ok)
  | OpRank e reverse => r ← Rank z e reverse; Some (z, RetRank r)
  | OpGetByRank rank reverse =>
      '(e, sc, ok) ← GetByRank z rank reverse; Some (z, RetElem e sc ok)
  | OpRangeByScore min max offset count =>
      l ← RangeByScore z min max offset count; Some (z, RetRange l)
  | OpLen => Some (z, RetLen (Len z))
  end.

(** A run: the [k]-th operation sees the draws [rnd k] of the random
    source. *)
Fixpoint run_from (z : ZSet) (ops : list op) (rnd : nat → list bool) (k : nat)
  : option (ZSet * list ret) :=
  match ops with
  | [] => Some (z, [])
  | o :: ops' =>
      '(z', r) ← step z (rnd k) o;
      '(z'', rs) ← run_from z' ops' rnd (S k);
      Some (z'', r :: rs)
  end.

Definition run (ops : list op) (rnd : nat → list bool) : option (ZSet * list ret) :=
  z ← NewZSet; run_from z ops rnd 0.

(** The scores an operation stores are not NaN. *)
Definition op_ok (o : op) : Prop :=
  match o with
  | OpAdd _ sc => is_NaN sc = false
  | _ => True
  end.

(** ** Sample states *)

Definition sample_ops : list op :=
  [OpAdd "a" (float64_of_Z 1); OpAdd "b" (float64_of_Z 2); OpAdd "c" (float64_of_Z 3);
   OpAdd "d" (float64_of_Z 2); OpRemove "b"; OpAdd "a" (float64_of_Z 5)].

Definition sample_rnd (k : nat) : list bool :=
  match k with
  | 0 => [true]
  | 1 => []
  | 2 => [true; true]
  | 3 => [true; true; true; false; true]
  | _ => [false; true]
  end%nat.

(** The empty set, as [NewZSet] builds it. *)
Definition zset_empty : ZSet :=
  mkZSet ∅
    (mkSkiplist 0%nat None 0 1%nat
       [mkNode EmptyString (S754_zero false) None (replicate SKIPLIST_MAXLEVEL (mkLevel None 0))]).

(** The set built by [sample_ops]: c:3, d:2, a:5. *)
Definition zset_sample : ZSet :=
  match run sample_ops sample_rnd with
  | Some (z, _) => z
  | None => zset_empty
  end.

(** The set with the one member a:1. *)
Definition zset_one : ZSet :=
  match run [OpAdd "a" (float64_of_Z 1)] sample_rnd with
  | Some (z, _) => z
  | None => zset_empty
  end.


(** Queries asked of the sample set. *)
Definition sample_queries : list op :=
  [OpScore "a"; OpRank "c" false; OpRank "d" true; OpRank "b" false;
   OpGetByRank 1 false; OpGetByRank 0 true; OpGetByRank 7 false;
   OpRangeByScore (float64_of_Z 2) (float64_of_Z 4) 0 (-1); OpLen].


(** ** Vocabulary of the further properties *)

(** A pair whose score lies in the closed interval [[min, max]]. *)
Definition in_score_range (min max : float64) (p : string * float64) : bool :=
  SFleb min p.2 && SFleb p.2 max.

(** The window of [l] that starts after [offset] entries and holds at most
    [count] of them; all the rest when [count] is negative. *)
Definition page {A} (offset count : Z) (l : list A) : list A :=
  let rest := drop (Z.to_nat offset) l in
  if decide (count < 0) then rest else take (Z.to_nat count) rest.





(** * Verification *)

(** ** Wrap-around arithmetic *)

Lemma u64_idem a : u64 (u64 a) = u64 a.
Proof. unfold u64. apply Z.mod_mod. lia. Qed.

Lemma u64_add_l a b : u64 (u64 a + b) = u64 (a + b).
Proof. unfold u64. apply Zplus_mod_idemp_l. Qed.

Lemma u64_add_r a b : u64 (a + u64 b) = u64 (a + b).
Proof. unfold u64. apply Zplus_mod_idemp_r. Qed.

Lemma u64_sub_l a b : u64 (u64 a - b) = u64 (a - b).
Proof. unfold u64. apply Zminus_mod_idemp_l. Qed.

Lemma u64_sub_r a b : u64 (a - u64 b) = u64 (a - b).
Proof. unfold u64. apply Zminus_mod_idemp_r. Qed.

Lemma u64_small a : 0 ≤ a < 2 ^ 64 → u64 a = a.
Proof. intros. unfold u64. apply Z.mod_small. lia. Qed.

Lemma u64_range a : 0 ≤ u64 a < 2 ^ 64.
Proof. unfold u64. apply Z.mod_pos_bound. lia. Qed.

Lemma i64_small a : - 2 ^ 63 ≤ a < 2 ^ 63 → i64 a = a.
Proof. intros. unfold i64. rewrite Z.mod_small; lia. Qed.

Lemma i64_u64 a : i64 (u64 a) = i64 a.
Proof.
  unfold i64, u64. f_equal.
  rewrite Zplus_mod_idemp_l. reflexivity.
Qed.

Lemma u64_i64 a : u64 (i64 a) = u64 a.
Proof.
  unfold i64, u64.
  rewrite <- Zminus_mod_idemp_l, Z.mod_mod by lia.
  rewrite Zminus_mod_idemp_l.
  replace (a + 2 ^ 63 - 2 ^ 63) with a by lia. reflexivity.
Qed.

Create Rewrite HintDb u64.
#[local] Hint Rewrite u64_idem u64_add_l u64_add_r u64_sub_l u64_sub_r : u64.

Ltac u64_eq :=
  first [ solve [autorewrite with u64; f_equal; lia]
        | solve [unfold u64; Z.to_euclidean_division_equations; lia] ].

(** ** The arena: how the primitive writes change what can be read *)




Lemma setLevel_spec h x i lv lv0 :
  getLevel h x i = Some lv0 →
  ∃ h', setLevel h x i lv = Some h' ∧ level_update h h' x i lv.
Proof.
  unfold getLevel, setLevel. intros Hg.
  destruct (h !! x) as [n|] eqn:Hx; simpl in *; [|done].
  rewrite Hg. simpl. eexists. split; [done|].
  assert (x < base.length h)%nat by (by eapply lookup_lt_Some).
  assert (i < base.length (level n))%nat by (by eapply lookup_lt_Some).
  split.
  - by rewrite length_insert.
  - unfold getLevel. rewrite list_lookup_insert_eq by done. simpl.
    by rewrite list_lookup_insert_eq.
  - intros y j Hne. unfold getLevel.
    destruct (decide (y = x)) as [->|Hyx].
    + rewrite list_lookup_insert_eq by done. rewrite Hx. simpl.
      rewrite list_lookup_insert_ne; [done|]. by destruct Hne.
    + by rewrite list_lookup_insert_ne.
  - intros y. unfold nodeKey.
    destruct (decide (y = x)) as [->|Hyx].
    + rewrite list_lookup_insert_eq by done. rewrite Hx. simpl.
      by rewrite length_insert.
    + by rewrite list_lookup_insert_ne.
  - intros y. unfold nodeBack.
    destruct (decide (y = x)) as [->|Hyx].
    + rewrite list_lookup_insert_eq by done. by rewrite Hx.
    + by rewrite list_lookup_insert_ne.
Qed.

Lemma setForward_spec h x i f lv0 :
  getLevel h x i = Some lv0 →
  ∃ h', setForward h x i f = Some h' ∧ level_update h h' x i (mkLevel f (span lv0)).
Proof.
  intros Hg. unfold setForward. rewrite Hg. simpl. by eapply setLevel_spec.
Qed.

Lemma setSpan_spec h x i s lv0 :
  getLevel h x i = Some lv0 →
  ∃ h', setSpan h x i s = Some h' ∧ level_update h h' x i (mkLevel (forward lv0) s).
Proof.
  intros Hg. unfold setSpan. rewrite Hg. simpl. by eapply setLevel_spec.
Qed.


Lemma setBackward_spec h x b :
  is_Some (h !! x) →
  ∃ h', setBackward h x b = Some h' ∧ back_update h h' x b.
Proof.
  intros [n Hx]. unfold setBackward. rewrite Hx. simpl.
  eexists. split; [done|].
  assert (x < base.length h)%nat by (by eapply lookup_lt_Some).
  split.
  - by rewrite length_insert.
  - intros y j. unfold getLevel.
    destruct (decide (y = x)) as [->|Hyx].
    + rewrite list_lookup_insert_eq by done. by rewrite Hx.
    + by rewrite list_lookup_insert_ne.
  - intros y. unfold nodeKey.
    destruct (decide (y = x)) as [->|Hyx].
    + rewrite list_lookup_insert_eq by done. by rewrite Hx.
    + by rewrite list_lookup_insert_ne.
  - unfold nodeBack. by rewrite list_lookup_insert_eq.
  - intros y Hyx. unfold nodeBack. by rewrite list_lookup_insert_ne.
Qed.

(** ** Next cell above a level *)

Lemma nxt_None i l : nxt i l = None ↔ Forall (λ c, c_height c ≤ i)%nat l.
Proof.
  induction l as [|c l IH]; simpl.
  - split; [constructor|done].
  - case_decide as Hc.
    + split; [done|]. intros Hf. inversion Hf; subst. lia.
    + destruct (nxt i l) as [[d c']|]; simpl.
      * split; [done|]. intros Hf. inversion Hf; subst.
        by apply IH in H2.
      * split; [|done]. intros _. constructor; [lia|]. by apply IH.
Qed.

Lemma nxt_Some i l d c :
  nxt i l = Some (d, c) →
  (1 ≤ d)%nat ∧ l !! (d - 1)%nat = Some c ∧ (i < c_height c)%nat ∧
  ∀ k ck, (k < d - 1)%nat → l !! k = Some ck → (c_height ck ≤ i)%nat.
Proof.
  revert d. induction l as [|c0 l IH]; simpl; intros d; [done|].
  case_decide as Hc.
  - intros [= <- <-]. simpl. repeat split; [lia|done|]. intros; lia.
  - destruct (nxt i l) as [[d' c']|] eqn:Hn; simpl; [|done].
    intros [= <- <-]. destruct (IH _ eq_refl) as (Hd & Hl & Hh & Hlow).
    repeat split; [lia| |done|].
    + destruct d' as [|d']; [lia|]. simpl in *.
      by rewrite Nat.sub_0_r in Hl.
    + intros k ck Hk Hck. destruct k as [|k]; simpl in *.
      * injection Hck as <-. lia.
      * eapply (Hlow k); [lia|done].
Qed.

Lemma nxt_app i l1 l2 :
  nxt i (l1 ++ l2) =
    match nxt i l1 with
    | Some r => Some r
    | None => (λ '(d, c), (base.length l1 + d, c)%nat) <$> nxt i l2
    end.
Proof.
  induction l1 as [|c l1 IH]; simpl.
  - by destruct (nxt i l2) as [[??]|].
  - case_decide; [done|]. rewrite IH.
    destruct (nxt i l1) as [[??]|]; simpl; [done|].
    by destruct (nxt i l2) as [[??]|].
Qed.

Lemma nxt_is_Some i l k c :
  l !! k = Some c → (i < c_height c)%nat → is_Some (nxt i l).
Proof.
  intros Hl Hc. destruct (nxt i l) eqn:Hn; [by eexists|].
  apply nxt_None in Hn. rewrite Forall_lookup in Hn.
  specialize (Hn _ _ Hl). simpl in Hn. lia.
Qed.

(** ** The inner search loop *)

Lemma cell_ok_lookup h c :
  cell_ok h c →
  ∃ n, h !! c_addr c = Some n ∧ ele n = c_ele c ∧ score n = c_score c
       ∧ base.length (level n) = c_height c.
Proof.
  unfold cell_ok, nodeKey. destruct (h !! c_addr c) as [n|]; simpl; [|done].
  intros [= <- <- <-]. by eexists.
Qed.

(** What a level entry of a cell of the chain holds. *)
Lemma link_step h i cells P c :
  Forall (cell_ok h) cells →
  links_at h i cells →
  cells !! P = Some c → (i < c_height c)%nat →
  ∃ lv, getLevel h (c_addr c) i = Some lv ∧
    ((nxt i (drop (S P) cells) = None ∧ forward lv = None) ∨
     (∃ d cn n,
        nxt i (drop (S P) cells) = Some (d, cn) ∧
        forward lv = Some (c_addr cn) ∧ span lv = u64 (Z.of_nat d) ∧
        (1 ≤ d)%nat ∧ cells !! (P + d)%nat = Some cn ∧ (i < c_height cn)%nat ∧
        (∀ k ck, (P < k < P + d)%nat → cells !! k = Some ck → (c_height ck ≤ i)%nat) ∧
        h !! c_addr cn = Some n ∧ ele n = c_ele cn ∧ score n = c_score cn)).
Proof.
  intros Hcells Hlinks HP Hc.
  destruct (Hlinks _ _ HP Hc) as (lv & Hlv & Hnx).
  exists lv. split; [done|].
  destruct (nxt i (drop (S P) cells)) as [[d cn]|] eqn:Hn; [right|by left].
  destruct Hnx as [Hfw Hsp].
  destruct (nxt_Some _ _ _ _ Hn) as (Hd & Hcn & Hhn & Hlow).
  rewrite lookup_drop in Hcn.
  replace (S P + (d - 1))%nat with (P + d)%nat in Hcn by lia.
  assert (Hok : cell_ok h cn) by (rewrite Forall_lookup in Hcells; eauto).
  destruct (cell_ok_lookup _ _ Hok) as (n & Hhn' & He & Hs & _).
  exists d, cn, n. split_and!; try done.
  intros k ck Hk Hck.
  specialize (Hlow (k - S P)%nat ck). rewrite lookup_drop in Hlow.
  replace (S P + (k - S P))%nat with k in Hlow by lia.
  apply Hlow; [lia|done].
Qed.

Lemma advance_rank_step fuel p h i x r lv :
  getLevel h x i = Some lv →
  advance_rank fuel p h i x r =
    match forward lv with
    | None => Some (x, r)
    | Some y =>
        ny ← h !! y;
        if p ny then
          match fuel with
          | O => None
          | S f => advance_rank f p h i y (u64 (r + span lv))
          end
        else Some (x, r)
    end.
Proof. intros Hlv. destruct fuel; simpl; by rewrite Hlv. Qed.

Lemma advance_rank_spec p q h i cells :
  key_test p q →
  Forall (cell_ok h) cells →
  links_at h i cells →
  ∀ fuel P c r,
    cells !! P = Some c → (i < c_height c)%nat →
    (base.length cells ≤ fuel + P + 1)%nat →
    ∃ P' c',
      advance_rank fuel p h i (c_addr c) (u64 r)
        = Some (c_addr c', u64 (r + Z.of_nat (P' - P))) ∧
      cells !! P' = Some c' ∧ (P ≤ P')%nat ∧ (i < c_height c')%nat ∧
      (∀ k ck, (P < k ≤ P')%nat → cells !! k = Some ck →
               (i < c_height ck)%nat → q ck = true) ∧
      (∀ d cn, nxt i (drop (S P') cells) = Some (d, cn) → q cn = false).
Proof.
  intros Hpq Hcells Hlinks fuel.
  induction fuel as [|fuel IH]; intros P c r HP Hc Hfuel.
  all: destruct (link_step _ _ _ _ _ Hcells Hlinks HP Hc) as (lv & Hlv & Hcase).
  all: rewrite (advance_rank_step _ _ _ _ _ _ _ Hlv).
  all: destruct Hcase as [[Hn Hfw]|(d & cn & n & Hn & Hfw & Hsp & Hd & Hcn & Hhn & Hlow & Hhn' & He & Hs)].
  all: rewrite Hfw; simpl.
  1,3: exists P, c; rewrite Nat.sub_diag, Z.add_0_r.
  1,2: by (split_and!; [done|done|lia|done|intros; lia|intros ??; rewrite Hn]).
  all: rewrite Hhn'; simpl; rewrite (Hpq n cn He Hs).
  all: destruct (q cn) eqn:Hq.
  2,4: exists P, c; rewrite Nat.sub_diag, Z.add_0_r.
  2,3: by (split_and!; [done|done|lia|done|intros; lia|intros ??; rewrite Hn; intros [= <- <-]]).
  - apply lookup_lt_Some in Hcn. lia.
  - destruct (IH (P + d)%nat cn (r + Z.of_nat d) Hcn Hhn)
      as (P' & c' & Hadv & HP'' & Hle & Hc' & Htrue & Hstop).
    { apply lookup_lt_Some in Hcn. lia. }
    exists P', c'. rewrite Hsp, u64_add_r, u64_add_l, Hadv.
    split_and!; [|done|lia|done| |done].
    + do 2 f_equal. u64_eq.
    + intros k ck Hk Hck Hhk.
      destruct (decide (k ≤ P + d)%nat) as [Hkd|Hkd]; [|apply (Htrue k); [lia|done..]].
      destruct (decide (k = P + d)%nat) as [->|Hne]; [congruence|].
      specialize (Hlow k ck ltac:(lia) Hck). lia.
Qed.

Lemma advance_fst fuel p h i x r :
  advance fuel p h i x = fst <$> advance_rank fuel p h i x r.
Proof.
  revert x r. induction fuel as [|fuel IH]; intros x r; simpl.
  all: destruct (getLevel h x i) as [lv|]; simpl; [|done].
  all: destruct (forward lv) as [y|]; simpl; [|done].
  all: destruct (h !! y) as [ny|]; simpl; [|done].
  all: destruct (p ny); simpl; try done.
Qed.

(** ** The descent of insert and delete *)

Lemma store_Some {A} (arr : list A) i v :
  (i < base.length arr)%nat → store arr i v = Some (<[i := v]> arr).
Proof. intros. unfold store. by rewrite decide_True. Qed.

Lemma pred_at_advance cells q P P' i j a pj :
  pred_at cells q P j a pj →
  (P ≤ P')%nat → (i < j)%nat →
  (∀ k ck, (P < k ≤ P')%nat → cells !! k = Some ck →
           (i < c_height ck)%nat → q ck = true) →
  pred_at cells q P' j a pj.
Proof.
  intros (Hle & Hcu & Hlow & Hstop) HPP Hij Htrue.
  split_and!; [lia|done| |done].
  intros k ck Hk Hck.
  destruct (decide (k ≤ P)%nat) as [|Hgt]; [apply (Hlow k); [lia|done]|].
  destruct (decide (c_height ck ≤ j)%nat) as [|Hhigh]; [done|exfalso].
  assert (Hdk : drop (S pj) cells !! (k - S pj)%nat = Some ck).
  { rewrite lookup_drop. by replace (S pj + (k - S pj))%nat with k by lia. }
  destruct (nxt_is_Some j _ _ _ Hdk ltac:(lia)) as [[d cn] Hn].
  pose proof (Hstop _ _ Hn) as Hq.
  destruct (nxt_Some _ _ _ _ Hn) as (Hd & Hcn & Hhn & Hfirst).
  rewrite lookup_drop in Hcn.
  assert (d - 1 ≤ k - S pj)%nat.
  { destruct (decide (d - 1 ≤ k - S pj)%nat); [done|].
    specialize (Hfirst (k - S pj)%nat ck ltac:(lia) Hdk). lia. }
  assert (P < S pj + (d - 1))%nat.
  { destruct (decide (P < S pj + (d - 1))%nat); [done|].
    specialize (Hlow (S pj + (d - 1))%nat cn ltac:(lia) Hcn). lia. }
  rewrite (Htrue (S pj + (d - 1))%nat cn) in Hq; [done|lia|done|lia].
Qed.

Lemma insert_search_spec sl cells q sc e :
  key_test (keyLess sc e) q →
  Forall (cell_ok (sl_nodes sl)) cells →
  (∀ i, links_at (sl_nodes sl) i cells) →
  (base.length cells ≤ base.length (sl_nodes sl))%nat →
  (sl_level sl ≤ SKIPLIST_MAXLEVEL)%nat →
  ∀ n P c update rank,
    (n ≤ sl_level sl)%nat →
    cells !! P = Some c → (n ≤ c_height c)%nat →
    base.length update = SKIPLIST_MAXLEVEL → base.length rank = SKIPLIST_MAXLEVEL →
    (n < sl_level sl → rank !! n = Some (u64 (Z.of_nat P)))%nat →
    (n = sl_level sl → P = 0%nat) →
    recorded cells q P n (sl_level sl) update rank →
    (P = 0%nat ∨ q c = true) →
    ∃ P' c' update' rank',
      insert_search sl sc e n (c_addr c) update rank = Some (c_addr c', update', rank') ∧
      cells !! P' = Some c' ∧ (P ≤ P')%nat ∧
      base.length update' = SKIPLIST_MAXLEVEL ∧ base.length rank' = SKIPLIST_MAXLEVEL ∧
      recorded cells q P' 0 (sl_level sl) update' rank' ∧
      (P' = 0%nat ∨ q c' = true).
Proof.
  intros Hpq Hcells Hlinks Hlen Htop n.
  induction n as [|i IH]; intros P c update rank Hn HP Hh Hlu Hlr Hrk Hinit Hrec Hq.
  { exists P, c, update, rank. by split_and!. }
  simpl.
  assert (Hr0 : (if decide (i = sl_level sl - 1)%nat then Some 0 else rank !! S i)
                = Some (u64 (Z.of_nat P))).
  { case_decide as Hi.
    - rewrite Hinit by lia. done.
    - apply Hrk. lia. }
  rewrite Hr0. simpl.
  rewrite store_Some by lia. simpl.
  destruct (advance_rank_spec _ _ _ i _ Hpq Hcells (Hlinks i)
              (fuel_of (sl_nodes sl)) P c (Z.of_nat P) HP ltac:(lia))
    as (P' & c' & Hadv & HP' & Hle & Hc' & Htrue & Hstop).
  { unfold fuel_of. lia. }
  rewrite Hadv. simpl.
  rewrite (store_Some (<[i:=_]> rank)) by (rewrite length_insert; lia). simpl.
  rewrite (store_Some update) by lia. simpl.
  replace (Z.of_nat P + Z.of_nat (P' - P)) with (Z.of_nat P') by lia.
  destruct (IH P' c' (<[i:=Some (c_addr c')]> update)
              (<[i:=u64 (Z.of_nat P')]> (<[i:=u64 (Z.of_nat P)]> rank)))
    as (P'' & c'' & u'' & r'' & Hs & HP'' & Hle' & Hlu' & Hlr' & Hrec' & Hq'); clear IH.
  - lia.
  - done.
  - lia.
  - by rewrite length_insert.
  - by rewrite !length_insert.
  - intros _. apply list_lookup_insert_eq. rewrite length_insert. lia.
  - lia.
  - intros j Hj. destruct (decide (j = i)) as [->|Hji].
    + exists (c_addr c'), P'. split_and!.
      * apply list_lookup_insert_eq. lia.
      * apply list_lookup_insert_eq. rewrite length_insert. lia.
      * split_and!; [lia|by exists c'|intros; lia|done].
    + destruct (Hrec j ltac:(lia)) as (a & pj & Hu & Hr & Hpred).
      exists a, pj. split_and!.
      * by rewrite list_lookup_insert_ne.
      * by rewrite !list_lookup_insert_ne.
      * eapply pred_at_advance; [done|done| |done]. lia.
  - destruct (decide (P' = P)) as [->|Hne].
    + replace c' with c by congruence. done.
    + right. apply (Htrue P'); [lia|done|done].
  - exists P'', c'', u'', r''. split_and!; [done|done|lia|done..].
Qed.

Lemma delete_search_insert_search sl sc e n x update rank :
  (n ≤ sl_level sl)%nat → (sl_level sl ≤ base.length rank)%nat →
  delete_search sl sc e n x update
  = (λ '(x, u, _), (x, u)) <$> insert_search sl sc e n x update rank.
Proof.
  revert x update rank. induction n as [|i IH]; intros x update rank Hn Hr; [done|].
  simpl.
  assert (Hr0 : is_Some (if decide (i = sl_level sl - 1)%nat then Some 0 else rank !! S i)).
  { case_decide; [done|]. apply lookup_lt_is_Some. lia. }
  destruct Hr0 as [r0 ->]. simpl.
  rewrite store_Some by lia. simpl.
  rewrite (advance_fst _ _ _ _ _ r0).
  destruct (advance_rank _ _ _ _ _ _) as [[x' r]|]; simpl; [|done].
  rewrite (store_Some (<[i:=_]> rank)) by (rewrite length_insert; lia). simpl.
  destruct (store update i (Some x')) as [update'|]; simpl; [|done].
  apply IH; [lia|]. by rewrite !length_insert.
Qed.

(** ** Splicing a cell into one level *)

Lemma NoDup_addr_lookup (cells : list cell) p1 p2 c1 c2 :
  NoDup (c_addr <$> cells) →
  cells !! p1 = Some c1 → cells !! p2 = Some c2 →
  c_addr c1 = c_addr c2 → p1 = p2.
Proof.
  intros Hnd H1 H2 Heq.
  eapply NoDup_lookup; [done| |].
  - rewrite list_lookup_fmap, H1. done.
  - rewrite list_lookup_fmap, H2. simpl. by rewrite Heq.
Qed.

Lemma last_above_nxt pre i pi cu p c :
  last_above pre i pi cu →
  pre !! p = Some c → (i < c_height c)%nat →
  (p = pi ∧ c = cu ∧ nxt i (drop (S p) pre) = None) ∨
  ((p < pi)%nat ∧ is_Some (nxt i (drop (S p) pre))).
Proof.
  intros (Hcu & Hhu & Hlow) Hp Hc.
  destruct (decide (p < pi)%nat) as [Hlt|Hge].
  - right. split; [done|].
    eapply (nxt_is_Some i _ (pi - S p)%nat cu); [|done].
    rewrite lookup_drop. by replace (S p + (pi - S p))%nat with pi by lia.
  - left. destruct (decide (p = pi)) as [->|Hne].
    + split_and!; [done|congruence|].
      apply nxt_None, Forall_lookup. intros k ck Hk.
      rewrite lookup_drop in Hk. apply (Hlow (S pi + k)%nat ck); [lia|done].
    + specialize (Hlow p c ltac:(lia) Hp). lia.
Qed.

Lemma links_insert_below h h' i pre cx L2 pi cu lvu :
  links_at h i (pre ++ L2) →
  NoDup (c_addr <$> pre ++ cx :: L2) →
  last_above pre i pi cu →
  (i < c_height cx)%nat →
  getLevel h (c_addr cu) i = Some lvu →
  getLevel h' (c_addr cu) i
    = Some (mkLevel (Some (c_addr cx)) (u64 (Z.of_nat (base.length pre - pi)))) →
  getLevel h' (c_addr cx) i
    = Some (mkLevel (forward lvu)
              (u64 (span lvu - Z.of_nat (base.length pre - 1 - pi)))) →
  (∀ y, y ≠ c_addr cu → y ≠ c_addr cx → getLevel h' y i = getLevel h y i) →
  links_at h' i (pre ++ cx :: L2).
Proof.
  intros Hlinks Hnd Hlast Hhx Hlvu Hu' Hx' Hframe p c Hp Hc.
  assert (Hpi : (pi < base.length pre)%nat).
  { destruct Hlast as [Hl _]. by apply lookup_lt_Some in Hl. }
  assert (Hcxp : (pre ++ cx :: L2) !! base.length pre = Some cx).
  { rewrite lookup_app_r by lia. by rewrite Nat.sub_diag. }
  destruct (decide (p < base.length pre)%nat) as [Hlt|Hge].
  - (* a cell before the new one *)
    rewrite lookup_app_l in Hp by done.
    rewrite drop_app_le by lia. rewrite nxt_app.
    assert (Hold := Hlinks p c).
    rewrite lookup_app_l, drop_app_le, nxt_app in Hold by lia.
    specialize (Hold Hp Hc).
    destruct (last_above_nxt _ _ _ _ _ _ Hlast Hp Hc)
      as [(-> & -> & Hnone)|(Hppi & [r Hr])].
    + rewrite Hnone. simpl. rewrite decide_True by done. simpl.
      exists (mkLevel (Some (c_addr cx)) (u64 (Z.of_nat (base.length pre - pi)))).
      split; [done|]. simpl. split; [done|].
      rewrite length_drop. f_equal. lia.
    + rewrite Hr in Hold |- *.
      destruct Hold as (lv & Hlv & Hok). exists lv. split; [|done].
      rewrite Hframe; [done| |].
      * intros Heq. destruct Hlast as [Hl _].
        assert (p = pi); [|lia].
        eapply (NoDup_addr_lookup (pre ++ cx :: L2)); [done| | |done].
        -- by rewrite lookup_app_l.
        -- by rewrite lookup_app_l.
      * intros Heq.
        assert (p = base.length pre); [|lia].
        eapply (NoDup_addr_lookup (pre ++ cx :: L2)); [done| |done|done].
        by rewrite lookup_app_l.
  - destruct (decide (p = base.length pre)) as [->|Hne].
    + (* the new cell *)
      rewrite Hcxp in Hp. injection Hp as <-.
      replace (drop (S (base.length pre)) (pre ++ cx :: L2)) with L2.
      2:{ rewrite drop_app_ge by lia.
          by replace (S (base.length pre) - base.length pre)%nat with 1%nat by lia. }
      destruct Hlast as (Hl & Hhu & Hlow).
      assert (Hold := Hlinks pi cu).
      rewrite lookup_app_l, drop_app_le, nxt_app in Hold by lia.
      specialize (Hold Hl Hhu).
      destruct (last_above_nxt _ _ _ _ _ _ (conj Hl (conj Hhu Hlow)) Hl Hhu)
        as [(_ & _ & Hnone)|(? & _)]; [|lia].
      rewrite Hnone in Hold. destruct Hold as (lv & Hlv & Hok).
      rewrite Hlvu in Hlv. injection Hlv as <-.
      eexists. split; [done|]. simpl.
      destruct (nxt i L2) as [[d cn]|]; simpl in *; [|done].
      destruct Hok as [Hf Hs]. split; [done|].
      rewrite Hs, length_drop. u64_eq.
    + (* a cell after the new one *)
      rewrite lookup_app_r in Hp by lia.
      destruct (p - base.length pre)%nat as [|p'] eqn:Hpp; [lia|]. simpl in Hp.
      assert (Hold := Hlinks (base.length pre + p')%nat c).
      rewrite lookup_app_r in Hold by lia.
      replace (base.length pre + p' - base.length pre)%nat with p' in Hold by lia.
      specialize (Hold Hp Hc).
      rewrite drop_app_ge in Hold |- * by lia.
      replace (S p - base.length pre)%nat with (S (S p')) by lia. simpl.
      replace (S (base.length pre + p') - base.length pre)%nat with (S p') in Hold by lia.
      destruct Hold as (lv & Hlv & Hok). exists lv. split; [|done].
      assert (Hcp : (pre ++ cx :: L2) !! p = Some c).
      { rewrite lookup_app_r by lia. by rewrite Hpp. }
      rewrite Hframe; [done| |].
      * intros Heq. destruct Hlast as [Hl _].
        assert (p = pi); [|lia].
        eapply (NoDup_addr_lookup (pre ++ cx :: L2)); [done|done| |done].
        by rewrite lookup_app_l.
      * intros Heq. assert (p = base.length pre); [|lia].
        by eapply (NoDup_addr_lookup (pre ++ cx :: L2)).
Qed.

(** Replacing the cells [M] that follow [pre] by [M']: at level [i] only the
    last cell of [pre] above that level and the cells of [M'] need new links. *)
Lemma links_relink h h' i pre M M' L2 pi cu :
  links_at h i (pre ++ M ++ L2) →
  last_above pre i pi cu →
  link_ok h' (c_addr cu) i (nxt i (drop (S pi) pre ++ M' ++ L2)) →
  (∀ k c, M' !! k = Some c → (i < c_height c)%nat →
          link_ok h' (c_addr c) i (nxt i (drop (S k) M' ++ L2))) →
  (∀ p c, pre !! p = Some c → p ≠ pi →
          getLevel h' (c_addr c) i = getLevel h (c_addr c) i) →
  (∀ c, c ∈ L2 → getLevel h' (c_addr c) i = getLevel h (c_addr c) i) →
  links_at h' i (pre ++ M' ++ L2).
Proof.
  intros Hlinks Hlast Hu HM' Hfpre Hfpost p c Hp Hc.
  destruct (decide (p < base.length pre)%nat) as [Hlt|Hge].
  - rewrite lookup_app_l in Hp by done.
    rewrite drop_app_le by lia.
    destruct (last_above_nxt _ _ _ _ _ _ Hlast Hp Hc)
      as [(-> & -> & Hnone)|(Hppi & [r Hr])]; [done|].
    rewrite nxt_app, Hr.
    assert (Hold := Hlinks p c).
    rewrite lookup_app_l, drop_app_le, nxt_app, Hr in Hold by lia.
    destruct (Hold Hp Hc) as (lv & Hlv & Hok). exists lv. split; [|done].
    rewrite (Hfpre p) by (done || lia). done.
  - rewrite lookup_app_r in Hp by lia.
    rewrite drop_app_ge by lia.
    destruct (decide (p - base.length pre < base.length M')%nat) as [Hlt'|Hge'].
    + rewrite lookup_app_l in Hp by done.
      rewrite drop_app_le by lia.
      replace (S p - base.length pre)%nat with (S (p - base.length pre)) by lia.
      by apply HM'.
    + rewrite lookup_app_r in Hp by lia.
      rewrite drop_app_ge by lia.
      set (k := (p - base.length pre - base.length M')%nat) in *.
      replace (S p - base.length pre - base.length M')%nat with (S k) by lia.
      assert (Hold := Hlinks (base.length pre + base.length M + k)%nat c).
      rewrite lookup_app_r, lookup_app_r in Hold by lia.
      rewrite drop_app_ge, drop_app_ge in Hold by lia.
      replace (base.length pre + base.length M + k - base.length pre - base.length M)%nat
        with k in Hold by lia.
      replace (S (base.length pre + base.length M + k) - base.length pre - base.length M)%nat
        with (S k) in Hold by lia.
      destruct (Hold Hp Hc) as (lv & Hlv & Hok). exists lv. split; [|done].
      rewrite Hfpost; [done|]. by eapply list_elem_of_lookup_2.
Qed.

(** The link that leaves the last cell of [pre] above level [i]. *)
Lemma last_above_link h i pre X pi cu :
  links_at h i (pre ++ X) →
  last_above pre i pi cu →
  link_ok h (c_addr cu) i
    ((λ '(d, c), (base.length pre - S pi + d, c)%nat) <$> nxt i X).
Proof.
  intros Hlinks Hlast.
  destruct Hlast as (Hl & Hhu & Hlow).
  assert (Hpi : (pi < base.length pre)%nat) by (by apply lookup_lt_Some in Hl).
  assert (Hold := Hlinks pi cu).
  rewrite lookup_app_l, drop_app_le, nxt_app in Hold by lia.
  specialize (Hold Hl Hhu).
  destruct (last_above_nxt _ _ _ _ _ _ (conj Hl (conj Hhu Hlow)) Hl Hhu)
    as [(_ & _ & Hnone)|(? & _)]; [|lia].
  by rewrite Hnone, length_drop in Hold.
Qed.

Lemma NoDup_app_mid_frame (pre M L2 : list cell) :
  NoDup (c_addr <$> pre ++ M ++ L2) →
  (∀ p c pi cu, pre !! p = Some c → pre !! pi = Some cu → p ≠ pi → c_addr c ≠ c_addr cu) ∧
  (∀ p c cx, pre !! p = Some c → cx ∈ M → c_addr c ≠ c_addr cx) ∧
  (∀ c cx, c ∈ L2 → cx ∈ M → c_addr c ≠ c_addr cx) ∧
  (∀ c p cu, c ∈ L2 → pre !! p = Some cu → c_addr c ≠ c_addr cu).
Proof.
  rewrite !fmap_app. intros Hnd.
  apply NoDup_app in Hnd as (Hpre & Hdis & Hrest).
  apply NoDup_app in Hrest as (HM & Hdis' & HL2).
  split_and!.
  - intros p c pi cu Hp Hpi Hne Heq. apply Hne.
    eapply NoDup_lookup; [exact Hpre| |].
    + by rewrite list_lookup_fmap, Hp.
    + rewrite list_lookup_fmap, Hpi. simpl. by rewrite Heq.
  - intros p c cx Hp Hcx Heq.
    apply (Hdis (c_addr c)).
    + apply list_elem_of_fmap. exists c. split; [done|]. by eapply list_elem_of_lookup_2.
    + apply elem_of_app. left. rewrite Heq. by apply list_elem_of_fmap_2.
  - intros c cx Hc Hcx Heq.
    apply (Hdis' (c_addr cx)).
    + by apply list_elem_of_fmap_2.
    + rewrite <- Heq. by apply list_elem_of_fmap_2.
  - intros c p cu Hc Hp Heq.
    apply (Hdis (c_addr cu)).
    + apply list_elem_of_fmap. exists cu. split; [done|]. by eapply list_elem_of_lookup_2.
    + apply elem_of_app. right. rewrite <- Heq. by apply list_elem_of_fmap_2.
Qed.

(** ** Loops and their bodies *)

Lemma for_range_inv {S : Type} (I : nat → S → Prop) lo hi body (s : S) :
  (lo ≤ hi)%nat → I lo s →
  (∀ i s, (lo ≤ i < hi)%nat → I i s → ∃ s', body i s = Some s' ∧ I (Datatypes.S i) s') →
  ∃ s', for_range lo hi body s = Some s' ∧ I hi s'.
Proof.
  unfold for_range. intros Hle.
  remember (hi - lo)%nat as n eqn:Hn.
  revert lo s Hle Hn. induction n as [|n IH]; intros lo s Hle Hn HI Hbody; simpl.
  - exists s. split; [done|]. by replace hi with lo by lia.
  - destruct (Hbody lo s ltac:(lia) HI) as (s1 & Hb & HI1).
    rewrite Hb. simpl. apply IH; [lia|lia|done|].
    intros i s' Hi. apply Hbody. lia.
Qed.

Lemma for_range_empty {S : Type} lo hi body (s : S) :
  (hi ≤ lo)%nat → for_range lo hi body s = Some s.
Proof. intros. unfold for_range. by replace (hi - lo)%nat with 0%nat by lia. Qed.

Lemma heap_frame_refl h : heap_frame h h.
Proof. by split. Qed.

Lemma heap_frame_trans h1 h2 h3 : heap_frame h1 h2 → heap_frame h2 h3 → heap_frame h1 h3.
Proof.
  intros [] []. split; [congruence|intros; etrans; eauto..].
Qed.

Lemma level_update_frame h h' x i lv : level_update h h' x i lv → heap_frame h h'.
Proof. intros []. by split. Qed.

Lemma back_update_frame_key h h' x b :
  back_update h h' x b →
  base.length h' = base.length h ∧ (∀ y, nodeKey h' y = nodeKey h y).
Proof. intros []. by split. Qed.

Lemma insert_splice_spec update rank x i h u lvu lvx r0 ri :
  deref update i = Some u → rank !! 0%nat = Some r0 → rank !! i = Some ri → u ≠ x →
  getLevel h u i = Some lvu → getLevel h x i = Some lvx →
  ∃ h', insert_splice update rank x i h = Some h' ∧
    heap_frame h h' ∧
    getLevel h' u i = Some (mkLevel (Some x) (u64 (u64 (r0 - ri) + 1))) ∧
    getLevel h' x i = Some (mkLevel (forward lvu) (u64 (span lvu - u64 (r0 - ri)))) ∧
    (∀ y j, (j ≠ i ∨ (y ≠ u ∧ y ≠ x)) → getLevel h' y j = getLevel h y j).
Proof.
  intros Hu Hr0 Hri Hux Hlu Hlx. unfold insert_splice.
  rewrite Hu. simpl. rewrite Hlu. simpl.
  destruct (setForward_spec h x i (forward lvu) _ Hlx) as (h1 & -> & U1). simpl.
  assert (Hlu1 : getLevel h1 u i = Some lvu).
  { rewrite (lu_frame _ _ _ _ _ U1) by (by left). done. }
  destruct (setForward_spec h1 u i (Some x) _ Hlu1) as (h2 & -> & U2). simpl.
  rewrite (lu_here _ _ _ _ _ U2). simpl. rewrite Hr0, Hri. simpl.
  assert (Hlx2 : getLevel h2 x i = Some (mkLevel (forward lvu) (span lvx))).
  { rewrite (lu_frame _ _ _ _ _ U2) by (left; congruence). apply (lu_here _ _ _ _ _ U1). }
  destruct (setSpan_spec h2 x i (u64 (span lvu - u64 (r0 - ri))) _ Hlx2) as (h3 & -> & U3).
  simpl.
  assert (Hlu3 : getLevel h3 u i = Some (mkLevel (Some x) (span lvu))).
  { rewrite (lu_frame _ _ _ _ _ U3) by (by left). apply (lu_here _ _ _ _ _ U2). }
  destruct (setSpan_spec h3 u i (u64 (u64 (r0 - ri) + 1)) _ Hlu3) as (h4 & -> & U4).
  exists h4. split_and!; [done| | | |].
  - eapply heap_frame_trans; [|by eapply level_update_frame].
    eapply heap_frame_trans; [|by eapply level_update_frame].
    eapply heap_frame_trans; by eapply level_update_frame.
  - apply (lu_here _ _ _ _ _ U4).
  - rewrite (lu_frame _ _ _ _ _ U4) by (left; congruence). apply (lu_here _ _ _ _ _ U3).
  - intros y j Hyj.
    rewrite (lu_frame _ _ _ _ _ U4) by (destruct Hyj as [?|[??]]; [by right|by left]).
    rewrite (lu_frame _ _ _ _ _ U3) by (destruct Hyj as [?|[??]]; [by right|by left]).
    rewrite (lu_frame _ _ _ _ _ U2) by (destruct Hyj as [?|[??]]; [by right|by left]).
    rewrite (lu_frame _ _ _ _ _ U1) by (destruct Hyj as [?|[??]]; [by right|by left]). done.
Qed.

Lemma insert_bump_spec update i h u lvu :
  deref update i = Some u → getLevel h u i = Some lvu →
  ∃ h', insert_bump update i h = Some h' ∧
    level_update h h' u i (mkLevel (forward lvu) (u64 (span lvu + 1))).
Proof.
  intros Hu Hlu. unfold insert_bump. rewrite Hu. simpl. rewrite Hlu. simpl.
  by eapply setSpan_spec.
Qed.

(** ** Consequences of the representation *)

Lemma links_at_ext h h' i cells :
  (∀ c, c ∈ cells → getLevel h' (c_addr c) i = getLevel h (c_addr c) i) →
  links_at h i cells → links_at h' i cells.
Proof.
  intros Hsame Hlinks p c Hp Hc.
  destruct (Hlinks p c Hp Hc) as (lv & Hlv & Hok).
  exists lv. split; [|done]. rewrite Hsame; [done|]. by eapply list_elem_of_lookup_2.
Qed.

Lemma cells_ok_frame h h' cells :
  (∀ y, nodeKey h' y = nodeKey h y) →
  Forall (cell_ok h) cells → Forall (cell_ok h') cells.
Proof.
  intros Hk Hall. eapply Forall_impl; [exact Hall|].
  intros c Hc. unfold cell_ok. by rewrite Hk.
Qed.

Lemma cell_ok_lt h c : cell_ok h c → (c_addr c < base.length h)%nat.
Proof.
  intros Hc. destruct (cell_ok_lookup _ _ Hc) as (n & Hn & _).
  by apply lookup_lt_Some in Hn.
Qed.

Lemma NoDup_bounded_length (l : list nat) n :
  NoDup l → Forall (λ a, a < n)%nat l → (base.length l ≤ n)%nat.
Proof.
  intros Hnd Hall.
  rewrite <- (length_seq n 0).
  apply submseteq_length, NoDup_submseteq; [done|].
  intros a Ha. rewrite Forall_forall in Hall.
  apply elem_of_seq. specialize (Hall a Ha). lia.
Qed.

Lemma max_height_ge L : (1 ≤ max_height L)%nat.
Proof. induction L; simpl; lia. Qed.

Lemma max_height_bound L n :
  (1 ≤ n)%nat → Forall (λ c, c_height c ≤ n)%nat L ↔ (max_height L ≤ n)%nat.
Proof.
  intros Hn. induction L as [|c L IH]; simpl.
  - split; [lia|constructor].
  - rewrite Forall_cons, IH. lia.
Qed.

Lemma max_height_app L1 L2 :
  max_height (L1 ++ L2) = Nat.max (max_height L1) (max_height L2).
Proof.
  induction L1 as [|c L1 IH]; simpl.
  - pose proof (max_height_ge L2). lia.
  - rewrite IH. lia.
Qed.

Lemma Rep_level_bound sl L :
  Rep sl L → (1 ≤ sl_level sl ≤ SKIPLIST_MAXLEVEL)%nat.
Proof.
  intros HR. rewrite (rep_level _ _ HR). split; [apply max_height_ge|].
  apply max_height_bound; [unfold SKIPLIST_MAXLEVEL; lia|].
  eapply Forall_impl; [apply (rep_heights _ _ HR)|]. simpl. intros; lia.
Qed.

Lemma Rep_height_le sl L c :
  Rep sl L → c ∈ L → (1 ≤ c_height c ≤ sl_level sl)%nat.
Proof.
  intros HR Hc. split.
  - pose proof (rep_heights _ _ HR) as Hh. rewrite Forall_forall in Hh.
    by apply Hh.
  - assert (Hm : (max_height L ≤ sl_level sl)%nat) by (rewrite (rep_level _ _ HR); lia).
    apply max_height_bound in Hm; [|apply (Rep_level_bound _ _ HR)].
    rewrite Forall_forall in Hm. by apply Hm.
Qed.

Lemma Rep_fuel sl L :
  Rep sl L →
  (base.length (header_cell (sl_header sl) :: L) ≤ base.length (sl_nodes sl))%nat.
Proof.
  intros HR.
  rewrite <- (length_fmap c_addr).
  apply NoDup_bounded_length; [apply (rep_nodup _ _ HR)|].
  apply Forall_fmap. eapply Forall_impl; [apply (rep_cells _ _ HR)|].
  intros c. apply cell_ok_lt.
Qed.

(** ** Allocation *)

Lemma getLevel_app_l h l y j :
  (y < base.length h)%nat → getLevel (h ++ l) y j = getLevel h y j.
Proof. intros. unfold getLevel. by rewrite lookup_app_l. Qed.

Lemma nodeKey_app_l h l y :
  (y < base.length h)%nat → nodeKey (h ++ l) y = nodeKey h y.
Proof. intros. unfold nodeKey. by rewrite lookup_app_l. Qed.

Lemma nodeBack_app_l h l y :
  (y < base.length h)%nat → nodeBack (h ++ l) y = nodeBack h y.
Proof. intros. unfold nodeBack. by rewrite lookup_app_l. Qed.

Lemma getLevel_new h lvl sc e j :
  (j < lvl)%nat →
  getLevel (h ++ [createNode lvl sc e]) (base.length h) j = Some (mkLevel None 0).
Proof.
  intros. unfold getLevel. rewrite lookup_app_r by lia.
  rewrite Nat.sub_diag. simpl. by apply lookup_replicate_2.
Qed.

Lemma nodeKey_new h lvl sc e :
  nodeKey (h ++ [createNode lvl sc e]) (base.length h) = Some (e, sc, lvl).
Proof.
  unfold nodeKey. rewrite lookup_app_r by lia.
  rewrite Nat.sub_diag. simpl. by rewrite length_replicate.
Qed.

Lemma nodeBack_new h lvl sc e :
  nodeBack (h ++ [createNode lvl sc e]) (base.length h) = Some None.
Proof.
  unfold nodeBack. rewrite lookup_app_r by lia.
  by rewrite Nat.sub_diag.
Qed.

(** ** randomLevel *)

Lemma randomLevel_loop_bounds room draws lvl :
  (lvl ≤ randomLevel_loop room draws lvl ≤ lvl + room)%nat.
Proof.
  revert draws lvl. induction room as [|room IH]; intros [|[] ds] lvl; simpl; try lia.
  specialize (IH ds (S lvl)). lia.
Qed.

Lemma randomLevel_bounds draws : (1 ≤ randomLevel draws ≤ SKIPLIST_MAXLEVEL)%nat.
Proof.
  unfold randomLevel.
  pose proof (randomLevel_loop_bounds (SKIPLIST_MAXLEVEL - 1) draws 1).
  unfold SKIPLIST_MAXLEVEL in *. lia.
Qed.

(** ** Backward pointers *)

Lemma back_ok_insert h h' L P cx :
  back_ok h L → (P ≤ base.length L)%nat →
  nodeBack h' (c_addr cx) = Some (match P with O => None | S k => c_addr <$> L !! k end) →
  (∀ cn, L !! P = Some cn → nodeBack h' (c_addr cn) = Some (Some (c_addr cx))) →
  (∀ k c, L !! k = Some c → k ≠ P → nodeBack h' (c_addr c) = nodeBack h (c_addr c)) →
  back_ok h' (take P L ++ cx :: drop P L).
Proof.
  intros Hback HP Hx Hn Hframe k c Hk.
  assert (Hlt : base.length (take P L) = P) by (rewrite length_take; lia).
  destruct (decide (k < P)%nat) as [Hlt1|Hge].
  - rewrite lookup_app_l, lookup_take_lt in Hk by lia.
    rewrite (Hframe k c Hk) by lia. rewrite (Hback k c Hk).
    destruct k as [|k']; [done|].
    by rewrite lookup_app_l, lookup_take_lt by lia.
  - rewrite lookup_app_r in Hk by lia. rewrite Hlt in Hk.
    destruct (k - P)%nat as [|[|m]] eqn:Hkp; simpl in Hk.
    + injection Hk as <-. replace k with P by lia. rewrite Hx.
      destruct P as [|P']; [done|].
      by rewrite lookup_app_l, lookup_take_lt by lia.
    + rewrite lookup_drop, Nat.add_0_r in Hk. rewrite (Hn c Hk).
      replace k with (S P) by lia.
      rewrite lookup_app_r by lia. by rewrite Hlt, Nat.sub_diag.
    + rewrite lookup_drop in Hk.
      rewrite (Hframe _ c Hk) by lia. rewrite (Hback _ c Hk).
      replace (P + S m)%nat with (S (P + m)) by lia.
      replace k with (S (S (P + m))) by lia.
      rewrite lookup_app_r by lia. rewrite Hlt.
      replace (S (P + m) - P)%nat with (S m) by lia. simpl.
      by rewrite lookup_drop.
Qed.

Lemma nodeKey_is_Some h a k : nodeKey h a = Some k → is_Some (h !! a).
Proof. unfold nodeKey. destruct (h !! a); [by eexists|done]. Qed.

Lemma last_insert_mid {A} (l1 l2 : list A) c cn :
  head l2 = Some cn → last (l1 ++ c :: l2) = last (l1 ++ l2).
Proof.
  destruct l2 as [|c0 l2']; [done|]. intros _.
  by rewrite !last_app, last_cons_cons.
Qed.

(** ** insert keeps the representation *)

Section insert_proof.
Variables (sl : skiplist) (L : list cell) (q : cell → bool).
Variables (sc : float64) (e : string) (draws : list bool).
Hypothesis HRep : Rep sl L.
Hypothesis Hq : key_test (keyLess sc e) q.

Let hd := sl_header sl.
Let cells := header_cell hd :: L.
Let lvl := randomLevel draws.
Let top := sl_level sl.

Lemma insert_search_Rep :
  ∃ P c update rank,
    insert_search sl sc e top hd
      (replicate SKIPLIST_MAXLEVEL None) (replicate SKIPLIST_MAXLEVEL 0)
      = Some (c_addr c, update, rank) ∧
    cells !! P = Some c ∧
    base.length update = SKIPLIST_MAXLEVEL ∧ base.length rank = SKIPLIST_MAXLEVEL ∧
    recorded cells q P 0 top update rank ∧
    (P = 0%nat ∨ q c = true).
Proof.
  pose proof (Rep_level_bound _ _ HRep) as Hlv.
  destruct (insert_search_spec sl cells q sc e Hq (rep_cells _ _ HRep)
              (rep_links _ _ HRep) (Rep_fuel _ _ HRep) ltac:(lia)
              top 0%nat (header_cell hd)
              (replicate SKIPLIST_MAXLEVEL None) (replicate SKIPLIST_MAXLEVEL 0))
    as (P & c & update & rank & Hs & HP & _ & Hlu & Hlr & Hrec & HqP).
  - done.
  - done.
  - simpl. subst top. lia.
  - apply length_replicate.
  - apply length_replicate.
  - subst top. lia.
  - done.
  - intros j Hj. subst top. lia.
  - by left.
  - exists P, c, update, rank. by split_and!.
Qed.

Lemma cells_height_top p c :
  cells !! p = Some c → (1 ≤ p)%nat → (1 ≤ c_height c ≤ top)%nat.
Proof.
  intros Hp Hp1. destruct p as [|p]; [lia|]. simpl in Hp.
  eapply Rep_height_le; [done|]. by eapply list_elem_of_lookup_2.
Qed.

Lemma nxt_above_top j l :
  (top ≤ j)%nat → l ⊆ L → nxt j l = None.
Proof.
  intros Hj Hsub. apply nxt_None, Forall_forall. intros c Hc.
  pose proof (Rep_height_le _ _ c HRep (Hsub _ Hc)). subst top. lia.
Qed.

Lemma insert_raise_loop P update rank :
  base.length update = SKIPLIST_MAXLEVEL → base.length rank = SKIPLIST_MAXLEVEL →
  recorded cells q P 0 top update rank →
  ∃ update' rank' h',
    (if decide (top < lvl)%nat then
       for_range top lvl (insert_raise sl) (update, rank, sl_nodes sl)
     else Some (update, rank, sl_nodes sl)) = Some (update', rank', h') ∧
    recorded cells q P 0 (Nat.max top lvl) update' rank' ∧
    heap_frame (sl_nodes sl) h' ∧
    (∀ i, links_at h' i cells).
Proof.
  intros Hlu Hlr Hrec.
  pose proof (randomLevel_bounds draws) as Hlvl. fold lvl in Hlvl.
  case_decide as Hraise.
  2:{ exists update, rank, (sl_nodes sl).
      replace (Nat.max top lvl) with top by lia.
      split_and!; [done|done|apply heap_frame_refl|apply (rep_links _ _ HRep)]. }
  replace (Nat.max top lvl) with lvl by lia.
  destruct (for_range_inv
    (λ i '(update', rank', h'),
       base.length update' = SKIPLIST_MAXLEVEL ∧ base.length rank' = SKIPLIST_MAXLEVEL ∧
       recorded cells q P 0 i update' rank' ∧
       heap_frame (sl_nodes sl) h' ∧ (∀ j, links_at h' j cells))
    top lvl (insert_raise sl) (update, rank, sl_nodes sl))
    as ([[update' rank'] h'] & Hfor & _ & _ & Hrec' & Hfr & Hlinks).
  - lia.
  - split_and!; [done|done|done|apply heap_frame_refl|apply (rep_links _ _ HRep)].
  - intros i [[u r] h] Hi (Hlu' & Hlr' & Hrec' & Hfr & Hlinks).
    unfold insert_raise.
    rewrite store_Some by lia. simpl.
    rewrite store_Some by lia. simpl.
    unfold deref. rewrite list_lookup_insert_eq by lia. simpl.
    destruct (Hlinks i 0%nat (header_cell hd) eq_refl) as (lv & Hlv & Hok).
    { simpl. lia. }
    change (drop 1 cells) with L in Hok.
    rewrite (nxt_above_top i L) in Hok by (done || lia).
    destruct (setSpan_spec h hd i (sl_length sl) _ Hlv) as (h1 & Hset & Hup).
    fold hd. rewrite Hset. simpl.
    eexists. split; [done|].
    split_and!.
    + by rewrite length_insert.
    + by rewrite length_insert.
    + intros j Hj. destruct (decide (j = i)) as [->|Hji].
      * exists hd, 0%nat. split_and!.
        -- apply list_lookup_insert_eq. lia.
        -- apply list_lookup_insert_eq. lia.
        -- split_and!.
           ++ lia.
           ++ exists (header_cell hd). split_and!; [done|done|simpl; lia].
           ++ intros k ck Hk Hck.
              pose proof (cells_height_top k ck Hck ltac:(lia)). lia.
           ++ intros d cn. change (drop 1 cells) with L.
              by rewrite (nxt_above_top i L) by (done || lia).
      * destruct (Hrec' j ltac:(lia)) as (a & pj & Hu & Hr & Hpred).
        exists a, pj. split_and!; [|by rewrite list_lookup_insert_ne|done].
        by rewrite list_lookup_insert_ne.
    + eapply heap_frame_trans; [done|]. by eapply level_update_frame.
    + intros j. destruct (decide (j = i)) as [->|Hji].
      * intros p c Hp Hc.
        destruct p as [|p].
        2:{ pose proof (cells_height_top _ _ Hp ltac:(lia)). lia. }
        injection Hp as <-. change (drop 1 cells) with L.
        rewrite (nxt_above_top i L) by (done || lia).
        eexists. split; [apply (lu_here _ _ _ _ _ Hup)|]. done.
      * eapply links_at_ext; [|apply Hlinks].
        intros c _. apply (lu_frame _ _ _ _ _ Hup). by right.
  - exists update', rank', h'. by split_and!.
Qed.

(** The state after the descent and the raising of the level. *)
Variables (P : nat) (update : list (option ptr)) (rank : list Z).
Variable h1 : list skiplistNode.
Hypothesis HP : (P < base.length cells)%nat.
Hypothesis Hrec : recorded cells q P 0 (Nat.max top lvl) update rank.
Hypothesis Hfr1 : heap_frame (sl_nodes sl) h1.
Hypothesis Hlinks1 : ∀ i, links_at h1 i cells.

Let x := base.length h1.
Let h2 := h1 ++ [createNode lvl sc e].
Let cx := mkCell x e sc lvl.
Let pre := take (S P) cells.
Let L2 := drop (S P) cells.
Let cells' := pre ++ cx :: L2.

Lemma cells_split : cells = pre ++ L2.
Proof. subst pre L2. by rewrite take_drop. Qed.

Lemma pre_length : base.length pre = S P.
Proof. subst pre. rewrite length_take. lia. Qed.

Lemma cells_addr_lt c : c ∈ cells → (c_addr c < x)%nat.
Proof.
  intros Hc. subst x. rewrite (hf_length _ _ Hfr1).
  apply cell_ok_lt. pose proof (rep_cells _ _ HRep) as Hall.
  rewrite Forall_forall in Hall. by apply Hall.
Qed.

Lemma cells'_nodup : NoDup (c_addr <$> cells').
Proof.
  subst cells'. rewrite fmap_app, fmap_cons.
  apply NoDup_app. pose proof (rep_nodup _ _ HRep) as Hnd.
  fold hd in Hnd. fold cells in Hnd. rewrite cells_split, fmap_app in Hnd.
  apply NoDup_app in Hnd as (Hpre & Hdis & HL2).
  split_and!; [done| |].
  - intros a Ha. rewrite elem_of_cons. intros [->|Ha2]; [|by eapply Hdis].
    apply list_elem_of_fmap in Ha as (c & Hxc & Hc).
    assert (c_addr c < x)%nat; [|simpl in Hxc; lia].
    apply cells_addr_lt. rewrite cells_split. apply elem_of_app. by left.
  - apply NoDup_cons. split; [|done].
    intros Ha. apply list_elem_of_fmap in Ha as (c & Hxc & Hc).
    assert (c_addr c < x)%nat; [|simpl in Hxc; lia].
    apply cells_addr_lt. rewrite cells_split. apply elem_of_app. by right.
Qed.

Lemma recorded_last_above j :
  (j < Nat.max top lvl)%nat →
  ∃ pj cu, update !! j = Some (Some (c_addr cu)) ∧
           rank !! j = Some (u64 (Z.of_nat pj)) ∧
           (pj ≤ P)%nat ∧ last_above pre j pj cu.
Proof.
  intros Hj. destruct (Hrec j ltac:(lia)) as (a & pj & Hu & Hr & Hpred).
  destruct Hpred as (Hle & (cu & Hcu & <- & Hhu) & Hlow & _).
  exists pj, cu. split_and!; [done|done|done|].
  split_and!.
  - subst pre. rewrite lookup_take_lt by lia. done.
  - done.
  - intros k ck Hk Hck. subst pre.
    assert (k < S P)%nat.
    { apply lookup_lt_Some in Hck. rewrite length_take in Hck. lia. }
    rewrite lookup_take_lt in Hck by lia.
    apply (Hlow k); [lia|done].
Qed.

Lemma rank_0 : rank !! 0%nat = Some (u64 (Z.of_nat P)).
Proof.
  pose proof (Rep_level_bound _ _ HRep) as Hlv. fold top in Hlv.
  destruct (recorded_last_above 0 ltac:(lia)) as (p0 & cu & _ & Hr & Hle & Hl & _ & Hlow).
  destruct (decide (p0 = P)) as [->|Hne]; [done|exfalso].
  destruct (lookup_lt_is_Some_2 pre P) as [c Hc]; [rewrite pre_length; lia|].
  specialize (Hlow P c ltac:(lia) Hc).
  assert (Hc' : cells !! P = Some c).
  { rewrite cells_split, lookup_app_l; [done|rewrite pre_length; lia]. }
  pose proof (cells_height_top P c Hc' ltac:(lia)). lia.
Qed.

Lemma links2 i : links_at h2 i cells.
Proof.
  eapply links_at_ext; [|apply Hlinks1].
  intros c Hc. subst h2. apply getLevel_app_l. by apply cells_addr_lt.
Qed.

Lemma insert_splice_loop :
  ∃ h3, for_range 0 lvl (insert_splice update rank x) h2 = Some h3 ∧
    heap_frame h2 h3 ∧
    (∀ j, (j < lvl)%nat → links_at h3 j cells') ∧
    (∀ j y, (lvl ≤ j)%nat → getLevel h3 y j = getLevel h2 y j).
Proof.
  destruct (for_range_inv
    (λ i h, heap_frame h2 h ∧
            (∀ j, (j < i)%nat → links_at h j cells') ∧
            (∀ j y, (i ≤ j)%nat → getLevel h y j = getLevel h2 y j))
    0%nat lvl (insert_splice update rank x) h2) as (h3 & Hfor & Hinv).
  - lia.
  - split_and!; [apply heap_frame_refl|intros; lia|done].
  - intros i h Hi (Hfr & Hlow & Hhigh).
    destruct (recorded_last_above i ltac:(lia)) as (pi & cu & Hu & Hr & Hle & Hlast).
    assert (Hcu : cu ∈ cells).
    { rewrite cells_split. apply elem_of_app. left.
      destruct Hlast as [Hl _]. by eapply list_elem_of_lookup_2. }
    pose proof (cells_addr_lt _ Hcu) as Hux.
    pose proof (links2 i) as Hl2. rewrite cells_split in Hl2.
    assert (Hli : links_at h i (pre ++ L2)).
    { eapply links_at_ext; [|exact Hl2]. intros c _. by apply Hhigh. }
    destruct (last_above_link _ _ _ _ _ _ Hli Hlast) as (lvu & Hlvu & _).
    assert (Hlx : getLevel h x i = Some (mkLevel None 0)).
    { rewrite Hhigh by lia. subst h2 x. apply getLevel_new. lia. }
    destruct (insert_splice_spec update rank x i h (c_addr cu) lvu (mkLevel None 0)
                (u64 (Z.of_nat P)) (u64 (Z.of_nat pi)))
      as (h' & Hbody & Hfr' & Hu' & Hx' & Hframe); try done.
    { unfold deref. by rewrite Hu. }
    { apply rank_0. }
    { lia. }
    exists h'. split; [done|]. split_and!.
    + by eapply heap_frame_trans.
    + intros j Hj. destruct (decide (j = i)) as [->|Hji].
      * unfold cells'.
        eapply (links_insert_below h h' i pre cx L2 pi cu lvu); try done.
        -- apply cells'_nodup.
        -- simpl. lia.
        -- rewrite Hu'. do 2 f_equal. rewrite pre_length. u64_eq.
        -- change (c_addr cx) with x.
           rewrite Hx'. do 2 f_equal. rewrite pre_length. u64_eq.
        -- intros y Hy1 Hy2. apply Hframe. by right.
      * eapply links_at_ext; [|apply Hlow; lia].
        intros c _. apply Hframe. by left.
    + intros j y Hj. rewrite Hframe by (left; lia). apply Hhigh. lia.
  - exists h3. by destruct Hinv as (? & ? & ?).
Qed.

Lemma pre_cons : pre = header_cell hd :: take P L.
Proof. done. Qed.

Lemma cells'_height p c :
  cells' !! p = Some c → (1 ≤ p)%nat → (c_height c ≤ Nat.max top lvl)%nat.
Proof.
  intros Hp Hp1. unfold cells' in Hp. pose proof pre_length as Hpl.
  destruct (decide (p < base.length pre)%nat) as [Hlt|Hge].
  - rewrite lookup_app_l in Hp by done.
    assert (cells !! p = Some c).
    { rewrite cells_split. by rewrite lookup_app_l. }
    pose proof (cells_height_top p c H Hp1). lia.
  - rewrite lookup_app_r in Hp by lia.
    destruct (p - base.length pre)%nat as [|k] eqn:Hk; simpl in Hp.
    + injection Hp as <-. simpl. lia.
    + assert (cells !! (base.length pre + k)%nat = Some c).
      { rewrite cells_split. rewrite lookup_app_r by lia.
        by replace (base.length pre + k - base.length pre)%nat with k by lia. }
      pose proof (cells_height_top (base.length pre + k) c H ltac:(lia)). lia.
Qed.

Lemma insert_bump_loop h3 :
  heap_frame h2 h3 →
  (∀ j, (j < lvl)%nat → links_at h3 j cells') →
  (∀ j y, (lvl ≤ j)%nat → getLevel h3 y j = getLevel h2 y j) →
  ∃ h4, for_range lvl (Nat.max top lvl) (insert_bump update) h3 = Some h4 ∧
    heap_frame h2 h4 ∧ (∀ j, links_at h4 j cells').
Proof.
  intros Hfr3 Hlow3 Hhigh3.
  pose proof cells'_nodup as Hnd.
  destruct (NoDup_app_mid_frame pre [cx] L2 Hnd) as (Hd1 & Hd2 & Hd3 & Hd4).
  destruct (for_range_inv
    (λ i h, heap_frame h2 h ∧
            (∀ j, (j < i)%nat → links_at h j cells') ∧
            (∀ j y, (i ≤ j)%nat → getLevel h y j = getLevel h2 y j))
    lvl (Nat.max top lvl) (insert_bump update) h3) as (h4 & Hfor & Hfr & Hlow & Hhigh).
  - lia.
  - done.
  - intros i h Hi (Hfr & Hlow & Hhigh).
    destruct (recorded_last_above i ltac:(lia)) as (pi & cu & Hu & Hr & Hle & Hlast).
    pose proof (links2 i) as Hl2. rewrite cells_split in Hl2.
    assert (Hli : links_at h i (pre ++ L2)).
    { eapply links_at_ext; [|exact Hl2]. intros c _. by apply Hhigh. }
    destruct (last_above_link _ _ _ _ _ _ Hli Hlast) as (lvu & Hlvu & Hok).
    destruct (insert_bump_spec update i h (c_addr cu) lvu) as (h' & Hbody & Hup);
      [unfold deref; by rewrite Hu|done|].
    exists h'. split; [done|]. split_and!.
    + eapply heap_frame_trans; [done|]. by eapply level_update_frame.
    + intros j Hj. destruct (decide (j = i)) as [->|Hji].
      * eapply (links_relink h h' i pre [] [cx] L2 pi cu); [done|done| | | |].
        -- rewrite nxt_app.
           destruct Hlast as (Hl & Hhu & Hlw).
           destruct (last_above_nxt _ _ _ _ _ _ (conj Hl (conj Hhu Hlw)) Hl Hhu)
             as [(_ & _ & ->)|(? & _)]; [|lia].
           exists (mkLevel (forward lvu) (u64 (span lvu + 1))).
           split; [apply (lu_here _ _ _ _ _ Hup)|].
           simpl. rewrite decide_False by lia.
           destruct (nxt i L2) as [[d cn]|]; simpl in *; [|done].
           destruct Hok as [Hf Hs]. split; [done|].
           rewrite Hs, length_drop. u64_eq.
        -- intros k c Hk Hc. destruct k; [|done].
           injection Hk as <-. simpl in Hc. lia.
        -- intros p c Hp Hne. apply (lu_frame _ _ _ _ _ Hup). left.
           destruct Hlast as [Hl _]. by eapply Hd1.
        -- intros c Hc. apply (lu_frame _ _ _ _ _ Hup). left.
           destruct Hlast as [Hl _]. by eapply Hd4.
      * eapply links_at_ext; [|apply Hlow; lia].
        intros c _. apply (lu_frame _ _ _ _ _ Hup). by right.
    + intros j y Hj. rewrite (lu_frame _ _ _ _ _ Hup) by (right; lia).
      apply Hhigh. lia.
  - exists h4. split_and!; [done|done|].
    intros j. destruct (decide (j < Nat.max top lvl)%nat) as [|Hj]; [by apply Hlow|].
    intros p c Hp Hc.
    destruct p as [|p].
    2:{ pose proof (cells'_height _ _ Hp ltac:(lia)). lia. }
    injection Hp as <-.
    assert (Hnone : nxt j (drop 1 cells') = None).
    { apply nxt_None, Forall_lookup. intros k ck Hk.
      rewrite lookup_drop in Hk.
      pose proof (cells'_height _ _ Hk ltac:(lia)). simpl. lia. }
    rewrite Hnone.
    destruct (links2 j 0%nat (header_cell hd) eq_refl Hc) as (lv & Hlv & Hok).
    change (drop 1 cells) with L in Hok.
    rewrite (nxt_above_top j L) in Hok by (done || lia).
    exists lv. split; [|done]. rewrite Hhigh by lia. done.
Qed.

Lemma update_0 :
  ∃ cP, cells !! P = Some cP ∧ update !! 0%nat = Some (Some (c_addr cP)).
Proof.
  pose proof (Rep_level_bound _ _ HRep) as Hlv. fold top in Hlv.
  destruct (recorded_last_above 0 ltac:(lia)) as (p0 & cu & Hu & _ & Hle & Hl & _ & Hlow).
  destruct (lookup_lt_is_Some_2 pre P) as [c Hc]; [rewrite pre_length; lia|].
  assert (Hc' : cells !! P = Some c).
  { rewrite cells_split, lookup_app_l; [done|rewrite pre_length; lia]. }
  destruct (decide (p0 = P)) as [->|Hne].
  - exists cu. split; [congruence|done].
  - specialize (Hlow P c ltac:(lia) Hc).
    pose proof (cells_height_top P c Hc' ltac:(lia)). lia.
Qed.

Lemma nxt_0_L2 : nxt 0 L2 = (λ c, (1%nat, c)) <$> head L2.
Proof.
  destruct L2 as [|cn L2'] eqn:HL2; [done|]. simpl.
  rewrite decide_True; [done|].
  assert (Hcn : cells !! S P = Some cn).
  { rewrite cells_split, lookup_app_r by (rewrite pre_length; lia).
    rewrite pre_length, Nat.sub_diag. fold L2. by rewrite HL2. }
  pose proof (cells_height_top _ _ Hcn ltac:(lia)). lia.
Qed.

Lemma key_frame_cells h4 :
  heap_frame h2 h4 → Forall (cell_ok h4) cells'.
Proof.
  intros Hfr. apply Forall_forall. intros c Hc.
  assert (Hcases : c = cx ∨ c ∈ cells).
  { unfold cells' in Hc. rewrite cells_split.
    rewrite elem_of_app, elem_of_cons in Hc. rewrite elem_of_app. tauto. }
  destruct Hcases as [->|Hc'].
  - unfold cell_ok. rewrite (hf_key _ _ Hfr). apply nodeKey_new.
  - pose proof (rep_cells _ _ HRep) as Hall. rewrite Forall_forall in Hall.
    specialize (Hall c Hc'). unfold cell_ok in *.
    rewrite (hf_key _ _ Hfr). unfold h2.
    rewrite nodeKey_app_l by (by apply cells_addr_lt).
    by rewrite (hf_key _ _ Hfr1).
Qed.

Lemma back_frame_cells h4 c :
  heap_frame h2 h4 → c ∈ cells →
  nodeBack h4 (c_addr c) = nodeBack (sl_nodes sl) (c_addr c).
Proof.
  intros Hfr Hc. rewrite (hf_back _ _ Hfr). unfold h2.
  rewrite nodeBack_app_l by (by apply cells_addr_lt).
  by rewrite (hf_back _ _ Hfr1).
Qed.

Lemma insert_finish h4 :
  heap_frame h2 h4 → (∀ j, links_at h4 j cells') →
  ∃ sl',
    (u0 ← deref update 0;
     h ← setBackward h4 x (if decide (u0 = sl_header sl) then None else Some u0);
     xl ← getLevel h x 0;
     '(h, tl) ←
        match forward xl with
        | Some y => h ← setBackward h y (Some x); Some (h, sl_tail sl)
        | None => Some (h, Some x)
        end;
     Some (mkSkiplist (sl_header sl) tl (u64 (sl_length sl + 1)) (Nat.max top lvl) h, x))
    = Some (sl', x) ∧
    Rep sl' (take P L ++ cx :: drop P L).
Proof.
  intros Hfr4 Hlinks4.
  pose proof pre_length as Hpl.
  pose proof cells'_nodup as Hnd.
  destruct update_0 as (cP & HcP & Hu0).
  unfold deref. rewrite Hu0. simpl.
  pose proof (key_frame_cells h4 Hfr4) as Hcells4.
  assert (Hx4 : is_Some (h4 !! x)).
  { eapply nodeKey_is_Some. rewrite (hf_key _ _ Hfr4). apply nodeKey_new. }
  set (b := if decide (c_addr cP = sl_header sl) then None else Some (c_addr cP)).
  destruct (setBackward_spec h4 x b Hx4) as (h5 & -> & Hup5). simpl.
  assert (Hcx' : cells' !! S P = Some cx).
  { unfold cells'. rewrite lookup_app_r by lia. by rewrite Hpl, Nat.sub_diag. }
  destruct (Hlinks4 0%nat (S P) cx Hcx') as (xl & Hxl & Hok).
  { simpl. pose proof (randomLevel_bounds draws). fold lvl in H. lia. }
  replace (drop (S (S P)) cells') with L2 in Hok.
  2:{ unfold cells'. rewrite drop_app_ge by lia.
      by replace (S (S P) - base.length pre)%nat with 1%nat by lia. }
  rewrite nxt_0_L2 in Hok.
  rewrite (bu_level _ _ _ _ Hup5). change (c_addr cx) with x in Hxl. rewrite Hxl. simpl.
  assert (Hb : b = match P with O => None | S k => c_addr <$> L !! k end).
  { unfold b. destruct P as [|P'].
    - injection HcP as <-. simpl. by rewrite decide_True.
    - simpl in HcP. rewrite HcP. simpl. rewrite decide_False; [done|].
      intros Heq. pose proof (rep_nodup _ _ HRep) as Hnd0.
      assert (S P' = 0)%nat; [|lia].
      eapply (NoDup_addr_lookup (header_cell (sl_header sl) :: L)); [done|done|done|].
      done. }
  assert (HPL : (P ≤ base.length L)%nat) by (simpl in HP; lia).
  assert (HcellsL : ∀ k c, L !! k = Some c → c ∈ cells).
  { intros k c Hk. apply elem_of_cons. right. by eapply list_elem_of_lookup_2. }
  assert (Hxne : ∀ k c, L !! k = Some c → c_addr c ≠ x).
  { intros k c Hk. pose proof (cells_addr_lt c (HcellsL _ _ Hk)). lia. }
  assert (Hlen : u64 (sl_length sl + 1)
                 = u64 (Z.of_nat (base.length (take P L ++ cx :: drop P L)))).
  { rewrite (rep_length _ _ HRep), length_app, length_take. simpl.
    rewrite length_drop. u64_eq. }
  assert (Hlevel : Nat.max top lvl = max_height (take P L ++ cx :: drop P L)).
  { unfold top. rewrite (rep_level _ _ HRep).
    rewrite <- (take_drop P L) at 1. rewrite !max_height_app. simpl. lia. }
  assert (Hheights : Forall (λ c, 1 ≤ c_height c ≤ SKIPLIST_MAXLEVEL)%nat
                       (take P L ++ cx :: drop P L)).
  { pose proof (rep_heights _ _ HRep) as Hh.
    rewrite <- (take_drop P L) in Hh. apply Forall_app in Hh as [Hh1 Hh2].
    apply Forall_app. split; [done|]. constructor; [|done].
    apply randomLevel_bounds. }
  destruct (head L2) as [cn|] eqn:Hhead; simpl in Hok.
  - (* the new node has a successor *)
    destruct Hok as [Hfw _]. rewrite Hfw. simpl.
    assert (Hcn : L !! P = Some cn).
    { change L2 with (drop P L) in Hhead. rewrite head_lookup, lookup_drop in Hhead.
      by rewrite Nat.add_0_r in Hhead. }
    assert (Hcn5 : is_Some (h5 !! c_addr cn)).
    { assert (Hin : cn ∈ cells').
      { unfold cells'. apply elem_of_app. right. apply elem_of_cons. right.
        apply (list_elem_of_lookup_2 _ 0%nat). change L2 with (drop P L).
        by rewrite lookup_drop, Nat.add_0_r. }
      rewrite Forall_forall in Hcells4. specialize (Hcells4 cn Hin).
      eapply nodeKey_is_Some. rewrite (bu_key _ _ _ _ Hup5). exact Hcells4. }
    destruct (setBackward_spec h5 (c_addr cn) (Some x) Hcn5) as (h6 & -> & Hup6). simpl.
    eexists. split; [done|].
    split; simpl.
    + exact Hnd.
    + eapply cells_ok_frame; [|exact Hcells4].
      intros y. by rewrite (bu_key _ _ _ _ Hup6), (bu_key _ _ _ _ Hup5).
    + done.
    + intros j. eapply links_at_ext; [|apply (Hlinks4 j)].
      intros c _. by rewrite (bu_level _ _ _ _ Hup6), (bu_level _ _ _ _ Hup5).
    + apply (back_ok_insert (sl_nodes sl)); [apply (rep_back _ _ HRep)|done| | |].
      * simpl. rewrite (bu_frame _ _ _ _ Hup6) by (apply not_eq_sym; by eapply Hxne).
        rewrite (bu_here _ _ _ _ Hup5). by rewrite Hb.
      * intros cn' Hcn'. replace cn' with cn by congruence.
        apply (bu_here _ _ _ _ Hup6).
      * intros k c Hk Hne.
        rewrite (bu_frame _ _ _ _ Hup6).
        2:{ intros Heq. apply Hne.
            pose proof (rep_nodup _ _ HRep) as Hnd0.
            assert (S k = S P); [|lia].
            by eapply (NoDup_addr_lookup (header_cell (sl_header sl) :: L)). }
        rewrite (bu_frame _ _ _ _ Hup5) by (by eapply Hxne).
        apply back_frame_cells; [done|by eapply HcellsL].
    + rewrite (rep_tail _ _ HRep).
      rewrite <- (take_drop P L) at 1.
      by rewrite (last_insert_mid _ _ cx cn Hhead).
    + done.
    + done.
  - (* the new node is the last *)
    rewrite Hok. simpl.
    assert (HL2 : drop P L = []) by (change (drop P L) with L2; by destruct L2).
    eexists. split; [done|].
    split; simpl.
    + exact Hnd.
    + eapply cells_ok_frame; [|exact Hcells4].
      intros y. by rewrite (bu_key _ _ _ _ Hup5).
    + done.
    + intros j. eapply links_at_ext; [|apply (Hlinks4 j)].
      intros c _. by rewrite (bu_level _ _ _ _ Hup5).
    + apply (back_ok_insert (sl_nodes sl)); [apply (rep_back _ _ HRep)|done| | |].
      * simpl. rewrite (bu_here _ _ _ _ Hup5). by rewrite Hb.
      * intros cn' Hcn'.
        assert (Hd : drop P L !! 0%nat = Some cn') by (by rewrite lookup_drop, Nat.add_0_r).
        by rewrite HL2 in Hd.
      * intros k c Hk Hne.
        rewrite (bu_frame _ _ _ _ Hup5) by (by eapply Hxne).
        apply back_frame_cells; [done|by eapply HcellsL].
    + rewrite HL2. by rewrite last_snoc.
    + done.
    + done.
Qed.

End insert_proof.

Lemma recorded_stop cells q P top update rank :
  recorded cells q P 0 top update rank → (1 ≤ top)%nat →
  (∀ p c, cells !! p = Some c → (1 ≤ p)%nat → (1 ≤ c_height c)%nat) →
  ∀ cn, cells !! S P = Some cn → q cn = false.
Proof.
  intros Hrec Htop Hh cn Hcn.
  destruct (Hrec 0%nat ltac:(lia)) as (a & p0 & _ & _ & Hle & _ & Hlow & Hstop).
  assert (p0 = P) as ->.
  { destruct (decide (p0 = P)) as [|Hne]; [done|exfalso].
    destruct (lookup_lt_is_Some_2 cells P) as [c Hc].
    { apply lookup_lt_Some in Hcn. lia. }
    specialize (Hlow P c ltac:(lia) Hc).
    specialize (Hh P c Hc ltac:(lia)). lia. }
  apply (Hstop 1%nat).
  rewrite (drop_S _ _ _ Hcn). simpl.
  rewrite decide_True; [done|]. apply (Hh (S P) cn Hcn). lia.
Qed.

Lemma insert_spec sl L q sc e draws :
  Rep sl L → key_test (keyLess sc e) q →
  ∃ sl' P,
    insert sl draws sc e = Some (sl', base.length (sl_nodes sl)) ∧
    (P ≤ base.length L)%nat ∧
    Rep sl' (take P L ++
             mkCell (base.length (sl_nodes sl)) e sc (randomLevel draws) :: drop P L) ∧
    (∀ c, P ≠ 0%nat → L !! (P - 1)%nat = Some c → q c = true) ∧
    (∀ c, L !! P = Some c → q c = false).
Proof.
  intros HRep Hq. unfold insert.
  pose proof (Rep_level_bound _ _ HRep) as Hlv.
  destruct (insert_search_Rep sl L q sc e draws HRep Hq)
    as (P & cP & update & rank & -> & HcP & Hlu & Hlr & Hrec & HqP).
  simpl.
  destruct (insert_raise_loop sl L q draws HRep P update rank Hlu Hlr Hrec)
    as (update' & rank' & h1 & -> & Hrec' & Hfr1 & Hlinks1).
  simpl.
  assert (HP : (P < base.length (header_cell (sl_header sl) :: L))%nat)
    by (by apply lookup_lt_Some in HcP).
  replace (if decide (sl_level sl < randomLevel draws)%nat
           then randomLevel draws else sl_level sl)
    with (Nat.max (sl_level sl) (randomLevel draws)) by (case_decide; lia).
  edestruct (insert_splice_loop sl L q sc e draws HRep P update' rank' h1)
    as (h3 & -> & Hfr3 & Hlow3 & Hhigh3); [done..|].
  simpl.
  edestruct (insert_bump_loop sl L q sc e draws HRep P update' rank' h1)
    as (h4 & -> & Hfr4 & Hlinks4); [done..|].
  simpl.
  edestruct (insert_finish sl L q sc e draws HRep P update' rank' h1)
    as (sl' & Hfin & HRep'); [done..|].
  rewrite <- (hf_length _ _ Hfr1).
  exists sl', P. split_and!.
  - exact Hfin.
  - simpl in HP. lia.
  - exact HRep'.
  - intros c HP0 Hc. destruct HqP as [->|HqP]; [done|].
    destruct P as [|P']; [done|]. simpl in *.
    rewrite Nat.sub_0_r in Hc. congruence.
  - intros c Hc.
    eapply (recorded_stop _ _ _ _ _ _ Hrec); [lia| |exact Hc].
    intros p c' Hp Hp1. destruct p as [|p]; [lia|]. simpl in Hp.
    eapply (Rep_height_le sl L); [done|]. by eapply list_elem_of_lookup_2.
Qed.

(** ** delete keeps the representation *)

Lemma recorded_pred cells q P n update rank j :
  recorded cells q P 0 n update rank → (j < n)%nat →
  ∃ pj cu, update !! j = Some (Some (c_addr cu)) ∧ (pj ≤ P)%nat ∧
           last_above (take (S P) cells) j pj cu.
Proof.
  intros Hrec Hj. destruct (Hrec j ltac:(lia)) as (a & pj & Hu & Hr & Hpred).
  destruct Hpred as (Hle & (cu & Hcu & <- & Hhu) & Hlow & _).
  exists pj, cu. split_and!; [done|done|].
  split_and!.
  - rewrite lookup_take_lt by lia. done.
  - done.
  - intros k ck Hk Hck.
    assert (k < S P)%nat.
    { apply lookup_lt_Some in Hck. rewrite length_take in Hck. lia. }
    rewrite lookup_take_lt in Hck by lia.
    apply (Hlow k); [lia|done].
Qed.

Lemma deleteNode_unlink_spec update x i h u lvu :
  deref update i = Some u → getLevel h u i = Some lvu → u ≠ x →
  (forward lvu = Some x → is_Some (getLevel h x i)) →
  ∃ h' lvu',
    deleteNode_unlink update x i h = Some h' ∧
    heap_frame h h' ∧
    getLevel h' u i = Some lvu' ∧
    (∀ y j, (y ≠ u ∨ j ≠ i) → getLevel h' y j = getLevel h y j) ∧
    (forward lvu = Some x →
       ∃ lvx, getLevel h x i = Some lvx ∧
              lvu' = mkLevel (forward lvx) (u64 (span lvu + u64 (span lvx - 1)))) ∧
    (forward lvu ≠ Some x → lvu' = mkLevel (forward lvu) (u64 (span lvu - 1))).
Proof.
  intros Hu Hlu Hux Hx. unfold deleteNode_unlink.
  rewrite Hu. simpl. rewrite Hlu. simpl.
  case_decide as Hfw.
  - destruct (Hx Hfw) as [lvx Hlx]. rewrite Hlx. simpl.
    destruct (setSpan_spec h u i (u64 (span lvu + u64 (span lvx - 1))) _ Hlu)
      as (h1 & -> & U1). simpl.
    assert (Hlx1 : getLevel h1 x i = Some lvx).
    { rewrite (lu_frame _ _ _ _ _ U1) by (left; congruence). done. }
    rewrite Hlx1. simpl.
    destruct (setForward_spec h1 u i (forward lvx) _ (lu_here _ _ _ _ _ U1))
      as (h2 & -> & U2).
    exists h2, (mkLevel (forward lvx) (u64 (span lvu + u64 (span lvx - 1)))).
    split_and!; [done| | | | |done].
    + eapply heap_frame_trans; by eapply level_update_frame.
    + apply (lu_here _ _ _ _ _ U2).
    + intros y j Hyj.
      rewrite (lu_frame _ _ _ _ _ U2), (lu_frame _ _ _ _ _ U1) by done. done.
    + intros _. by exists lvx.
  - destruct (setSpan_spec h u i (u64 (span lvu - 1)) _ Hlu) as (h1 & -> & U1).
    exists h1, (mkLevel (forward lvu) (u64 (span lvu - 1))).
    split_and!; [done| | | |done|done].
    + by eapply level_update_frame.
    + apply (lu_here _ _ _ _ _ U1).
    + intros y j Hyj. by rewrite (lu_frame _ _ _ _ _ U1).
Qed.

Lemma shrink_level_spec h hd L' lvl :
  (∀ j, links_at h j (header_cell hd :: L')) →
  (max_height L' ≤ lvl ≤ SKIPLIST_MAXLEVEL)%nat →
  shrink_level h hd lvl = Some (max_height L').
Proof.
  intros Hlinks. induction lvl as [|lvl IH]; intros Hlvl.
  { pose proof (max_height_ge L'). lia. }
  destruct lvl as [|l].
  { simpl. pose proof (max_height_ge L'). f_equal. lia. }
  change (shrink_level h hd (S (S l)))
    with (hl ← getLevel h hd (S l);
          match forward hl with
          | None => shrink_level h hd (S l)
          | Some _ => Some (S (S l))
          end).
  destruct (Hlinks (S l) 0%nat (header_cell hd) eq_refl) as (lv & Hlv & Hok).
  { simpl. lia. }
  simpl in Hlv. rewrite Hlv. simpl. simpl in Hok. rewrite drop_0 in Hok.
  destruct (nxt (S l) L') as [[d c]|] eqn:Hn.
  - destruct Hok as [-> _].
    destruct (nxt_Some _ _ _ _ Hn) as (_ & Hc & Hh & _).
    assert (Hm : ¬ (max_height L' ≤ S l)%nat); [|f_equal; lia].
    intros Hm. apply max_height_bound in Hm; [|lia].
    rewrite Forall_lookup in Hm. specialize (Hm _ _ Hc). simpl in Hm. lia.
  - rewrite Hok. apply IH. apply nxt_None in Hn.
    apply max_height_bound in Hn; lia.
Qed.

Lemma back_ok_delete h h' L P :
  back_ok h L →
  (∀ cn, L !! S P = Some cn →
         nodeBack h' (c_addr cn) = Some (match P with O => None | S k => c_addr <$> L !! k end)) →
  (∀ k c, L !! k = Some c → k ≠ S P → k ≠ P →
          nodeBack h' (c_addr c) = nodeBack h (c_addr c)) →
  back_ok h' (take P L ++ drop (S P) L).
Proof.
  intros Hback Hn Hframe k c Hk.
  destruct (decide (P ≤ base.length L)%nat) as [HP|HP].
  2:{ rewrite take_ge, drop_ge, app_nil_r in Hk |- * by lia.
      assert (k < base.length L)%nat by (by apply lookup_lt_Some in Hk).
      rewrite (Hframe k c Hk) by lia. by rewrite (Hback k c Hk). }
  assert (Hlt : base.length (take P L) = P) by (rewrite length_take; lia).
  destruct (decide (k < P)%nat) as [Hlt1|Hge].
  - rewrite lookup_app_l, lookup_take_lt in Hk by lia.
    rewrite (Hframe k c Hk) by lia. rewrite (Hback k c Hk).
    destruct k as [|k']; [done|].
    by rewrite lookup_app_l, lookup_take_lt by lia.
  - rewrite lookup_app_r in Hk by lia. rewrite Hlt, lookup_drop in Hk.
    destruct (decide (k = P)) as [->|Hne].
    + rewrite Nat.sub_diag, Nat.add_0_r in Hk. rewrite (Hn c Hk).
      destruct P as [|P']; [done|].
      by rewrite lookup_app_l, lookup_take_lt by lia.
    + replace (S P + (k - P))%nat with (S k) in Hk by lia.
      rewrite (Hframe _ c Hk) by lia. rewrite (Hback _ c Hk).
      destruct k as [|k']; [lia|].
      rewrite lookup_app_r by lia. rewrite Hlt, lookup_drop.
      by replace (S P + (k' - P))%nat with (S k') by lia.
Qed.

Section deleteNode_proof.
Variables (sl : skiplist) (L : list cell) (q : cell → bool).
Variables (P : nat) (cn : cell) (update : list (option ptr)) (rank : list Z).
Hypothesis HRep : Rep sl L.
Hypothesis Hcn : L !! P = Some cn.

Let hd := sl_header sl.
Let cells := header_cell hd :: L.
Let top := sl_level sl.
Let h0 := sl_nodes sl.
Let x := c_addr cn.
Let pre := take (S P) cells.
Let L2 := drop (S P) L.
Let cells' := pre ++ L2.

Hypothesis Hrec : recorded cells q P 0 top update rank.

Lemma del_cells_split : cells = pre ++ cn :: L2.
Proof.
  unfold pre, L2, cells. simpl.
  rewrite <- (take_drop P L) at 1. f_equal. f_equal.
  by apply drop_S.
Qed.

Lemma del_pre_length : base.length pre = S P.
Proof.
  unfold pre. rewrite length_take. apply lookup_lt_Some in Hcn.
  unfold cells. simpl. lia.
Qed.

Lemma del_nodup : NoDup (c_addr <$> pre ++ [cn] ++ L2).
Proof.
  change (pre ++ [cn] ++ L2) with (pre ++ cn :: L2).
  rewrite <- del_cells_split. apply (rep_nodup _ _ HRep).
Qed.

Lemma del_height p c :
  cells !! p = Some c → (1 ≤ p)%nat → (1 ≤ c_height c ≤ top)%nat.
Proof.
  intros Hp Hp1. destruct p as [|p]; [lia|]. simpl in Hp.
  eapply (Rep_height_le sl L); [done|]. by eapply list_elem_of_lookup_2.
Qed.

Lemma del_cells'_in c : c ∈ cells' → c ∈ cells.
Proof.
  unfold cells'. rewrite del_cells_split, !elem_of_app, elem_of_cons. tauto.
Qed.

Lemma deleteNode_loop :
  ∃ h, for_range 0 top (deleteNode_unlink update x) h0 = Some h ∧
    heap_frame h0 h ∧
    (∀ j, links_at h j cells') ∧
    (∀ j, getLevel h x j = getLevel h0 x j).
Proof.
  pose proof del_nodup as Hnd. pose proof del_pre_length as Hpl.
  destruct (NoDup_app_mid_frame pre [cn] L2 Hnd) as (Hd1 & Hd2 & Hd3 & Hd4).
  pose proof (rep_links _ _ HRep) as Hlinks0. fold hd cells h0 in Hlinks0.
  assert (Hcnp : cells !! S P = Some cn) by done.
  destruct (for_range_inv
    (λ i h, heap_frame h0 h ∧
            (∀ j, (j < i)%nat → links_at h j cells') ∧
            (∀ j y, (i ≤ j)%nat → getLevel h y j = getLevel h0 y j) ∧
            (∀ j, getLevel h x j = getLevel h0 x j))
    0%nat top (deleteNode_unlink update x) h0) as (h & Hfor & Hfr & Hlow & Hhigh & Hx).
  - lia.
  - split_and!; [apply heap_frame_refl|intros; lia|done|done].
  - intros i h Hi (Hfr & Hlow & Hhigh & Hx).
    destruct (recorded_pred _ _ _ _ _ _ i Hrec ltac:(lia)) as (pi & cu & Hu & Hle & Hlast).
    fold pre in Hlast.
    assert (Hli : links_at h i (pre ++ cn :: L2)).
    { rewrite <- del_cells_split. eapply links_at_ext; [|apply Hlinks0].
      intros c _. by apply Hhigh. }
    destruct (last_above_link _ _ _ _ _ _ Hli Hlast) as (lvu & Hlvu & Hok).
    assert (Hux : c_addr cu ≠ x).
    { destruct Hlast as [Hl _]. eapply Hd2; [done|]. by apply list_elem_of_singleton. }
    assert (Hxi : (i < c_height cn)%nat → link_ok h x i (nxt i L2)).
    { intros Hh. assert (Hl := Hli (S P) cn).
      rewrite lookup_app_r, Hpl, Nat.sub_diag in Hl by lia.
      specialize (Hl eq_refl Hh).
      rewrite drop_app_ge in Hl by lia.
      by replace (S (S P) - base.length pre)%nat with 1%nat in Hl by lia. }
    assert (Hfwx : forward lvu = Some x ↔ (i < c_height cn)%nat).
    { simpl in Hok. case_decide as Hh; simpl in Hok.
      - destruct Hok as [-> _]. done.
      - split; [|lia]. intros Hfw.
        destruct (nxt i L2) as [[d c]|] eqn:Hn; simpl in Hok; [|congruence].
        destruct Hok as [Hf _]. rewrite Hf in Hfw. injection Hfw as Hfw.
        destruct (nxt_Some _ _ _ _ Hn) as (_ & Hc & _).
        exfalso. eapply (Hd3 c cn); [by eapply list_elem_of_lookup_2| |done].
        by apply list_elem_of_singleton. }
    destruct (deleteNode_unlink_spec update x i h (c_addr cu) lvu)
      as (h' & lvu' & Hbody & Hfr' & Hu' & Hframe & Hin & Hout); try done.
    { unfold deref. by rewrite Hu. }
    { intros Hfw. apply Hfwx in Hfw. destruct (Hxi Hfw) as (lvx & Hlvx & _). by eexists. }
    exists h'. split; [done|]. split_and!.
    + by eapply heap_frame_trans.
    + intros j Hj. destruct (decide (j = i)) as [->|Hji].
      * eapply (links_relink h h' i pre [cn] [] L2 pi cu); [done|done| | | |].
        -- rewrite nxt_app.
           destruct Hlast as (Hl & Hhu & Hlw).
           destruct (last_above_nxt _ _ _ _ _ _ (conj Hl (conj Hhu Hlw)) Hl Hhu)
             as [(_ & _ & ->)|(? & _)]; [|lia].
           exists lvu'. split; [done|]. simpl app.
           simpl in Hok.
           destruct (decide (i < c_height cn)%nat) as [Hh|Hh]; simpl in Hok.
           ++ destruct (Hin (proj2 Hfwx Hh)) as (lvx & Hlvx & ->).
              destruct (Hxi Hh) as (lvx' & Hlvx' & Hokx).
              rewrite Hlvx in Hlvx'. injection Hlvx' as <-.
              destruct (nxt i L2) as [[d c]|]; simpl in *; [|done].
              destruct Hokx as [Hf Hs]. destruct Hok as [_ Hs'].
              split; [done|]. rewrite Hs, Hs', length_drop. u64_eq.
           ++ rewrite (Hout ltac:(rewrite Hfwx; lia)).
              destruct (nxt i L2) as [[d c]|]; simpl in *; [|done].
              destruct Hok as [Hf Hs]. split; [done|].
              rewrite Hs, length_drop. u64_eq.
        -- intros k c Hk. done.
        -- intros p c Hp Hne. apply Hframe. left.
           destruct Hlast as [Hl _]. by eapply Hd1.
        -- intros c Hc. apply Hframe. left.
           destruct Hlast as [Hl _]. by eapply Hd4.
      * eapply links_at_ext; [|apply Hlow; lia].
        intros c _. apply Hframe. by right.
    + intros j y Hj. rewrite Hframe by (right; lia). apply Hhigh. lia.
    + intros j. rewrite Hframe by (left; congruence). apply Hx.
  - exists h. split_and!; [done|done| |done].
    intros j. destruct (decide (j < top)%nat) as [|Hj]; [by apply Hlow|].
    intros p c Hp Hc.
    assert (Hh' : ∀ k ck, cells' !! k = Some ck → (1 ≤ k)%nat → (c_height ck ≤ j)%nat).
    { intros k ck Hk Hk1. unfold cells' in Hk.
      destruct (decide (k < base.length pre)%nat).
      - rewrite lookup_app_l in Hk by done.
        assert (Hck : cells !! k = Some ck).
        { rewrite del_cells_split. by rewrite lookup_app_l. }
        pose proof (del_height k ck Hck Hk1). lia.
      - rewrite lookup_app_r in Hk by lia.
        assert (Hck : cells !! (S k) = Some ck).
        { rewrite del_cells_split. rewrite lookup_app_r by lia.
          replace (S k - base.length pre)%nat with (S (k - base.length pre)) by lia.
          done. }
        pose proof (del_height (S k) ck Hck ltac:(lia)). lia. }
    destruct p as [|p].
    2:{ pose proof (Hh' _ _ Hp ltac:(lia)). lia. }
    injection Hp as <-.
    assert (Hnone : nxt j (drop 1 cells') = None).
    { apply nxt_None, Forall_lookup. intros k ck Hk.
      rewrite lookup_drop in Hk. apply (Hh' _ _ Hk). lia. }
    rewrite Hnone.
    destruct (Hlinks0 j 0%nat (header_cell hd) eq_refl Hc) as (lv & Hlv & Hok).
    change (drop 1 cells) with L in Hok.
    assert (HnL : nxt j L = None).
    { apply nxt_None, Forall_lookup. intros k ck Hk.
      pose proof (del_height (S k) ck Hk ltac:(lia)). simpl. lia. }
    rewrite HnL in Hok.
    exists lv. split; [|done]. rewrite Hhigh by lia. done.
Qed.

Lemma del_sublist : take P L ++ drop (S P) L `sublist_of` L.
Proof.
  rewrite <- (take_drop P L) at 3. apply sublist_app; [done|].
  rewrite (drop_S _ _ _ Hcn). by apply sublist_cons.
Qed.

Lemma del_nxt_0_L2 : nxt 0 L2 = (λ c, (1%nat, c)) <$> head L2.
Proof.
  destruct L2 as [|c2 L2'] eqn:HL2; [done|]. simpl.
  rewrite decide_True; [done|].
  assert (Hc2 : L !! S P = Some c2).
  { assert (Hd : drop (S P) L !! 0%nat = Some c2) by (fold L2; by rewrite HL2).
    by rewrite lookup_drop, Nat.add_0_r in Hd. }
  pose proof (del_height (S (S P)) c2 Hc2 ltac:(lia)). lia.
Qed.

Lemma deleteNode_spec :
  ∃ sl', deleteNode sl x update = Some sl' ∧ Rep sl' (take P L ++ drop (S P) L).
Proof.
  unfold deleteNode.
  destruct deleteNode_loop as (h & Hloop & Hfr & Hlinks & Hx).
  fold top h0. rewrite Hloop. simpl.
  pose proof del_pre_length as Hpl.
  pose proof (rep_nodup _ _ HRep) as Hnd0. fold hd cells in Hnd0.
  pose proof (Rep_level_bound _ _ HRep) as Hlv. fold top in Hlv.
  (* the level-0 link of the node *)
  destruct (rep_links _ _ HRep 0%nat (S P) cn Hcn) as (xl & Hxl & Hok).
  { pose proof (del_height (S P) cn Hcn ltac:(lia)). lia. }
  change (drop (S (S P)) (header_cell (sl_header sl) :: L)) with L2 in Hok.
  rewrite del_nxt_0_L2 in Hok.
  rewrite Hx. fold x h0 in Hxl. rewrite Hxl. simpl.
  (* its backward pointer *)
  pose proof (rep_back _ _ HRep P cn Hcn) as Hbk. fold x h0 in Hbk.
  rewrite <- (hf_back _ _ Hfr) in Hbk. unfold nodeBack in Hbk.
  destruct (h !! x) as [nx|] eqn:Hnx; [|done]. simpl in Hbk. injection Hbk as Hbk.
  simpl.
  assert (Hcells : ∀ h', (∀ y, nodeKey h' y = nodeKey h y) → Forall (cell_ok h') cells').
  { intros h' Hk. apply Forall_forall. intros c Hc. apply del_cells'_in in Hc.
    pose proof (rep_cells _ _ HRep) as Hall. rewrite Forall_forall in Hall.
    specialize (Hall c Hc). unfold cell_ok in *.
    by rewrite Hk, (hf_key _ _ Hfr). }
  assert (Hnd : NoDup (c_addr <$> cells')).
  { eapply sublist_NoDup; [exact Hnd0|]. apply fmap_sublist.
    unfold cells', pre, cells, L2. simpl. apply sublist_skip, del_sublist. }
  assert (Hheights : Forall (λ c, 1 ≤ c_height c ≤ SKIPLIST_MAXLEVEL)%nat
                       (take P L ++ drop (S P) L)).
  { apply Forall_forall. intros c Hc.
    pose proof (rep_heights _ _ HRep) as Hh. rewrite Forall_forall in Hh.
    apply Hh. eapply elem_of_sublist; [exact Hc|apply del_sublist]. }
  assert (Hmh : (max_height (take P L ++ drop (S P) L) ≤ top)%nat).
  { apply max_height_bound; [lia|]. apply Forall_forall. intros c Hc.
    eapply (Rep_height_le sl L); [done|].
    eapply elem_of_sublist; [exact Hc|apply del_sublist]. }
  assert (Hlen : u64 (sl_length sl - 1)
                 = u64 (Z.of_nat (base.length (take P L ++ drop (S P) L)))).
  { rewrite (rep_length _ _ HRep), length_app, length_take, length_drop.
    apply lookup_lt_Some in Hcn. u64_eq. }
  destruct (head L2) as [c2|] eqn:Hhead; simpl in Hok.
  - destruct Hok as [Hfw _]. rewrite Hfw. simpl.
    assert (Hc2 : L !! S P = Some c2).
    { unfold L2 in Hhead. rewrite head_lookup, lookup_drop in Hhead.
      by rewrite Nat.add_0_r in Hhead. }
    assert (Hc2h : is_Some (h !! c_addr c2)).
    { pose proof (rep_cells _ _ HRep) as Hall. rewrite Forall_forall in Hall.
      eapply nodeKey_is_Some. rewrite (hf_key _ _ Hfr). apply Hall.
      apply elem_of_cons. right. by eapply list_elem_of_lookup_2. }
    destruct (setBackward_spec h (c_addr c2) (backward nx) Hc2h) as (h' & -> & Hup).
    simpl.
    assert (Hlinks' : ∀ j, links_at h' j cells').
    { intros j. eapply links_at_ext; [|apply (Hlinks j)].
      intros c _. by rewrite (bu_level _ _ _ _ Hup). }
    rewrite (shrink_level_spec h' (sl_header sl) (take P L ++ drop (S P) L) top Hlinks')
      by lia.
    simpl. eexists. split; [done|].
    split; simpl.
    + exact Hnd.
    + apply Hcells. intros y. by rewrite (bu_key _ _ _ _ Hup).
    + done.
    + done.
    + apply (back_ok_delete h0); [apply (rep_back _ _ HRep)| |].
      * intros c2' Hc2'. replace c2' with c2 by congruence.
        rewrite (bu_here _ _ _ _ Hup). by rewrite Hbk.
      * intros k c Hk Hne1 Hne2.
        rewrite (bu_frame _ _ _ _ Hup).
        2:{ intros Heq. apply Hne1.
            assert (S k = S (S P)); [|lia].
            by eapply (NoDup_addr_lookup cells). }
        by rewrite (hf_back _ _ Hfr).
    + rewrite (rep_tail _ _ HRep).
      rewrite <- (take_drop P L) at 1. rewrite (drop_S _ _ _ Hcn).
      by rewrite (last_insert_mid _ _ cn c2 Hhead).
    + done.
    + done.
  - rewrite Hok. simpl.
    assert (HL2 : drop (S P) L = []) by (fold L2; by destruct L2).
    rewrite (shrink_level_spec h (sl_header sl) (take P L ++ drop (S P) L) top Hlinks)
      by lia.
    simpl. eexists. split; [done|].
    split; simpl.
    + exact Hnd.
    + by apply Hcells.
    + done.
    + done.
    + apply (back_ok_delete h0); [apply (rep_back _ _ HRep)| |].
      * intros c2' Hc2'.
        assert (Hd : drop (S P) L !! 0%nat = Some c2')
          by (by rewrite lookup_drop, Nat.add_0_r).
        by rewrite HL2 in Hd.
      * intros k c Hk Hne1 Hne2. by rewrite (hf_back _ _ Hfr).
    + rewrite HL2, app_nil_r, Hbk.
      rewrite last_lookup, length_take.
      apply lookup_lt_Some in Hcn.
      destruct P as [|P']; [done|].
      replace (Init.Nat.pred (S P' `min` base.length L)) with P' by lia.
      by rewrite lookup_take_lt by lia.
    + done.
    + done.
Qed.

End deleteNode_proof.

Lemma nxt_0 l :
  Forall (λ c, 1 ≤ c_height c)%nat l → nxt 0 l = (λ c, (1%nat, c)) <$> head l.
Proof.
  destruct l as [|c l]; [done|]. intros Hall. inversion Hall; subst. simpl.
  by rewrite decide_True by lia.
Qed.

Lemma Rep_heights_ge sl L l :
  Rep sl L → l `sublist_of` L → Forall (λ c, 1 ≤ c_height c)%nat l.
Proof.
  intros HR Hsub. apply Forall_forall. intros c Hc.
  eapply (Rep_height_le sl L); [done|]. by eapply elem_of_sublist.
Qed.

Lemma delete_spec sl L q qe sc e :
  Rep sl L → key_test (keyLess sc e) q → key_test (keyEq sc e) qe →
  ∃ P,
    (P ≤ base.length L)%nat ∧
    (∀ c, P ≠ 0%nat → L !! (P - 1)%nat = Some c → q c = true) ∧
    (∀ c, L !! P = Some c → q c = false) ∧
    match L !! P with
    | Some cn =>
        if qe cn then
          ∃ sl', delete sl sc e = Some (sl', true) ∧ Rep sl' (take P L ++ drop (S P) L)
        else delete sl sc e = Some (sl, false)
    | None => delete sl sc e = Some (sl, false)
    end.
Proof.
  intros HRep Hq Hqe. unfold delete.
  pose proof (Rep_level_bound _ _ HRep) as Hlv.
  rewrite (delete_search_insert_search _ _ _ _ _ _ (replicate SKIPLIST_MAXLEVEL 0))
    by (rewrite ?length_replicate; lia).
  destruct (insert_search_Rep sl L q sc e [] HRep Hq)
    as (P & cP & update & rank & -> & HcP & Hlu & Hlr & Hrec & HqP).
  simpl.
  assert (HP : (P ≤ base.length L)%nat).
  { apply lookup_lt_Some in HcP. simpl in HcP. lia. }
  assert (Hstop : ∀ c, L !! P = Some c → q c = false).
  { intros c Hc.
    eapply (recorded_stop _ _ _ _ _ _ Hrec); [lia| |exact Hc].
    intros p c' Hp Hp1. destruct p as [|p]; [lia|]. simpl in Hp.
    eapply (Rep_height_le sl L); [done|]. by eapply list_elem_of_lookup_2. }
  exists P. split_and!; [done| |done|].
  { intros c HP0 Hc. destruct HqP as [->|HqP]; [done|].
    destruct P as [|P']; [done|]. simpl in *.
    rewrite Nat.sub_0_r in Hc. congruence. }
  destruct (rep_links _ _ HRep 0%nat P cP HcP) as (xl & Hxl & Hok).
  { destruct P as [|P']; [injection HcP as <-; simpl; lia|].
    simpl in HcP.
    eapply (Rep_height_le sl L); [done|]. by eapply list_elem_of_lookup_2. }
  change (drop (S P) (header_cell (sl_header sl) :: L)) with (drop P L) in Hok.
  rewrite (nxt_0 (drop P L)) in Hok
    by (eapply Rep_heights_ge; [done|apply sublist_drop]).
  rewrite head_lookup, lookup_drop, Nat.add_0_r in Hok.
  rewrite Hxl. simpl.
  destruct (L !! P) as [cn|] eqn:Hcn; simpl in Hok.
  - destruct Hok as [-> _].
    pose proof (rep_cells _ _ HRep) as Hall. rewrite Forall_forall in Hall.
    destruct (cell_ok_lookup (sl_nodes sl) cn) as (n & -> & He & Hs & _).
    { apply Hall. apply elem_of_cons. right. by eapply list_elem_of_lookup_2. }
    simpl. rewrite (Hqe n cn He Hs).
    destruct (qe cn); [|done].
    destruct (deleteNode_spec sl L q P cn update rank HRep Hcn Hrec) as (sl' & -> & HRep').
    exists sl'. by split.
  - by rewrite Hok.
Qed.

(** ** Order on float64 *)

Ltac cmp_cases :=
  repeat match goal with
  | H : context [Z.compare ?a ?b] |- _ => destruct (Z.compare_spec a b)
  | |- context [Z.compare ?a ?b] => destruct (Z.compare_spec a b)
  | H : context [Pos.compare_cont Eq ?a ?b] |- _ =>
      change (Pos.compare_cont Eq a b) with (Pos.compare a b) in H;
      destruct (Pos.compare_spec a b)
  | |- context [Pos.compare_cont Eq ?a ?b] =>
      change (Pos.compare_cont Eq a b) with (Pos.compare a b);
      destruct (Pos.compare_spec a b)
  end.

Lemma SFcompare_antisym a b :
  SFcompare b a = option_map CompOpp (SFcompare a b).
Proof.
  destruct a as [[]|[]| |[] m1 e1], b as [[]|[]| |[] m2 e2]; simpl; try reflexivity.
  all: cmp_cases; simpl; try reflexivity; try lia.
Qed.

Lemma SFcompare_trans a b c r :
  SFcompare a b = Some r → SFcompare b c = Some r → SFcompare a c = Some r.
Proof.
  destruct a as [[]|[]| |[] m1 e1], b as [[]|[]| |[] m2 e2], c as [[]|[]| |[] m3 e3];
    simpl; try congruence.
  all: intros H1 H2; injection H1 as <-; injection H2 as H2; f_equal.
  all: cmp_cases; simpl in *; try congruence; try lia.
Qed.

Lemma SFcompare_eq_l a b c :
  SFcompare a b = Some Eq → SFcompare a c = SFcompare b c.
Proof.
  destruct a as [[]|[]| |[] m1 e1], b as [[]|[]| |[] m2 e2], c as [[]|[]| |[] m3 e3];
    simpl; try congruence.
  all: intros H1; injection H1 as H1.
  all: cmp_cases; simpl in *; try congruence; try lia.
Qed.

Lemma SFcompare_refl a : is_NaN a = false → SFcompare a a = Some Eq.
Proof.
  destruct a as [[]|[]| |[] m1 e1]; simpl; try congruence; intros _; f_equal.
  all: rewrite Z.compare_refl; change (Pos.compare_cont Eq m1 m1) with (Pos.compare m1 m1);
       rewrite Pos.compare_refl; reflexivity.
Qed.

Lemma SFcompare_total a b :
  is_NaN a = false → is_NaN b = false → ∃ r, SFcompare a b = Some r.
Proof.
  destruct a as [[]|[]| |[] m1 e1], b as [[]|[]| |[] m2 e2]; simpl; try congruence; eauto.
Qed.

Lemma SFcompare_eq_r a b c :
  SFcompare b c = Some Eq → SFcompare a b = SFcompare a c.
Proof.
  intros H. rewrite (SFcompare_antisym b a), (SFcompare_antisym c a).
  f_equal. symmetry. apply SFcompare_eq_l.
  rewrite SFcompare_antisym, H. done.
Qed.

(** ** Order on strings *)

Lemma ascii_compare_trans a b c r :
  Ascii.compare a b = r → Ascii.compare b c = r → Ascii.compare a c = r.
Proof.
  unfold Ascii.compare. intros <-.
  destruct (N.compare_spec (Ascii.N_of_ascii a) (Ascii.N_of_ascii b)) as [Heq|Hlt|Hgt].
  - by rewrite Heq.
  - rewrite !N.compare_lt_iff. lia.
  - rewrite !N.compare_gt_iff. lia.
Qed.

Lemma ascii_compare_refl a : Ascii.compare a a = Eq.
Proof. unfold Ascii.compare. apply N.compare_refl. Qed.

Lemma string_compare_trans s1 s2 s3 r :
  String.compare s1 s2 = r → String.compare s2 s3 = r → String.compare s1 s3 = r.
Proof.
  revert s2 s3. induction s1 as [|a s1 IH]; intros [|b s2] [|c s3]; simpl; try congruence.
  destruct (Ascii.compare a b) eqn:Hab, (Ascii.compare b c) eqn:Hbc; try congruence.
  all: try (apply Ascii.compare_eq_iff in Hab; subst a).
  all: try (apply Ascii.compare_eq_iff in Hbc; subst b).
  all: rewrite ?ascii_compare_refl, ?Hab, ?Hbc; try done.
  - apply IH.
  - by rewrite (ascii_compare_trans _ _ _ _ Hab Hbc).
  - by rewrite (ascii_compare_trans _ _ _ _ Hab Hbc).
Qed.

Lemma string_compare_refl s : String.compare s s = Eq.
Proof.
  induction s as [|a s IH]; simpl; [done|]. by rewrite ascii_compare_refl.
Qed.

Lemma string_ltb_irrefl s : String.ltb s s = false.
Proof. unfold String.ltb. by rewrite string_compare_refl. Qed.

Lemma string_ltb_trans a b c :
  String.ltb a b = true → String.ltb b c = true → String.ltb a c = true.
Proof.
  unfold String.ltb.
  destruct (String.compare a b) eqn:Hab; try done.
  destruct (String.compare b c) eqn:Hbc; try done.
  by rewrite (string_compare_trans _ _ _ _ Hab Hbc).
Qed.

Lemma string_ltb_total a b :
  String.ltb a b = false → a ≠ b → String.ltb b a = true.
Proof.
  unfold String.ltb. rewrite (String.compare_antisym b a).
  destruct (String.compare a b) eqn:Hab; try done.
  apply String.compare_eq_iff in Hab. done.
Qed.

Lemma string_leb_ltb a b :
  String.leb a b = String.ltb a b || String.eqb a b.
Proof.
  unfold String.leb, String.ltb.
  destruct (String.compare a b) eqn:Hab.
  - apply String.compare_eq_iff in Hab. subst. by rewrite String.eqb_refl.
  - done.
  - symmetry. apply String.eqb_neq. intros ->. by rewrite string_compare_refl in Hab.
Qed.

(** ** The composite key order *)

Lemma key_lt_irrefl s e : key_lt s e s e = false.
Proof.
  unfold key_lt, SFltb, SFeqb. rewrite string_ltb_irrefl, andb_false_r, orb_false_r.
  destruct (is_NaN s) eqn:Hs.
  - by destruct s.
  - by rewrite SFcompare_refl.
Qed.

Lemma key_lt_trans s1 e1 s2 e2 s3 e3 :
  key_lt s1 e1 s2 e2 = true → key_lt s2 e2 s3 e3 = true → key_lt s1 e1 s3 e3 = true.
Proof.
  unfold key_lt, SFltb, SFeqb.
  destruct (SFcompare s1 s2) as [[]|] eqn:H12; simpl; try done.
  - rewrite (SFcompare_eq_l _ _ s3 H12).
    destruct (SFcompare s2 s3) as [[]|] eqn:H23; simpl; try done.
    destruct (String.ltb e1 e2) eqn:He12; [|done].
    destruct (String.ltb e2 e3) eqn:He23; [|done].
    by rewrite (string_ltb_trans _ _ _ He12 He23).
  - destruct (SFcompare s2 s3) as [[]|] eqn:H23; simpl; try done.
    + by rewrite <- (SFcompare_eq_r s1 _ _ H23), H12.
    + by rewrite (SFcompare_trans _ _ _ _ H12 H23).
Qed.

Lemma key_lt_total s1 e1 s2 e2 :
  is_NaN s1 = false → is_NaN s2 = false →
  key_lt s1 e1 s2 e2 = false → e1 ≠ e2 → key_lt s2 e2 s1 e1 = true.
Proof.
  unfold key_lt, SFltb, SFeqb. intros Hn1 Hn2.
  destruct (SFcompare_total s1 s2 Hn1 Hn2) as [r Hr].
  rewrite (SFcompare_antisym s1 s2), Hr.
  destruct r; simpl; try done.
  intros Hlt Hne. by rewrite (string_ltb_total _ _ Hlt Hne).
Qed.

Lemma key_test_less sc e : key_test (keyLess sc e) (cellLess sc e).
Proof. intros n c He Hs. unfold keyLess, cellLess, key_lt. by rewrite He, Hs. Qed.

Lemma key_test_lessEq sc e : key_test (keyLessEq sc e) (cellLessEq sc e).
Proof. intros n c He Hs. unfold keyLessEq, cellLessEq, key_le. by rewrite He, Hs. Qed.

Lemma key_test_eq sc e : key_test (keyEq sc e) (cellEq sc e).
Proof. intros n c He Hs. unfold keyEq, cellEq. by rewrite He, Hs. Qed.

Lemma key_test_score min : key_test (scoreLess min) (λ c, SFltb (c_score c) min).
Proof. intros n c He Hs. unfold scoreLess. by rewrite Hs. Qed.

Lemma cell_lt_trans a b c : cell_lt a b → cell_lt b c → cell_lt a c.
Proof. apply key_lt_trans. Qed.

Lemma cell_lt_irrefl a : ¬ cell_lt a a.
Proof. unfold cell_lt. by rewrite key_lt_irrefl. Qed.

(** ** Sorted chains *)

Lemma sorted_lookup L i j a b :
  StronglySorted cell_lt L → (i < j)%nat →
  L !! i = Some a → L !! j = Some b → cell_lt a b.
Proof.
  intros Hs Hij Hi Hj.
  rewrite <- (take_drop j L) in Hs.
  eapply StronglySorted_app_1_elem_of; [exact Hs| |].
  - apply (list_elem_of_lookup_2 _ i). by rewrite lookup_take_lt.
  - apply (list_elem_of_lookup_2 _ 0%nat). by rewrite lookup_drop, Nat.add_0_r.
Qed.

Lemma sorted_sublist L L' :
  StronglySorted cell_lt L → L' `sublist_of` L → StronglySorted cell_lt L'.
Proof.
  intros Hs Hsub. induction Hsub as [|c l1 l2 Hsub IH|c l1 l2 Hsub IH].
  - constructor.
  - apply StronglySorted_cons in Hs as [Hall Hs].
    apply StronglySorted_cons. split; [|by apply IH].
    apply Forall_forall. intros c' Hc'. rewrite Forall_forall in Hall.
    apply Hall. by eapply elem_of_sublist.
  - apply StronglySorted_cons in Hs as [_ Hs]. by apply IH.
Qed.

Lemma sorted_insert L P cx :
  StronglySorted cell_lt L → (P ≤ base.length L)%nat →
  (∀ c, P ≠ 0%nat → L !! (P - 1)%nat = Some c → cell_lt c cx) →
  (∀ c, L !! P = Some c → cell_lt cx c) →
  StronglySorted cell_lt (take P L ++ cx :: drop P L).
Proof.
  intros Hs HP Hbefore Hafter.
  pose proof Hs as Hs'. rewrite <- (take_drop P L) in Hs'.
  apply StronglySorted_app in Hs' as (Hcross & Hs1 & Hs2).
  assert (Hall : Forall (cell_lt cx) (drop P L)).
  { apply Forall_lookup. intros k c Hk. rewrite lookup_drop in Hk.
    destruct k as [|k].
    - rewrite Nat.add_0_r in Hk. by apply Hafter.
    - destruct (lookup_lt_is_Some_2 L P) as [cP HcP].
      { apply lookup_lt_Some in Hk. lia. }
      eapply cell_lt_trans; [by apply Hafter|].
      eapply (sorted_lookup L P (P + S k)); [done|lia|done|done]. }
  apply StronglySorted_app_2; [|done|by apply StronglySorted_cons].
  intros x1 x2 Hx1 Hx2.
  assert (Hx1cx : cell_lt x1 cx).
  { apply list_elem_of_lookup in Hx1 as [i Hi].
    assert (i < P)%nat by (apply lookup_lt_Some in Hi; rewrite length_take in Hi; lia).
    rewrite lookup_take_lt in Hi by done.
    destruct (decide (i = P - 1)%nat) as [->|Hne]; [apply Hbefore; [lia|done]|].
    destruct (lookup_lt_is_Some_2 L (P - 1)%nat) as [cP HcP]; [lia|].
    eapply cell_lt_trans; [|apply Hbefore; [lia|done]].
    eapply (sorted_lookup L i (P - 1)); [done|lia|done|done]. }
  apply elem_of_cons in Hx2 as [->|Hx2]; [done|].
  rewrite Forall_forall in Hall. eapply cell_lt_trans; [done|by apply Hall].
Qed.

(** In a sorted chain the descent for the key of a cell stops just before
    that cell. *)
Lemma sorted_find L k c0 P :
  StronglySorted cell_lt L → L !! k = Some c0 →
  (P ≤ base.length L)%nat →
  (∀ c, P ≠ 0%nat → L !! (P - 1)%nat = Some c →
        cellLess (c_score c0) (c_ele c0) c = true) →
  (∀ c, L !! P = Some c → cellLess (c_score c0) (c_ele c0) c = false) →
  P = k.
Proof.
  intros Hs Hk HP Hbefore Hafter.
  destruct (decide (P = k)) as [|Hne]; [done|exfalso].
  destruct (decide (P < k)%nat) as [Hlt|Hge].
  - destruct (lookup_lt_is_Some_2 L P) as [c Hc].
    { apply lookup_lt_Some in Hk. lia. }
    pose proof (sorted_lookup L P k c c0 Hs Hlt Hc Hk) as Hcc.
    unfold cell_lt in Hcc. specialize (Hafter c Hc). unfold cellLess in Hafter.
    congruence.
  - destruct (lookup_lt_is_Some_2 L (P - 1)%nat) as [c Hc]; [lia|].
    specialize (Hbefore c ltac:(lia) Hc). unfold cellLess in Hbefore.
    destruct (decide (P - 1 = k)%nat) as [Heq|Hne'].
    + rewrite Heq in Hc. replace c with c0 in Hbefore by congruence.
      by rewrite key_lt_irrefl in Hbefore.
    + pose proof (sorted_lookup L k (P - 1)%nat c0 c Hs ltac:(lia) Hk Hc) as Hcc.
      apply (cell_lt_irrefl c0). by eapply cell_lt_trans.
Qed.

Lemma SFeqb_refl s : is_NaN s = false → SFeqb s s = true.
Proof. intros Hs. unfold SFeqb. by rewrite SFcompare_refl. Qed.

Lemma delete_found sl L k c0 :
  Rep sl L → StronglySorted cell_lt L → is_NaN (c_score c0) = false →
  L !! k = Some c0 →
  ∃ sl', delete sl (c_score c0) (c_ele c0) = Some (sl', true) ∧
         Rep sl' (take k L ++ drop (S k) L).
Proof.
  intros HRep Hs Hnan Hk.
  destruct (delete_spec sl L _ _ (c_score c0) (c_ele c0) HRep
              (key_test_less _ _) (key_test_eq _ _)) as (P & HP & Hbefore & Hafter & Hres).
  assert (P = k) as -> by (by eapply sorted_find).
  rewrite Hk in Hres.
  assert (Heq : cellEq (c_score c0) (c_ele c0) c0 = true).
  { unfold cellEq. by rewrite SFeqb_refl, String.eqb_refl. }
  by rewrite Heq in Hres.
Qed.

Lemma insert_sorted sl L draws sc e :
  Rep sl L → StronglySorted cell_lt L →
  Forall (λ c, is_NaN (c_score c) = false) L →
  is_NaN sc = false → e ∉ (c_ele <$> L) →
  ∃ sl' P,
    let cx := mkCell (base.length (sl_nodes sl)) e sc (randomLevel draws) in
    insert sl draws sc e = Some (sl', base.length (sl_nodes sl)) ∧
    (P ≤ base.length L)%nat ∧
    Rep sl' (take P L ++ cx :: drop P L) ∧
    StronglySorted cell_lt (take P L ++ cx :: drop P L).
Proof.
  intros HRep Hs Hnan Hsc He.
  destruct (insert_spec sl L _ sc e draws HRep (key_test_less _ _))
    as (sl' & P & Hins & HP & HRep' & Hbefore & Hafter).
  exists sl', P. split_and!; [done|done|done|].
  apply sorted_insert; [done|done| |].
  - intros c HP0 Hc. by apply Hbefore.
  - intros c Hc. unfold cell_lt. simpl.
    apply key_lt_total; [|done| |].
    + rewrite Forall_forall in Hnan. apply Hnan. by eapply list_elem_of_lookup_2.
    + by apply Hafter.
    + intros Heq. apply He. rewrite <- Heq.
      apply list_elem_of_fmap_2. by eapply list_elem_of_lookup_2.
Qed.

(** ** Add and Remove keep the invariant *)

Lemma insert_mid_perm {A} (L : list A) P cx :
  take P L ++ cx :: drop P L ≡ₚ cx :: L.
Proof.
  rewrite <- Permutation_middle. by rewrite take_drop.
Qed.

Lemma elem_of_insert_mid {A} (L : list A) P cx c :
  c ∈ take P L ++ cx :: drop P L ↔ c = cx ∨ c ∈ L.
Proof. by rewrite insert_mid_perm, elem_of_cons. Qed.

Lemma delete_mid_sublist {A} (L : list A) k :
  take k L ++ drop (S k) L `sublist_of` L.
Proof.
  rewrite <- (take_drop k L) at 3. apply sublist_app; [done|].
  destruct (L !! k) as [c|] eqn:Hk.
  - rewrite (drop_S _ _ _ Hk). by apply sublist_cons.
  - apply lookup_ge_None in Hk. by rewrite !drop_ge by lia.
Qed.

Lemma elem_of_delete_mid (L : list cell) k c0 c :
  NoDup (c_ele <$> L) → L !! k = Some c0 →
  c ∈ take k L ++ drop (S k) L ↔ c ∈ L ∧ c_ele c ≠ c_ele c0.
Proof.
  intros Hnd Hk. split.
  - intros Hc. split; [by eapply elem_of_sublist, delete_mid_sublist|].
    intros Heq. apply elem_of_app in Hc as [Hc|Hc].
    + apply list_elem_of_lookup in Hc as [i Hi].
      assert (i < k)%nat by (apply lookup_lt_Some in Hi; rewrite length_take in Hi; lia).
      rewrite lookup_take_lt in Hi by done.
      assert (i = k); [|lia].
      eapply NoDup_lookup; [exact Hnd| |].
      * by rewrite list_lookup_fmap, Hi.
      * rewrite list_lookup_fmap, Hk. simpl. by rewrite Heq.
    + apply list_elem_of_lookup in Hc as [i Hi].
      rewrite lookup_drop in Hi.
      assert (S k + i = k)%nat; [|lia].
      eapply NoDup_lookup; [exact Hnd| |].
      * by rewrite list_lookup_fmap, Hi.
      * rewrite list_lookup_fmap, Hk. simpl. by rewrite Heq.
  - intros [Hc Hne]. rewrite <- (take_drop k L), (drop_S _ _ _ Hk) in Hc.
    rewrite elem_of_app, elem_of_cons in Hc. rewrite elem_of_app.
    destruct Hc as [?|[->|?]]; [by left|done|by right].
Qed.

Lemma dict_absent z L e :
  Inv z L → dict z !! e = None → e ∉ (c_ele <$> L).
Proof.
  intros HI Hd Hin. apply list_elem_of_fmap in Hin as (c & -> & Hc).
  assert (Hs : dict z !! c_ele c = Some (c_score c)).
  { apply (inv_dict _ _ HI). by exists c. }
  congruence.
Qed.

Lemma dict_present z L e sc :
  Inv z L → dict z !! e = Some sc →
  ∃ k c0, L !! k = Some c0 ∧ c_ele c0 = e ∧ c_score c0 = sc.
Proof.
  intros HI Hd. apply (inv_dict _ _ HI) in Hd as (c & Hc & He & Hs).
  apply list_elem_of_lookup in Hc as [k Hk]. by exists k, c.
Qed.

Lemma Inv_insert z L sl' P cx :
  Inv z L → is_NaN (c_score cx) = false → c_ele cx ∉ (c_ele <$> L) →
  Rep sl' (take P L ++ cx :: drop P L) →
  StronglySorted cell_lt (take P L ++ cx :: drop P L) →
  Inv (mkZSet (<[c_ele cx := c_score cx]> (dict z)) sl') (take P L ++ cx :: drop P L).
Proof.
  intros HI Hnan Hnew HRep Hs. split; simpl.
  - done.
  - done.
  - rewrite insert_mid_perm. constructor; [done|apply (inv_nonan _ _ HI)].
  - intros m s. setoid_rewrite elem_of_insert_mid.
    destruct (decide (m = c_ele cx)) as [->|Hne].
    + rewrite lookup_insert_eq. split.
      * intros [= <-]. exists cx. auto.
      * intros (c & [->|Hc] & He & Hsc); [by rewrite Hsc|].
        exfalso. apply Hnew. rewrite <- He. by apply list_elem_of_fmap_2.
    + rewrite lookup_insert_ne by done. rewrite (inv_dict _ _ HI). split.
      * intros (c & Hc & He & Hsc). exists c. auto.
      * intros (c & [->|Hc] & He & Hsc); [done|]. by exists c.
  - rewrite insert_mid_perm, fmap_cons. apply NoDup_cons. split; [done|].
    apply (inv_uniq _ _ HI).
Qed.

Lemma Inv_delete z L sl' k c0 :
  Inv z L → L !! k = Some c0 →
  Rep sl' (take k L ++ drop (S k) L) →
  Inv (mkZSet (base.delete (c_ele c0) (dict z)) sl') (take k L ++ drop (S k) L).
Proof.
  intros HI Hk HRep. split; simpl.
  - done.
  - eapply sorted_sublist; [apply (inv_sorted _ _ HI)|apply delete_mid_sublist].
  - apply Forall_forall. intros c Hc.
    pose proof (inv_nonan _ _ HI) as Hn. rewrite Forall_forall in Hn.
    apply Hn. by eapply elem_of_sublist, delete_mid_sublist.
  - intros m s.
    setoid_rewrite (elem_of_delete_mid L k c0 _ (inv_uniq _ _ HI) Hk).
    destruct (decide (m = c_ele c0)) as [->|Hne].
    + rewrite lookup_delete_eq. split; [done|].
      intros (c & [Hc Hne] & He & Hsc). done.
    + rewrite lookup_delete_ne by done. rewrite (inv_dict _ _ HI). split.
      * intros (c & Hc & He & Hsc). exists c. split_and!; [done| |done|done]. congruence.
      * intros (c & [Hc _] & He & Hsc). by exists c.
  - eapply sublist_NoDup; [apply (inv_uniq _ _ HI)|].
    apply fmap_sublist, delete_mid_sublist.
Qed.

Lemma Add_absent z L draws e sc :
  Inv z L → is_NaN sc = false → dict z !! e = None →
  ∃ z' P,
    Add z draws e sc = Some (z', true) ∧ (P ≤ base.length L)%nat ∧
    dict z' = <[e := sc]> (dict z) ∧
    Inv z' (take P L ++
            mkCell (base.length (sl_nodes (zsl z))) e sc (randomLevel draws) :: drop P L).
Proof.
  intros HI Hsc Hd.
  pose proof (dict_absent _ _ _ HI Hd) as Hnew.
  destruct (insert_sorted (zsl z) L draws sc e (inv_rep _ _ HI) (inv_sorted _ _ HI)
              (inv_nonan _ _ HI) Hsc Hnew) as (sl' & P & Hins & HP & HRep & Hs).
  exists (mkZSet (<[e := sc]> (dict z)) sl'), P. split_and!; [|done|done|].
  - unfold Add. by rewrite Hd, Hins.
  - by apply (Inv_insert z L sl' P (mkCell _ e sc _)).
Qed.

Lemma Add_same z draws e sc old :
  dict z !! e = Some old → SFeqb old sc = true → Add z draws e sc = Some (z, false).
Proof. intros Hd Heq. unfold Add. by rewrite Hd, Heq. Qed.

Lemma Remove_present z L e sc :
  Inv z L → dict z !! e = Some sc →
  ∃ z' k c0,
    L !! k = Some c0 ∧ c_ele c0 = e ∧ c_score c0 = sc ∧
    Remove z e = Some (z', true) ∧
    dict z' = base.delete e (dict z) ∧
    Inv z' (take k L ++ drop (S k) L).
Proof.
  intros HI Hd.
  destruct (dict_present _ _ _ _ HI Hd) as (k & c0 & Hk & He & Hs).
  destruct (delete_found (zsl z) L k c0 (inv_rep _ _ HI) (inv_sorted _ _ HI))
    as (sl' & Hdel & HRep); [|done|].
  { pose proof (inv_nonan _ _ HI) as Hn. rewrite Forall_forall in Hn.
    apply Hn. by eapply list_elem_of_lookup_2. }
  rewrite Hs, He in Hdel.
  exists (mkZSet (base.delete e (dict z)) sl'), k, c0.
  split_and!; [done|done|done| |done|].
  - unfold Remove. by rewrite Hd, Hdel.
  - rewrite <- He. by apply Inv_delete.
Qed.

Lemma Remove_absent z e :
  dict z !! e = None → Remove z e = Some (z, false).
Proof. intros Hd. unfold Remove. by rewrite Hd. Qed.

Lemma Add_update z L draws e sc old :
  Inv z L → is_NaN sc = false → dict z !! e = Some old → SFeqb old sc = false →
  ∃ z' k c0 P x,
    L !! k = Some c0 ∧ c_ele c0 = e ∧ c_score c0 = old ∧
    Add z draws e sc = Some (z', false) ∧
    dict z' = <[e := sc]> (dict z) ∧
    (P ≤ base.length (take k L ++ drop (S k) L))%nat ∧
    Inv z' (take P (take k L ++ drop (S k) L) ++
            mkCell x e sc (randomLevel draws) :: drop P (take k L ++ drop (S k) L)).
Proof.
  intros HI Hsc Hd Hne.
  destruct (dict_present _ _ _ _ HI Hd) as (k & c0 & Hk & He & Hs).
  destruct (delete_found (zsl z) L k c0 (inv_rep _ _ HI) (inv_sorted _ _ HI))
    as (sl1 & Hdel & HRep1); [|done|].
  { pose proof (inv_nonan _ _ HI) as Hn. rewrite Forall_forall in Hn.
    apply Hn. by eapply list_elem_of_lookup_2. }
  rewrite Hs, He in Hdel.
  pose proof (Inv_delete z L sl1 k c0 HI Hk HRep1) as HI1.
  set (L1 := take k L ++ drop (S k) L) in *.
  assert (Hnew : e ∉ (c_ele <$> L1)).
  { intros Hin. apply list_elem_of_fmap in Hin as (c & Hec & Hc).
    apply (elem_of_delete_mid L k c0 c (inv_uniq _ _ HI) Hk) in Hc as [_ Hc].
    congruence. }
  destruct (insert_sorted sl1 L1 draws sc e HRep1 (inv_sorted _ _ HI1)
              (inv_nonan _ _ HI1) Hsc Hnew) as (sl' & P & Hins & HP & HRep & Hsrt).
  exists (mkZSet (<[e := sc]> (dict z)) sl'), k, c0, P, (base.length (sl_nodes sl1)).
  split_and!; [done|done|done| |done|done|].
  { unfold Add. rewrite Hd, Hne, Hdel. simpl. by rewrite Hins. }
  pose proof (Inv_insert _ L1 sl' P (mkCell (base.length (sl_nodes sl1)) e sc
                (randomLevel draws)) HI1 Hsc Hnew HRep Hsrt) as HI'.
  simpl in HI'. rewrite He in HI'.
  rewrite insert_delete_eq in HI'. exact HI'.
Qed.

(** ** The empty set *)

Lemma NewZSet_Inv z : NewZSet = Some z → Inv z [].
Proof.
  unfold NewZSet. remember createSkiplist as o eqn:Ho. vm_compute in Ho. subst o.
  simpl. intros [= <-]. split; simpl.
  - split; simpl.
    + apply NoDup_singleton.
    + by repeat constructor.
    + constructor.
    + intros i p c Hp Hc. destruct p as [|p]; [|done]. injection Hp as <-.
      simpl in Hc. unfold link_ok, getLevel. simpl.
      do 32 (destruct i as [|i]; [eexists; split; [reflexivity|done]|]).
      unfold SKIPLIST_MAXLEVEL in Hc. lia.
    + intros k c Hk. done.
    + done.
    + done.
    + done.
  - constructor.
  - constructor.
  - intros m s. rewrite lookup_empty. split; [done|].
    intros (c & Hc & _). by apply elem_of_nil in Hc.
  - constructor.
Qed.

Lemma NewZSet_Some : is_Some NewZSet.
Proof.
  unfold NewZSet. remember createSkiplist as o eqn:Ho. vm_compute in Ho. subst o.
  by eexists.
Qed.

(** ** Every reachable state satisfies the invariant *)

Lemma Add_Inv z L draws e sc z' b :
  Inv z L → is_NaN sc = false → Add z draws e sc = Some (z', b) → ∃ L', Inv z' L'.
Proof.
  intros HI Hsc HAdd.
  destruct (dict z !! e) as [old|] eqn:Hd.
  - destruct (SFeqb old sc) eqn:Heq.
    + rewrite (Add_same z draws e sc old Hd Heq) in HAdd. injection HAdd as <- <-.
      by exists L.
    + destruct (Add_update z L draws e sc old HI Hsc Hd Heq)
        as (z1 & k & c0 & P & x & _ & _ & _ & HAdd' & _ & _ & HI').
      rewrite HAdd' in HAdd. injection HAdd as <- <-. by eexists.
  - destruct (Add_absent z L draws e sc HI Hsc Hd) as (z1 & P & HAdd' & _ & _ & HI').
    rewrite HAdd' in HAdd. injection HAdd as <- <-. by eexists.
Qed.

Lemma Remove_Inv z L e z' b :
  Inv z L → Remove z e = Some (z', b) → ∃ L', Inv z' L'.
Proof.
  intros HI HRem.
  destruct (dict z !! e) as [sc|] eqn:Hd.
  - destruct (Remove_present z L e sc HI Hd) as (z1 & k & c0 & _ & _ & _ & HRem' & _ & HI').
    rewrite HRem' in HRem. injection HRem as <- <-. by eexists.
  - rewrite (Remove_absent z e Hd) in HRem. injection HRem as <- <-. by exists L.
Qed.

Lemma reachable_Inv z : reachable z → ∃ L, Inv z L.
Proof.
  induction 1 as [z Hnew|z draws e sc z' b _ [L HI] Hsc HAdd|z e z' b _ [L HI] HRem].
  - exists []. by apply NewZSet_Inv.
  - by eapply Add_Inv.
  - by eapply Remove_Inv.
Qed.

Lemma cells_level0 sl L P c :
  Rep sl L → (header_cell (sl_header sl) :: L) !! P = Some c →
  ∃ lv, getLevel (sl_nodes sl) (c_addr c) 0 = Some lv ∧ forward lv = c_addr <$> L !! P.
Proof.
  intros HRep HP.
  destruct (rep_links _ _ HRep 0%nat P c HP) as (lv & Hlv & Hok).
  { destruct P as [|P]; [injection HP as <-; simpl; unfold SKIPLIST_MAXLEVEL; lia|].
    simpl in HP.
    pose proof (Rep_height_le sl L c HRep ltac:(by eapply list_elem_of_lookup_2)). lia. }
  change (drop (S P) (header_cell (sl_header sl) :: L)) with (drop P L) in Hok.
  rewrite (nxt_0 (drop P L)) in Hok
    by (eapply Rep_heights_ge; [done|apply sublist_drop]).
  rewrite head_lookup, lookup_drop, Nat.add_0_r in Hok.
  exists lv. split; [done|].
  destruct (L !! P) as [cn|]; simpl in *; [by destruct Hok|done].
Qed.

(** ** Walking a level *)

Lemma over_level_None i pos l : nxt i l = None → over_level i pos l = [].
Proof.
  revert pos. induction l as [|c l IH]; intros pos; simpl; [done|].
  case_decide; [done|]. destruct (nxt i l); [done|]. intros _. by apply IH.
Qed.

Lemma over_level_Some i pos l d c :
  nxt i l = Some (d, c) →
  over_level i pos l
  = (c_addr c, pos + Z.of_nat d) :: over_level i (pos + Z.of_nat d) (drop d l).
Proof.
  revert pos d. induction l as [|c0 l IH]; intros pos d; simpl; [done|].
  case_decide.
  - intros [= <- <-]. simpl. by rewrite drop_0.
  - destruct (nxt i l) as [[d' c']|] eqn:Hn; simpl; [|done].
    intros [= <- <-]. rewrite (IH (pos + 1) d' eq_refl). simpl.
    by replace (pos + 1 + Z.of_nat d') with (pos + Z.pos (Pos.of_succ_nat d')) by lia.
Qed.

Lemma level_walk_spec h i cells :
  Forall (cell_ok h) cells →
  links_at h i cells →
  Z.of_nat (base.length cells) ≤ 2 ^ 64 →
  ∀ fuel P c,
    cells !! P = Some c → (i < c_height c)%nat →
    (base.length cells ≤ fuel + P)%nat →
    level_walk fuel h i (c_addr c) (Z.of_nat P)
    = over_level i (Z.of_nat P) (drop (S P) cells).
Proof.
  intros Hcells Hlinks Hsize fuel.
  induction fuel as [|fuel IH]; intros P c HP Hc Hfuel.
  { apply lookup_lt_Some in HP. lia. }
  destruct (link_step _ _ _ _ _ Hcells Hlinks HP Hc) as (lv & Hlv & Hcase).
  simpl. rewrite Hlv.
  destruct Hcase as [[Hn Hfw]|(d & cn & n & Hn & Hfw & Hsp & Hd & Hcn & Hhn & _)].
  - rewrite Hfw. by rewrite over_level_None.
  - rewrite Hfw, (over_level_Some _ _ _ _ _ Hn), Hsp.
    assert (HPd : (P + d < base.length cells)%nat) by (by apply lookup_lt_Some in Hcn).
    rewrite u64_small by lia.
    replace (Z.of_nat P + Z.of_nat d) with (Z.of_nat (P + d)) by lia.
    rewrite (IH (P + d)%nat cn Hcn Hhn) by lia.
    by rewrite drop_drop.
Qed.

Lemma Rep_level_chain sl L i :
  Rep sl L → Z.of_nat (base.length L) < 2 ^ 64 →
  level_chain sl i = over_level i 0 L.
Proof.
  intros HRep Hsize. unfold level_chain.
  destruct (decide (i < SKIPLIST_MAXLEVEL)%nat) as [Hi|Hi].
  - pose proof (level_walk_spec _ i _ (rep_cells _ _ HRep) (rep_links _ _ HRep i)
               ltac:(simpl; lia) (fuel_of (sl_nodes sl)) 0%nat
               (header_cell (sl_header sl)) eq_refl Hi) as Hw.
    apply Hw. pose proof (Rep_fuel _ _ HRep). unfold fuel_of. lia.
  - rewrite over_level_None.
    2:{ apply nxt_None. pose proof (rep_heights _ _ HRep) as Hh.
        eapply Forall_impl; [exact Hh|]. simpl. intros; lia. }
    pose proof (rep_cells _ _ HRep) as Hall. apply Forall_cons in Hall as [Hhd _].
    destruct (cell_ok_lookup _ _ Hhd) as (n & Hn & _ & _ & Hlen). simpl in *.
    assert (Hnone : getLevel (sl_nodes sl) (sl_header sl) i = None).
    { unfold getLevel. rewrite Hn. simpl. apply lookup_ge_None. lia. }
    destruct (fuel_of (sl_nodes sl)); simpl; [done|]. by rewrite Hnone.
Qed.

Lemma over_level_0 pos l :
  Forall (λ c, 1 ≤ c_height c)%nat l → fst <$> over_level 0 pos l = c_addr <$> l.
Proof.
  revert pos. induction l as [|c l IH]; intros pos Hall; simpl; [done|].
  apply Forall_cons in Hall as [Hc Hall].
  rewrite decide_True by lia. simpl. by rewrite IH.
Qed.

Lemma over_level_elem i pos l y s :
  (y, s) ∈ over_level i pos l →
  ∃ k c, l !! k = Some c ∧ y = c_addr c ∧ s = pos + Z.of_nat k + 1 ∧ (i < c_height c)%nat.
Proof.
  revert pos. induction l as [|c l IH]; intros pos; simpl.
  { intros H. by apply elem_of_nil in H. }
  case_decide as Hc.
  - rewrite elem_of_cons. intros [[= -> ->]|Hin].
    + exists 0%nat, c. split_and!; [done|done|lia|done].
    + destruct (IH _ Hin) as (k & c' & Hk & -> & -> & Hh).
      exists (S k), c'. split_and!; [done|done|lia|done].
  - intros Hin. destruct (IH _ Hin) as (k & c' & Hk & -> & -> & Hh).
    exists (S k), c'. split_and!; [done|done|lia|done].
Qed.

Lemma level0_walk_addrs sl L :
  Rep sl L →
  ∀ fuel P c acc,
    (header_cell (sl_header sl) :: L) !! P = Some c →
    (base.length L < fuel + P)%nat →
    fst <$> level_walk fuel (sl_nodes sl) 0 (c_addr c) acc = c_addr <$> drop P L.
Proof.
  intros HRep fuel. induction fuel as [|fuel IH]; intros P c acc HP Hfuel.
  { apply lookup_lt_Some in HP. simpl in HP. lia. }
  simpl.
  destruct (cells_level0 sl L P c HRep HP) as (lv & -> & Hfw). rewrite Hfw.
  destruct (L !! P) as [cn|] eqn:Hcn; simpl.
  - rewrite (drop_S _ _ _ Hcn). simpl. f_equal.
    apply (IH (S P) cn); [done|lia].
  - by rewrite drop_ge by (by apply lookup_ge_None).
Qed.

Lemma Rep_chain_addrs sl L : Rep sl L → chain_addrs sl = c_addr <$> L.
Proof.
  intros HRep. unfold chain_addrs, level_chain.
  pose proof (Rep_fuel _ _ HRep) as Hfuel. simpl in Hfuel.
  apply (level0_walk_addrs sl L HRep _ 0%nat (header_cell (sl_header sl)) 0 eq_refl).
  unfold fuel_of. lia.
Qed.

Lemma Rep_chain sl L : Rep sl L → chain sl = cell_pair <$> L.
Proof.
  intros HRep. unfold chain. rewrite (Rep_chain_addrs sl L HRep).
  pose proof (rep_cells _ _ HRep) as Hall. apply Forall_cons in Hall as [_ Hall].
  clear HRep. induction L as [|c L IH]; [done|].
  apply Forall_cons in Hall as [Hc Hall]. simpl.
  destruct (cell_ok_lookup _ _ Hc) as (n & -> & He & Hs & _). simpl.
  rewrite He, Hs. f_equal. by apply IH.
Qed.

(** ** getRank *)

Lemma key_le_lt_eq s1 e1 s2 e2 :
  key_le s1 e1 s2 e2 = key_lt s1 e1 s2 e2 || (SFeqb s1 s2 && String.eqb e1 e2).
Proof.
  unfold key_le, key_lt. rewrite string_leb_ltb.
  destruct (SFltb s1 s2), (SFeqb s1 s2), (String.ltb e1 e2), (String.eqb e1 e2); done.
Qed.

Lemma SFeqb_sym a b : SFeqb a b = SFeqb b a.
Proof.
  unfold SFeqb. rewrite (SFcompare_antisym a b).
  by destruct (SFcompare a b) as [[]|].
Qed.

Lemma key_lt_asym s1 e1 s2 e2 :
  key_lt s1 e1 s2 e2 = true → key_lt s2 e2 s1 e1 = false.
Proof.
  intros H12. destruct (key_lt s2 e2 s1 e1) eqn:H21; [|done].
  pose proof (key_lt_trans _ _ _ _ _ _ H12 H21) as H. by rewrite key_lt_irrefl in H.
Qed.

Lemma key_lt_not_eq s1 e1 s2 e2 :
  key_lt s1 e1 s2 e2 = true → SFeqb s1 s2 && String.eqb e1 e2 = false.
Proof.
  intros Hlt. destruct (SFeqb s1 s2) eqn:Heq; [|done].
  destruct (String.eqb_spec e1 e2) as [->|]; [|done]. exfalso.
  unfold key_lt in Hlt. rewrite string_ltb_irrefl, andb_false_r, orb_false_r in Hlt.
  unfold SFltb, SFeqb in *. by destruct (SFcompare s1 s2) as [[]|].
Qed.

(** Where the cells that are at most the key of [L !! k] lie. *)
Lemma sorted_lessEq L k c0 p c :
  StronglySorted cell_lt L → is_NaN (c_score c0) = false →
  L !! k = Some c0 → L !! p = Some c →
  cellLessEq (c_score c0) (c_ele c0) c = bool_decide (p ≤ k)%nat.
Proof.
  intros Hs Hnan Hk Hp. unfold cellLessEq. rewrite key_le_lt_eq.
  destruct (decide (p < k)%nat) as [Hlt|Hge].
  - rewrite bool_decide_eq_true_2 by lia.
    pose proof (sorted_lookup L p k c c0 Hs Hlt Hp Hk) as Hc. unfold cell_lt in Hc.
    by rewrite Hc.
  - destruct (decide (p = k)) as [->|Hne].
    + rewrite bool_decide_eq_true_2 by lia. replace c with c0 by congruence.
      by rewrite SFeqb_refl, String.eqb_refl, orb_true_r.
    + rewrite bool_decide_eq_false_2 by lia.
      pose proof (sorted_lookup L k p c0 c Hs ltac:(lia) Hk Hp) as Hc. unfold cell_lt in Hc.
      rewrite (key_lt_asym _ _ _ _ Hc). simpl.
      pose proof (key_lt_not_eq _ _ _ _ Hc) as Hne'.
      by rewrite SFeqb_sym, String.eqb_sym.
Qed.

Lemma getRank_loop_spec sl L k c0 :
  Rep sl L → StronglySorted cell_lt L → is_NaN (c_score c0) = false →
  L !! k = Some c0 →
  ∀ n P c,
    (1 ≤ n)%nat →
    (header_cell (sl_header sl) :: L) !! P = Some c → (n ≤ c_height c)%nat →
    (P ≤ k)%nat →
    getRank_loop sl (c_score c0) (c_ele c0) n (c_addr c) (u64 (Z.of_nat P))
    = Some (u64 (Z.of_nat (S k))).
Proof.
  intros HRep Hs Hnan Hk.
  set (cells := header_cell (sl_header sl) :: L).
  intros n. induction n as [|i IH]; intros P c Hn HP Hh HPk; [lia|].
  simpl.
  destruct (advance_rank_spec _ _ _ i _ (key_test_lessEq (c_score c0) (c_ele c0))
              (rep_cells _ _ HRep) (rep_links _ _ HRep i)
              (fuel_of (sl_nodes sl)) P c (Z.of_nat P) HP ltac:(lia))
    as (P' & c' & Hadv & HP' & Hle & Hc' & Htrue & Hstop).
  { pose proof (Rep_fuel _ _ HRep). unfold fuel_of. lia. }
  fold cells in HP', Htrue, Hstop.
  rewrite Hadv. simpl.
  replace (Z.of_nat P + Z.of_nat (P' - P)) with (Z.of_nat P') by lia.
  assert (HP'k : (P' ≤ S k)%nat).
  { destruct (decide (P' = P)) as [->|Hne]; [lia|].
    specialize (Htrue P' c' ltac:(lia) HP' Hc').
    destruct P' as [|p']; [lia|]. simpl in HP'.
    rewrite (sorted_lessEq L k c0 p' c' Hs Hnan Hk HP') in Htrue.
    apply bool_decide_eq_true in Htrue. lia. }
  pose proof (rep_cells _ _ HRep) as Hall. rewrite Forall_lookup in Hall.
  destruct (cell_ok_lookup _ _ (Hall _ _ HP')) as (n' & Hn' & He' & Hs' & _).
  rewrite Hn'. simpl.
  rewrite (key_test_eq (c_score c0) (c_ele c0) n' c' He' Hs').
  destruct (decide (P' = S k)) as [->|Hne].
  - (* the node is reached *)
    replace c' with c0 by (simpl in HP'; congruence).
    assert (Hhd : c_addr c0 ≠ sl_header sl).
    { intros Heq. assert (S k = 0)%nat; [|lia].
      eapply (NoDup_addr_lookup cells (S k) 0 c0 (header_cell (sl_header sl)));
        [apply (rep_nodup _ _ HRep)|exact Hk|reflexivity|exact Heq]. }
    rewrite bool_decide_eq_false_2 by done. simpl.
    unfold cellEq. by rewrite SFeqb_refl, String.eqb_refl.
  - (* not yet *)
    assert (Hcont : negb (bool_decide (c_addr c' = sl_header sl))
                    && cellEq (c_score c0) (c_ele c0) c' = false).
    { destruct P' as [|p'].
      - replace c' with (header_cell (sl_header sl)) by (simpl in HP'; congruence).
        simpl. by rewrite bool_decide_eq_true_2.
      - simpl in HP'.
        pose proof (sorted_lookup L p' k c' c0 Hs ltac:(lia) HP' Hk) as Hc.
        rewrite andb_false_iff. right. by apply key_lt_not_eq. }
    rewrite Hcont.
    destruct i as [|i].
    + (* level 0 cannot stop before the node *)
      exfalso.
      destruct (lookup_lt_is_Some_2 cells (S P')) as [cn Hcn].
      { apply lookup_lt_Some in Hk. simpl. lia. }
      assert (Hq : cellLessEq (c_score c0) (c_ele c0) cn = false).
      { apply (Hstop 1%nat). rewrite (drop_S _ _ _ Hcn). simpl.
        rewrite decide_True; [done|].
        pose proof (Rep_height_le sl L cn HRep) as Hcnh.
        simpl in Hcn. specialize (Hcnh ltac:(by eapply list_elem_of_lookup_2)). lia. }
      simpl in Hcn.
      rewrite (sorted_lessEq L k c0 P' cn Hs Hnan Hk Hcn) in Hq.
      apply bool_decide_eq_false in Hq. lia.
    + apply (IH P' c'); [lia|done|lia|lia].
Qed.

Lemma getRank_spec sl L k c0 :
  Rep sl L → StronglySorted cell_lt L → is_NaN (c_score c0) = false →
  L !! k = Some c0 →
  getRank sl (c_score c0) (c_ele c0) = Some (u64 (Z.of_nat (S k))).
Proof.
  intros HRep Hs Hnan Hk. unfold getRank.
  pose proof (Rep_level_bound _ _ HRep) as Hlv.
  apply (getRank_loop_spec sl L k c0 HRep Hs Hnan Hk (sl_level sl) 0%nat
           (header_cell (sl_header sl))); [lia|done|simpl; lia|lia].
Qed.

(** ** getElementByRank *)

Lemma advance_span_step fuel h i rank x t lv :
  getLevel h x i = Some lv →
  advance_span fuel h i rank x t =
    match forward lv with
    | None => Some (x, t)
    | Some y =>
        if decide (u64 (t + span lv) ≤ rank) then
          match fuel with
          | O => None
          | S f => advance_span f h i rank y (u64 (t + span lv))
          end
        else Some (x, t)
    end.
Proof. intros Hlv. destruct fuel; simpl; by rewrite Hlv. Qed.

Lemma advance_span_spec h i cells r :
  Forall (cell_ok h) cells →
  links_at h i cells →
  Z.of_nat (base.length cells) ≤ 2 ^ 64 →
  ∀ fuel P c,
    cells !! P = Some c → (i < c_height c)%nat →
    (base.length cells ≤ fuel + P + 1)%nat → (P ≤ r)%nat →
    ∃ P' c',
      advance_span fuel h i (Z.of_nat r) (c_addr c) (Z.of_nat P)
        = Some (c_addr c', Z.of_nat P') ∧
      cells !! P' = Some c' ∧ (P ≤ P' ≤ r)%nat ∧ (i < c_height c')%nat ∧
      (∀ d cn, nxt i (drop (S P') cells) = Some (d, cn) → (r < P' + d)%nat).
Proof.
  intros Hcells Hlinks Hsize fuel.
  induction fuel as [|fuel IH]; intros P c HP Hc Hfuel HPr.
  all: destruct (link_step _ _ _ _ _ Hcells Hlinks HP Hc) as (lv & Hlv & Hcase).
  all: rewrite (advance_span_step _ _ _ _ _ _ _ Hlv).
  all: destruct Hcase as [[Hn Hfw]|(d & cn & n & Hn & Hfw & Hsp & Hd & Hcn & Hhn & _)].
  all: rewrite Hfw.
  1,3: exists P, c.
  1,2: by (split_and!; [done|done|lia|lia|done|intros ??; rewrite Hn]).
  all: assert (HPd : (P + d < base.length cells)%nat) by (by apply lookup_lt_Some in Hcn).
  all: rewrite Hsp, u64_add_r, u64_small by lia.
  all: case_decide as Hdec.
  2,4: exists P, c.
  2,3: by (split_and!; [done|done|lia|lia|done|intros ??; rewrite Hn; intros [= <- <-]; lia]).
  - lia.
  - replace (Z.of_nat P + Z.of_nat d) with (Z.of_nat (P + d)) by lia.
    destruct (IH (P + d)%nat cn Hcn Hhn ltac:(lia) ltac:(lia))
      as (P' & c' & Hadv & HP' & Hle & Hc' & Hstop).
    exists P', c'. split_and!; [done|done|lia|lia|done|done].
Qed.

Lemma getElementByRank_loop_spec sl L r cr :
  Rep sl L → Z.of_nat (base.length L) < 2 ^ 64 →
  (header_cell (sl_header sl) :: L) !! r = Some cr →
  ∀ n P c,
    (1 ≤ n)%nat →
    (header_cell (sl_header sl) :: L) !! P = Some c → (n ≤ c_height c)%nat →
    (P < r)%nat →
    getElementByRank_loop sl (Z.of_nat r) n (c_addr c) (Z.of_nat P)
    = Some (Some (c_addr cr)).
Proof.
  intros HRep Hsize Hr.
  set (cells := header_cell (sl_header sl) :: L) in *.
  intros n. induction n as [|i IH]; intros P c Hn HP Hh HPr; [lia|].
  simpl.
  destruct (advance_span_spec _ i _ r (rep_cells _ _ HRep) (rep_links _ _ HRep i)
              ltac:(simpl; lia) (fuel_of (sl_nodes sl)) P c HP ltac:(lia))
    as (P' & c' & Hadv & HP' & Hle & Hc' & Hstop).
  { pose proof (Rep_fuel _ _ HRep). unfold fuel_of. lia. }
  { lia. }
  fold cells in HP', Hstop. rewrite Hadv. simpl.
  case_decide as Heq.
  - assert (P' = r) as -> by lia. do 3 f_equal. congruence.
  - destruct i as [|i].
    + exfalso.
      destruct (lookup_lt_is_Some_2 cells (S P')) as [cn Hcn].
      { apply lookup_lt_Some in Hr. lia. }
      assert (r < P' + 1)%nat; [|lia].
      apply (Hstop 1%nat cn). rewrite (drop_S _ _ _ Hcn). simpl.
      rewrite decide_True; [done|].
      pose proof (Rep_height_le sl L cn HRep) as Hcnh.
      simpl in Hcn. specialize (Hcnh ltac:(by eapply list_elem_of_lookup_2)). lia.
    + apply (IH P' c'); [lia|done|lia|lia].
Qed.

Lemma getElementByRank_spec sl L r c :
  Rep sl L → Z.of_nat (base.length L) < 2 ^ 64 →
  L !! r = Some c →
  getElementByRank sl (Z.of_nat (S r)) = Some (Some (c_addr c)).
Proof.
  intros HRep Hsize Hr. unfold getElementByRank.
  pose proof (Rep_level_bound _ _ HRep) as Hlv.
  assert (Hlt : (r < base.length L)%nat) by (by apply lookup_lt_Some in Hr).
  rewrite decide_False.
  2:{ rewrite (rep_length _ _ HRep), u64_small by lia. lia. }
  apply (getElementByRank_loop_spec sl L (S r) c HRep Hsize Hr (sl_level sl) 0%nat
           (header_cell (sl_header sl))); [lia|done|simpl; lia|lia].
Qed.

(** ** Rank and GetByRank in terms of the chain *)

Lemma Inv_dict_lookup z L k c :
  Inv z L → L !! k = Some c → dict z !! c_ele c = Some (c_score c).
Proof.
  intros HI Hk. apply (inv_dict _ _ HI). exists c.
  split_and!; [by eapply list_elem_of_lookup_2|done|done].
Qed.

Lemma Inv_nonan_lookup z L k c :
  Inv z L → L !! k = Some c → is_NaN (c_score c) = false.
Proof.
  intros HI Hk. pose proof (inv_nonan _ _ HI) as Hn. rewrite Forall_lookup in Hn.
  by apply (Hn k c).
Qed.

Lemma Rank_absent z e reverse : dict z !! e = None → Rank z e reverse = Some (-1).
Proof. intros Hd. unfold Rank. by rewrite Hd. Qed.

Lemma Rank_present z L k c (reverse : bool) :
  Inv z L → Z.of_nat (base.length L) < 2 ^ 63 → L !! k = Some c →
  Rank z (c_ele c) reverse
  = Some (if reverse then Z.of_nat (base.length L) - Z.of_nat k - 1 else Z.of_nat k).
Proof.
  intros HI Hsize Hk. unfold Rank.
  rewrite (Inv_dict_lookup z L k c HI Hk).
  rewrite (getRank_spec (zsl z) L k c (inv_rep _ _ HI) (inv_sorted _ _ HI)
             (Inv_nonan_lookup z L k c HI Hk) Hk).
  simpl.
  assert (Hlt : (k < base.length L)%nat) by (by apply lookup_lt_Some in Hk).
  rewrite (u64_small (Z.of_nat (S k))) by lia.
  rewrite decide_False by lia.
  replace (Z.of_nat (S k) - 1) with (Z.of_nat k) by lia.
  rewrite (u64_small (Z.of_nat k)) by lia.
  rewrite (rep_length _ _ (inv_rep _ _ HI)).
  destruct reverse.
  - rewrite (u64_small (Z.of_nat (base.length L))) by lia.
    rewrite (u64_small (_ - Z.of_nat k)) by lia.
    rewrite u64_small by lia. rewrite i64_small by lia. done.
  - by rewrite i64_small by lia.
Qed.

Lemma GetByRank_out z L rank reverse :
  Inv z L → Z.of_nat (base.length L) < 2 ^ 63 →
  rank < 0 ∨ Z.of_nat (base.length L) ≤ rank →
  GetByRank z rank reverse = Some (EmptyString, S754_zero false, false).
Proof.
  intros HI Hsize Hout. unfold GetByRank.
  rewrite (rep_length _ _ (inv_rep _ _ HI)), u64_small, i64_small by lia.
  by rewrite decide_True.
Qed.

Lemma GetByRank_in z L rank (reverse : bool) r c :
  Inv z L → Z.of_nat (base.length L) < 2 ^ 63 →
  0 ≤ rank < Z.of_nat (base.length L) →
  r = Z.to_nat (if reverse then Z.of_nat (base.length L) - 1 - rank else rank) →
  L !! r = Some c →
  GetByRank z rank reverse = Some (c_ele c, c_score c, true).
Proof.
  intros HI Hsize Hin Hreq Hr. unfold GetByRank.
  rewrite (rep_length _ _ (inv_rep _ _ HI)), u64_small, i64_small by lia.
  rewrite decide_False by lia.
  assert (Hrank : u64 ((if reverse then i64 (Z.of_nat (base.length L) - 1 - rank)
                        else rank) + 1) = Z.of_nat (S r)).
  { rewrite Hreq. destruct reverse.
    - rewrite i64_small by lia. rewrite u64_small by lia. lia.
    - rewrite u64_small by lia. lia. }
  rewrite Hrank.
  rewrite (getElementByRank_spec (zsl z) L r c (inv_rep _ _ HI) ltac:(lia) Hr).
  simpl.
  pose proof (rep_cells _ _ (inv_rep _ _ HI)) as Hall. rewrite Forall_forall in Hall.
  destruct (cell_ok_lookup (sl_nodes (zsl z)) c) as (n & -> & He & Hs & _).
  { apply Hall. apply elem_of_cons. right. by eapply list_elem_of_lookup_2. }
  simpl. by rewrite He, Hs.
Qed.

(** ** RangeByScore *)

Lemma range_search_spec sl L min :
  Rep sl L →
  ∀ n P c,
    (header_cell (sl_header sl) :: L) !! P = Some c → (n ≤ c_height c)%nat →
    (P = 0%nat ∨ SFltb (c_score c) min = true) →
    ∃ P' c',
      range_search sl min n (c_addr c) = Some (c_addr c') ∧
      (header_cell (sl_header sl) :: L) !! P' = Some c' ∧
      (P' = 0%nat ∨ SFltb (c_score c') min = true) ∧
      ((1 ≤ n)%nat → ∀ cn, L !! P' = Some cn → SFltb (c_score cn) min = false).
Proof.
  intros HRep.
  set (cells := header_cell (sl_header sl) :: L) in *.
  intros n. induction n as [|i IH]; intros P c HP Hh Hq.
  { exists P, c. split_and!; [done|done|done|lia]. }
  simpl. rewrite (advance_fst _ _ _ _ _ (u64 (Z.of_nat P))).
  destruct (advance_rank_spec _ _ _ i _ (key_test_score min)
              (rep_cells _ _ HRep) (rep_links _ _ HRep i)
              (fuel_of (sl_nodes sl)) P c (Z.of_nat P) HP ltac:(lia))
    as (P1 & c1 & Hadv & HP1 & Hle & Hc1 & Htrue & Hstop).
  { pose proof (Rep_fuel _ _ HRep). unfold fuel_of. lia. }
  fold cells in HP1, Htrue, Hstop. rewrite Hadv. simpl.
  assert (Hq1 : P1 = 0%nat ∨ SFltb (c_score c1) min = true).
  { destruct (decide (P1 = P)) as [->|Hne].
    - replace c1 with c by congruence. done.
    - right. apply (Htrue P1 c1); [lia|done|done]. }
  destruct (IH P1 c1 HP1 ltac:(lia) Hq1) as (P' & c' & Hs & HP' & Hq' & Hstop').
  exists P', c'. split_and!; [done|done|done|].
  intros _ cn Hcn. destruct i as [|i]; [|apply Hstop'; [lia|done]].
  simpl in Hs. injection Hs as Hs.
  assert (P' = P1) as ->.
  { eapply (NoDup_addr_lookup cells); [apply (rep_nodup _ _ HRep)|done|done|done]. }
  apply (Hstop 1%nat). change (drop (S P1) cells) with (drop P1 L).
  assert (Hd : drop P1 L = cn :: drop (S P1) L) by (by apply drop_S).
  rewrite Hd. simpl. rewrite decide_True; [done|].
  pose proof (Rep_height_le sl L cn HRep) as Hcnh.
  specialize (Hcnh ltac:(by eapply list_elem_of_lookup_2)). lia.
Qed.

Lemma chain_node sl L k c :
  Rep sl L → L !! k = Some c →
  ∃ n lv, sl_nodes sl !! c_addr c = Some n ∧ ele n = c_ele c ∧ score n = c_score c ∧
          level n !! 0%nat = Some lv ∧ forward lv = c_addr <$> L !! S k.
Proof.
  intros HRep Hk.
  pose proof (rep_cells _ _ HRep) as Hall. rewrite Forall_forall in Hall.
  destruct (cell_ok_lookup (sl_nodes sl) c) as (n & Hn & He & Hs & _).
  { apply Hall. apply elem_of_cons. right. by eapply list_elem_of_lookup_2. }
  destruct (rep_links _ _ HRep 0%nat (S k) c Hk) as (lv & Hlv & Hok).
  { pose proof (Rep_height_le sl L c HRep ltac:(by eapply list_elem_of_lookup_2)). lia. }
  change (drop (S (S k)) (header_cell (sl_header sl) :: L)) with (drop (S k) L) in Hok.
  rewrite (nxt_0 (drop (S k) L)) in Hok
    by (eapply Rep_heights_ge; [done|apply sublist_drop]).
  rewrite head_lookup, lookup_drop, Nat.add_0_r in Hok.
  exists n, lv. unfold getLevel in Hlv. rewrite Hn in Hlv. simpl in Hlv.
  split_and!; [done|done|done|done|].
  destruct (L !! S k) as [cn|]; simpl in *; [by destruct Hok|done].
Qed.

Lemma range_skip_spec sl L max offset :
  Rep sl L → Z.of_nat (base.length L) < 2 ^ 63 →
  ∀ fuel k s,
    (base.length L ≤ fuel + k)%nat → 0 ≤ s → s ≤ Z.of_nat k →
    ∃ k', skip_res max (cell_pair <$> drop k L) (offset - s) = cell_pair <$> drop k' L ∧
          range_skip fuel (sl_nodes sl) max offset (c_addr <$> L !! k) s
          = Some (c_addr <$> L !! k').
Proof.
  intros HRep Hsize fuel.
  induction fuel as [|fuel IH]; intros k s Hfuel Hs0 Hsk.
  all: destruct (L !! k) as [c|] eqn:Hk.
  all: try (exists k; rewrite (drop_ge L k) by (by apply lookup_ge_None);
            by rewrite Hk).
  { apply lookup_lt_Some in Hk. lia. }
  rewrite (drop_S _ _ _ Hk). simpl.
  destruct (chain_node sl L k c HRep Hk) as (n & lv & Hn & He & Hsc & Hlv & Hfw).
  destruct (decide (s < offset)) as [Hlt|Hge].
  2:{ exists k. rewrite decide_False by lia. by rewrite (drop_S _ _ _ Hk), Hk. }
  rewrite decide_True by lia. rewrite Hn. simpl. rewrite Hsc.
  destruct (SFltb max (c_score c)) eqn:Hmax.
  { exists k. by rewrite (drop_S _ _ _ Hk), Hk. }
  rewrite Hlv. simpl. rewrite Hfw.
  assert (k < base.length L)%nat by (by apply lookup_lt_Some in Hk).
  rewrite i64_small by lia.
  destruct (IH (S k) (s + 1) ltac:(lia) ltac:(lia) ltac:(lia)) as (k' & Hres & Hskip).
  exists k'. split; [|done].
  by replace (offset - s - 1) with (offset - (s + 1)) by lia.
Qed.

Lemma range_collect_spec sl L max count :
  Rep sl L → Z.of_nat (base.length L) < 2 ^ 63 →
  ∀ fuel k n result,
    (base.length L ≤ fuel + k)%nat → 0 ≤ n → n ≤ Z.of_nat k →
    range_collect fuel (sl_nodes sl) max count (c_addr <$> L !! k) n result
    = Some (result ++ collect_res max (cell_pair <$> drop k L) count n).
Proof.
  intros HRep Hsize fuel.
  induction fuel as [|fuel IH]; intros k n result Hfuel Hn0 Hnk.
  all: destruct (L !! k) as [c|] eqn:Hk.
  all: try (rewrite (drop_ge L k) by (by apply lookup_ge_None);
            simpl; by rewrite app_nil_r).
  { apply lookup_lt_Some in Hk. lia. }
  rewrite (drop_S _ _ _ Hk). simpl.
  destruct (chain_node sl L k c HRep Hk) as (nd & lv & Hnd & He & Hsc & Hlv & Hfw).
  case_decide as Hcnt; [|by rewrite app_nil_r].
  rewrite Hnd. simpl. rewrite Hsc.
  destruct (SFltb max (c_score c)) eqn:Hmax; [by rewrite app_nil_r|].
  rewrite Hlv. simpl. rewrite Hfw.
  assert (k < base.length L)%nat by (by apply lookup_lt_Some in Hk).
  rewrite i64_small by lia.
  rewrite (IH (S k) (n + 1)) by lia.
  rewrite He. by rewrite <- app_assoc.
Qed.

(** *** From the loops to the wording of the specification *)

Lemma SFleb_negb_ltb a b :
  is_NaN a = false → is_NaN b = false → SFleb a b = negb (SFltb b a).
Proof.
  intros Ha Hb. unfold SFleb, SFltb.
  destruct (SFcompare_total a b Ha Hb) as [r Hr].
  rewrite (SFcompare_antisym a b), Hr. by destruct r.
Qed.

Lemma drop_while_drop {A} (p : A → bool) (l : list A) P :
  (∀ i a, (i < P)%nat → l !! i = Some a → p a = true) →
  (∀ a, l !! P = Some a → p a = false) →
  drop_while p l = drop P l.
Proof.
  revert P. induction l as [|a l IH]; intros P Hbefore Hat; simpl.
  { by rewrite drop_nil. }
  destruct P as [|P].
  - by rewrite (Hat a eq_refl).
  - rewrite (Hbefore 0%nat a ltac:(lia) eq_refl). simpl. apply IH.
    + intros i b Hi Hb. apply (Hbefore (S i) b); [lia|done].
    + intros b Hb. by apply Hat.
Qed.

Lemma drop_while_ext {A} (p q : A → bool) (l : list A) :
  Forall (λ a, p a = q a) l → drop_while p l = drop_while q l.
Proof.
  induction 1 as [|a l Ha Hl IH]; simpl; [done|]. rewrite Ha, IH. done.
Qed.

Lemma drop_while_sublist {A} (p : A → bool) (l : list A) :
  drop_while p l `sublist_of` l.
Proof.
  induction l as [|a l IH]; simpl; [done|]. destruct (p a); [by apply sublist_cons|done].
Qed.

Lemma collect_res_take_while max l count n :
  Forall (λ p, is_NaN p.2 = false) l → is_NaN max = false → 0 ≤ n →
  collect_res max l count n
  = let inrange := take_while (λ p, SFleb p.2 max) l in
    if decide (count < 0) then inrange else take (Z.to_nat (count - n)) inrange.
Proof.
  intros Hnan Hmax. revert n. induction Hnan as [|c l Hc Hl IH]; intros n Hn; simpl.
  { case_decide; [done|]. by rewrite take_nil. }
  rewrite (SFleb_negb_ltb _ _ Hc Hmax).
  destruct (decide (count < 0 ∨ n < count)) as [Hcnt|Hcnt].
  - destruct (SFltb max c.2); simpl.
    + case_decide; [done|]. by rewrite take_nil.
    + rewrite (IH (n + 1)) by lia. simpl.
      case_decide; [done|].
      replace (Z.to_nat (count - n)) with (S (Z.to_nat (count - (n + 1)))) by lia.
      done.
  - rewrite decide_False by lia.
    replace (Z.to_nat (count - n)) with 0%nat by lia.
    by rewrite take_0.
Qed.

Lemma collect_skip_spec max l m count :
  Forall (λ p, is_NaN p.2 = false) l → is_NaN max = false → 0 ≤ m →
  collect_res max (skip_res max l m) count 0
  = if existsb (λ p, SFltb max p.2) (take (Z.to_nat m) l) then []
    else
      let inrange := take_while (λ p, SFleb p.2 max) (drop (Z.to_nat m) l) in
      if decide (count < 0) then inrange else take (Z.to_nat count) inrange.
Proof.
  intros Hnan Hmax. revert m. induction Hnan as [|c l Hc Hl IH]; intros m Hm.
  { simpl. rewrite take_nil, drop_nil. simpl. case_decide; [done|]. by rewrite take_nil. }
  simpl skip_res. destruct (decide (0 < m)) as [Hpos|Hpos].
  - replace (Z.to_nat m) with (S (Z.to_nat (m - 1))) by lia. simpl.
    destruct (SFltb max c.2) eqn:Hgt; simpl.
    + destruct (decide (count < 0 ∨ 0 < count)); [by rewrite Hgt|done].
    + by rewrite IH by lia.
  - replace (Z.to_nat m) with 0%nat by lia.
    rewrite take_0, drop_0. cbn [existsb].
    rewrite (collect_res_take_while max (c :: l) count 0) by (done || by constructor).
    simpl. by rewrite Z.sub_0_r.
Qed.

Lemma key_lt_score_lt s1 e1 s2 e2 m :
  key_lt s1 e1 s2 e2 = true → SFltb s2 m = true → SFltb s1 m = true.
Proof.
  unfold key_lt, SFltb, SFeqb.
  destruct (SFcompare s1 s2) as [[]|] eqn:H12; simpl; try done.
  - by rewrite (SFcompare_eq_l _ _ m H12).
  - destruct (SFcompare s2 m) as [[]|] eqn:H2m; try done.
    by rewrite (SFcompare_trans _ _ _ _ H12 H2m).
Qed.

Lemma RangeByScore_chain z L min max offset count :
  Inv z L → Z.of_nat (base.length L) < 2 ^ 63 →
  RangeByScore z min max offset count
  = Some (range_chain (cell_pair <$> L) min max offset count).
Proof.
  intros HI Hsize.
  pose proof (inv_rep _ _ HI) as HRep.
  pose proof (Rep_level_bound _ _ HRep) as Hlv.
  pose proof (Rep_fuel _ _ HRep) as Hfuel. simpl in Hfuel.
  unfold RangeByScore, range_chain.
  set (off := if decide (offset < 0) then 0 else offset).
  destruct (range_search_spec (zsl z) L min HRep (sl_level (zsl z)) 0%nat
              (header_cell (sl_header (zsl z))) eq_refl ltac:(simpl; lia) ltac:(by left))
    as (P & c & Hs & HP & Hq & Hstop).
  change (c_addr (header_cell (sl_header (zsl z)))) with (sl_header (zsl z)) in Hs.
  rewrite Hs. simpl.
  destruct (cells_level0 _ _ _ _ HRep HP) as (lv & Hlv0 & Hfw).
  rewrite Hlv0. simpl. rewrite Hfw.
  destruct (range_skip_spec (zsl z) L max off HRep Hsize
              (fuel_of (sl_nodes (zsl z))) P 0 ltac:(unfold fuel_of; lia) ltac:(lia) ltac:(lia))
    as (k' & Hres & Hskip).
  rewrite Hskip. simpl.
  rewrite (range_collect_spec (zsl z) L max count HRep Hsize
             (fuel_of (sl_nodes (zsl z))) k' 0 []) by (unfold fuel_of; lia).
  simpl. f_equal.
  rewrite <- Hres, Z.sub_0_r.
  assert (Hfrom : drop_while (λ p, SFltb p.2 min) (cell_pair <$> L)
                  = cell_pair <$> drop P L).
  { rewrite fmap_drop. apply drop_while_drop.
    - intros i a Hi Ha. rewrite list_lookup_fmap in Ha.
      destruct (L !! i) as [ci|] eqn:Hci; [|done]. injection Ha as <-. simpl.
      destruct Hq as [->|Hq]; [lia|].
      destruct P as [|P']; [lia|]. simpl in HP.
      destruct (decide (i = P')) as [->|Hne]; [congruence|].
      eapply key_lt_score_lt; [|exact Hq].
      apply (sorted_lookup L i P' ci c (inv_sorted _ _ HI)); [lia|done|done].
    - intros a Ha. rewrite list_lookup_fmap in Ha.
      destruct (L !! P) as [cn|] eqn:Hcn; [|done]. injection Ha as <-. simpl.
      apply Hstop; [lia|done]. }
  by rewrite Hfrom.
Qed.

Lemma range_chain_spec K min max offset count :
  Forall (λ p, is_NaN p.2 = false) K → is_NaN min = false → is_NaN max = false →
  range_chain K min max offset count = range_by_score_spec K min max offset count.
Proof.
  intros Hnan Hmin Hmax. unfold range_chain, range_by_score_spec.
  set (off := if decide (offset < 0) then 0 else offset).
  assert (Hoff : 0 ≤ off) by (unfold off; case_decide; lia).
  assert (Hfrom : drop_while (λ p, SFltb p.2 min) K
                  = drop_while (λ p, negb (SFleb min p.2)) K).
  { apply drop_while_ext. eapply Forall_impl; [exact Hnan|].
    intros p Hp. simpl. by rewrite (SFleb_negb_ltb min p.2 Hmin Hp), negb_involutive. }
  rewrite <- Hfrom.
  apply collect_skip_spec; [|done|done].
  apply Forall_forall. intros p Hp. rewrite Forall_forall in Hnan.
  apply Hnan. eapply elem_of_sublist; [exact Hp|apply drop_while_sublist].
Qed.

Lemma RangeByScore_spec z L min max offset count :
  Inv z L → Z.of_nat (base.length L) < 2 ^ 63 →
  is_NaN min = false → is_NaN max = false →
  RangeByScore z min max offset count
  = Some (range_by_score_spec (cell_pair <$> L) min max offset count).
Proof.
  intros HI Hsize Hmin Hmax.
  rewrite (RangeByScore_chain z L min max offset count HI Hsize). f_equal.
  apply range_chain_spec; [|done|done].
  apply Forall_fmap. eapply Forall_impl; [apply (inv_nonan _ _ HI)|]. done.
Qed.

(** ** The dictionary and the chain *)

Lemma Inv_dict_pairs z L m s :
  Inv z L → dict z !! m = Some s ↔ (m, s) ∈ cell_pair <$> L.
Proof.
  intros HI. rewrite (inv_dict _ _ HI), list_elem_of_fmap. unfold cell_pair. split.
  - intros (c & Hc & <- & <-). by exists c.
  - intros (c & [= -> ->] & Hc). by exists c.
Qed.

Lemma Inv_members z L : Inv z L → (cell_pair <$> L).*1 = c_ele <$> L.
Proof. intros _. rewrite <- list_fmap_compose. done. Qed.

Lemma Inv_dict_eq z L : Inv z L → dict z = list_to_map (cell_pair <$> L).
Proof.
  intros HI. apply map_eq. intros m. apply option_eq. intros s.
  rewrite (Inv_dict_pairs z L m s HI).
  apply elem_of_list_to_map. rewrite (Inv_members z L HI). apply (inv_uniq _ _ HI).
Qed.

Lemma Inv_card z L : Inv z L → card z = Z.of_nat (base.length L).
Proof.
  intros HI. unfold card. rewrite (Inv_dict_eq z L HI).
  rewrite map_size_list_to_map by (rewrite (Inv_members z L HI); apply (inv_uniq _ _ HI)).
  by rewrite length_fmap.
Qed.

Lemma Inv_chain z L : Inv z L → chain (zsl z) = cell_pair <$> L.
Proof. intros HI. apply Rep_chain, (inv_rep _ _ HI). Qed.

Lemma Inv_pairs_sorted z L : Inv z L → StronglySorted pair_lt (cell_pair <$> L).
Proof.
  intros HI. eapply StronglySorted_fmap; [|apply (inv_sorted _ _ HI)]. done.
Qed.

Lemma pair_lt_irrefl p : ¬ pair_lt p p.
Proof. unfold pair_lt. by rewrite key_lt_irrefl. Qed.

Lemma sorted_pairs_NoDup K : StronglySorted pair_lt K → NoDup K.
Proof.
  induction 1 as [|p K HK IH Hall]; constructor; [|done].
  intros Hin. rewrite Forall_forall in Hall. by apply (pair_lt_irrefl p), Hall.
Qed.

(** ** Runs *)

Lemma step_reachable z draws o z' r :
  reachable z → op_ok o → step z draws o = Some (z', r) → reachable z'.
Proof.
  intros Hz Hok Hstep.
  destruct o as [e sc|e|e|e rev|rank rev|min max offset count|]; simpl in *.
  - destruct (Add z draws e sc) as [[z1 b]|] eqn:HAdd; simplify_eq/=.
    by eapply reach_add.
  - destruct (Remove z e) as [[z1 b]|] eqn:HRem; simplify_eq/=.
    by eapply reach_remove.
  - destruct (Score z e). by simplify_eq.
  - destruct (Rank z e rev); by simplify_eq/=.
  - destruct (GetByRank z rank rev) as [[[??]?]|]; by simplify_eq/=.
  - destruct (RangeByScore z min max offset count); by simplify_eq/=.
  - by simplify_eq.
Qed.

Lemma run_from_reachable ops rnd : ∀ z k z' rs,
  reachable z → Forall op_ok ops → run_from z ops rnd k = Some (z', rs) → reachable z'.
Proof.
  induction ops as [|o ops IH]; intros z k z' rs Hz Hok Hrun; simpl in Hrun.
  { by simplify_eq. }
  apply Forall_cons in Hok as [Ho Hok].
  destruct (step z (rnd k) o) as [[z1 r]|] eqn:Hstep; simplify_eq/=.
  destruct (run_from z1 ops rnd (S k)) as [[z2 rs']|] eqn:Hrest; simplify_eq/=.
  eapply IH; [|done|done]. by eapply step_reachable.
Qed.

Lemma zset_empty_new : NewZSet = Some zset_empty.
Proof. vm_compute. reflexivity. Qed.

Lemma zset_empty_reachable : reachable zset_empty.
Proof. apply reach_new, zset_empty_new. Qed.

Lemma run_unfold ops rnd : run ops rnd = run_from zset_empty ops rnd 0.
Proof. unfold run. by rewrite zset_empty_new. Qed.

Lemma run_reachable ops rnd z :
  Forall op_ok ops → fst <$> run ops rnd = Some z → reachable z.
Proof.
  intros Hok Hrun. rewrite run_unfold in Hrun.
  destruct (run_from zset_empty ops rnd 0) as [[z' rs]|] eqn:Hr; [|done].
  injection Hrun as <-.
  eapply run_from_reachable; [|done|done]. apply zset_empty_reachable.
Qed.

Lemma zset_sample_reachable : reachable zset_sample.
Proof.
  apply (run_reachable sample_ops sample_rnd).
  - repeat constructor.
  - vm_compute. reflexivity.
Qed.

Lemma zset_one_reachable : reachable zset_one.
Proof.
  apply (run_reachable [OpAdd "a" (float64_of_Z 1)] sample_rnd).
  - repeat constructor.
  - vm_compute. reflexivity.
Qed.

(** * The claims *)

(** C2 (uniqueness and agreement).  In every state reachable from the empty
    set by completed [Add] and [Remove] calls with scores that are not NaN,
    no member occurs twice in the level-0 chain of the skiplist, and the
    dictionary holds exactly the (member, score) pairs of that chain. *)
Theorem C2_dict_chain_agree z :
  reachable z →
  NoDup (chain (zsl z)).*1 ∧
  ∀ m s, dict z !! m = Some s ↔ (m, s) ∈ chain (zsl z).
Proof.
  intros Hz. destruct (reachable_Inv z Hz) as [L HI].
  rewrite (Inv_chain z L HI). split.
  - rewrite (Inv_members z L HI). apply (inv_uniq _ _ HI).
  - intros m s. apply (Inv_dict_pairs z L m s HI).
Qed.

Lemma C2_dict_chain_agree_witness :
  reachable zset_sample ∧
  (NoDup (chain (zsl zset_sample)).*1 ∧
   ∀ m s, dict zset_sample !! m = Some s ↔ (m, s) ∈ chain (zsl zset_sample)).
Proof.
  split; [exact zset_sample_reachable|].
  exact (C2_dict_chain_agree zset_sample zset_sample_reachable).
Defined.

(** C5 (ordering).  In every reachable state the level-0 chain is strictly
    increasing for the composite key: by score, members breaking the ties of
    equal scores in lexicographic order; hence no (score, member) pair occurs
    twice. *)
Theorem C5_chain_strictly_increasing z :
  reachable z →
  StronglySorted pair_lt (chain (zsl z)) ∧ NoDup (chain (zsl z)).
Proof.
  intros Hz. destruct (reachable_Inv z Hz) as [L HI].
  rewrite (Inv_chain z L HI).
  pose proof (Inv_pairs_sorted z L HI) as Hs.
  split; [done|by apply sorted_pairs_NoDup].
Qed.

Lemma C5_chain_strictly_increasing_witness :
  reachable zset_sample ∧
  (StronglySorted pair_lt (chain (zsl zset_sample)) ∧ NoDup (chain (zsl zset_sample))).
Proof.
  split; [exact zset_sample_reachable|].
  exact (C5_chain_strictly_increasing zset_sample zset_sample_reachable).
Defined.



Lemma Inv_Len z L :
  Inv z L → Z.of_nat (base.length L) < 2 ^ 64 → Len z = Z.of_nat (base.length L).
Proof.
  intros HI Hsize. unfold Len. rewrite (rep_length _ _ (inv_rep _ _ HI)).
  apply u64_small. lia.
Qed.








Lemma over_level_complete i pos l k c :
  l !! k = Some c → (i < c_height c)%nat →
  (c_addr c, pos + Z.of_nat k + 1) ∈ over_level i pos l.
Proof.
  revert pos k. induction l as [|c0 l IH]; intros pos k Hk Hh; [done|].
  destruct k as [|k]; simpl in *.
  - injection Hk as ->. rewrite decide_True by done.
    replace (pos + Z.of_nat 0 + 1) with (pos + 1) by lia. apply elem_of_cons; by left.
  - specialize (IH (pos + 1) k Hk Hh).
    replace (pos + Z.of_nat (S k) + 1) with (pos + 1 + Z.of_nat k + 1) by lia.
    case_decide; [apply elem_of_cons; by right|done].
Qed.

(** C6 (span consistency).  In every reachable state (fewer than 2^64
    members, the range of a span), at every level [i]: each node met along
    the level-[i] forward links from the header carries, as the sum of the
    spans crossed so far, its 1-based rank in the level-0 order; and every
    node of the level-0 order that has a level [i] is met that way. *)
Theorem C6_span_sums_are_ranks z i :
  reachable z → card z < 2 ^ 64 →
  (∀ y s, (y, s) ∈ level_chain (zsl z) i →
     1 ≤ s ∧ chain_addrs (zsl z) !! Z.to_nat (s - 1) = Some y) ∧
  (∀ k y n, chain_addrs (zsl z) !! k = Some y → sl_nodes (zsl z) !! y = Some n →
     (i < base.length (level n))%nat → (y, Z.of_nat k + 1) ∈ level_chain (zsl z) i).
Proof.
  intros Hz Hsize. destruct (reachable_Inv z Hz) as [L HI].
  rewrite (Inv_card z L HI) in Hsize. pose proof (inv_rep _ _ HI) as HRep.
  rewrite (Rep_level_chain _ L i HRep Hsize), (Rep_chain_addrs _ L HRep). split.
  - intros y s Hin.
    destruct (over_level_elem _ _ _ _ _ Hin) as (k & c & Hk & -> & -> & _).
    split; [lia|]. replace (Z.to_nat (0 + Z.of_nat k + 1 - 1)) with k by lia.
    by rewrite list_lookup_fmap, Hk.
  - intros k y n Hk Hn Hi. rewrite list_lookup_fmap in Hk.
    destruct (L !! k) as [c|] eqn:Hc; [|done]. injection Hk as <-.
    pose proof (rep_cells _ _ HRep) as Hall. apply Forall_cons in Hall as [_ Hall].
    pose proof (proj1 (Forall_lookup _ _) Hall k c Hc) as Hok.
    unfold cell_ok, nodeKey in Hok. rewrite Hn in Hok. simpl in Hok.
    injection Hok as _ _ Hh. rewrite Hh in Hi.
    apply (over_level_complete i 0 L k c Hc Hi).
Qed.

Lemma C6_span_sums_are_ranks_witness :
  reachable zset_sample ∧ card zset_sample < 2 ^ 64 ∧
  (∀ y s, (y, s) ∈ level_chain (zsl zset_sample) 1 →
     1 ≤ s ∧ chain_addrs (zsl zset_sample) !! Z.to_nat (s - 1) = Some y) ∧
  (∀ k y n, chain_addrs (zsl zset_sample) !! k = Some y →
     sl_nodes (zsl zset_sample) !! y = Some n →
     (1 < base.length (level n))%nat →
     (y, Z.of_nat k + 1) ∈ level_chain (zsl zset_sample) 1).
Proof.
  split; [exact zset_sample_reachable|]. split; [by vm_compute|].
  apply (C6_span_sums_are_ranks zset_sample 1 zset_sample_reachable). by vm_compute.
Defined.

Lemma insert_mid_lookup {A} (L : list A) P x :
  (P ≤ base.length L)%nat → (take P L ++ x :: drop P L) !! P = Some x.
Proof.
  intros HP. rewrite lookup_app_r by (rewrite length_take; lia).
  rewrite length_take. by replace (P - P `min` base.length L)%nat with 0%nat by lia.
Qed.

Lemma delete_insert_mid {A} (L : list A) P x :
  (P ≤ base.length L)%nat →
  take P (take P L ++ x :: drop P L) ++ drop (S P) (take P L ++ x :: drop P L) = L.
Proof.
  intros HP.
  assert (Hlen : base.length (take P L) = P) by (rewrite length_take; lia).
  rewrite take_app_length' by done.
  rewrite drop_app_ge by lia. rewrite Hlen.
  replace (S P - P)%nat with 1%nat by lia. simpl. rewrite drop_0.
  apply take_drop.
Qed.

(** C9, as claimed, fails when the member is already present: on the set
    {a:1}, [Add "a" 2] updates the score and [Remove "a"] then removes the
    member, so the length is 0 instead of 1 and "a" is gone. *)
Lemma C9_present_member_counterexample :
  reachable zset_one ∧
  Len zset_one = 1 ∧ dict zset_one !! "a"%string = Some (float64_of_Z 1) ∧
  ∃ z1 z2,
    Add zset_one [] "a" (float64_of_Z 2) = Some (z1, false) ∧
    Remove z1 "a" = Some (z2, true) ∧
    Len z2 = 0 ∧ dict z2 !! "a"%string = None.
Proof.
  split; [exact zset_one_reachable|].
  split; [vm_compute; reflexivity|]. split; [vm_compute; reflexivity|].
  eexists. eexists.
  split; [vm_compute; reflexivity|]. split; [vm_compute; reflexivity|].
  split; vm_compute; reflexivity.
Qed.

(** C9 (round trip), amended.  In every reachable state, for every member
    [m] that is absent and every score [s] that is not NaN, whatever the
    random draws: [Add m s] returns true, the following [Remove m] returns
    true, and afterwards [Len], the dictionary and the chain of (member,
    score) pairs are what they were before the [Add]. *)
Theorem C9_Add_Remove_round_trip z draws m s :
  reachable z → dict z !! m = None → is_NaN s = false →
  ∃ z1 z2,
    Add z draws m s = Some (z1, true) ∧ Remove z1 m = Some (z2, true) ∧
    Len z2 = Len z ∧ dict z2 = dict z ∧ chain (zsl z2) = chain (zsl z).
Proof.
  intros Hz Hd Hs. destruct (reachable_Inv z Hz) as [L HI].
  destruct (Add_absent z L draws m s HI Hs Hd) as (z1 & P & HAdd & HP & Hd1 & HI1).
  set (cx := mkCell (base.length (sl_nodes (zsl z))) m s (randomLevel draws)) in *.
  assert (Hd1m : dict z1 !! m = Some s) by (rewrite Hd1; apply lookup_insert_eq).
  destruct (Remove_present z1 _ m s HI1 Hd1m)
    as (z2 & k & c0 & Hk & He & _ & HRem & Hd2 & HI2).
  assert (k = P) as ->.
  { pose proof (inv_uniq _ _ HI1) as Hnd.
    apply (NoDup_lookup _ k P m Hnd).
    - by rewrite list_lookup_fmap, Hk; simpl; rewrite He.
    - by rewrite list_lookup_fmap, (insert_mid_lookup L P cx HP). }
  rewrite (delete_insert_mid L P cx HP) in HI2.
  exists z1, z2. split_and!; [done|done| | |].
  - unfold Len. by rewrite (rep_length _ _ (inv_rep _ _ HI2)),
      (rep_length _ _ (inv_rep _ _ HI)).
  - rewrite Hd2, Hd1. by apply delete_insert_id.
  - by rewrite (Inv_chain z2 L HI2), (Inv_chain z L HI).
Qed.

Lemma C9_Add_Remove_round_trip_witness :
  reachable zset_sample ∧ dict zset_sample !! "b"%string = None ∧
  is_NaN (float64_of_Z 4) = false ∧
  ∃ z1 z2,
    Add zset_sample [true] "b" (float64_of_Z 4) = Some (z1, true) ∧
    Remove z1 "b" = Some (z2, true) ∧
    Len z2 = Len zset_sample ∧ dict z2 = dict zset_sample ∧
    chain (zsl z2) = chain (zsl zset_sample).
Proof.
  split; [exact zset_sample_reachable|].
  split; [vm_compute; reflexivity|]. split; [vm_compute; reflexivity|].
  apply (C9_Add_Remove_round_trip zset_sample [true] "b" (float64_of_Z 4)
           zset_sample_reachable); vm_compute; reflexivity.
Defined.

Lemma top_link_spec lv H :
  (∀ j l, lv !! j = Some l → is_Some (forward l) ↔ (j < H)%nat) →
  (H ≤ base.length lv)%nat → top_link lv = H.
Proof.
  revert H. induction lv as [|l rest IH]; intros H Hfw Hlen; simpl in *; [lia|].
  rewrite (IH (H - 1)%nat).
  - destruct (H - 1)%nat as [|t] eqn:HH; [|lia].
    pose proof (Hfw 0%nat l eq_refl) as H0.
    destruct (forward l) as [y|].
    + assert (0 < H)%nat by (apply H0; by eexists). lia.
    + destruct (decide (0 < H)%nat) as [Hpos|]; [|lia].
      apply H0 in Hpos. by destruct Hpos.
  - intros j l' Hl'. rewrite (Hfw (S j) l' Hl'). lia.
  - lia.
Qed.

Lemma nxt_is_Some_max_height i L :
  Forall (λ c, 1 ≤ c_height c)%nat L → L ≠ [] →
  is_Some (nxt i L) ↔ (i < max_height L)%nat.
Proof.
  intros Hh Hne.
  assert (Hnone : nxt i L = None ↔ (max_height L ≤ i)%nat).
  { rewrite nxt_None. destruct (decide (1 ≤ i)%nat) as [Hi|Hi].
    - by apply max_height_bound.
    - pose proof (max_height_ge L). split; [|lia].
      intros Hall. destruct L as [|c L]; [done|].
      apply Forall_cons in Hall as [Hc _]. apply Forall_cons in Hh as [Hc' _]. lia. }
  destruct (nxt i L) as [r|].
  - split; [intros _|by eexists].
    destruct (decide (i < max_height L)%nat) as [|Hge]; [done|].
    assert (Hle : (max_height L ≤ i)%nat) by lia. by apply Hnone in Hle.
  - split; [by intros [? ?]|]. intros Hlt.
    assert (max_height L ≤ i)%nat by by apply Hnone. lia.
Qed.

Lemma Rep_header_top sl L :
  Rep sl L →
  header_top sl = match L with [] => 0%nat | _ :: _ => max_height L end.
Proof.
  intros HRep. pose proof (rep_cells _ _ HRep) as Hall.
  apply Forall_cons in Hall as [Hhd _].
  destruct (cell_ok_lookup _ _ Hhd) as (n & Hn & _ & _ & Hlen). simpl in Hn, Hlen.
  unfold header_top. rewrite Hn. apply top_link_spec.
  - intros j l Hl.
    assert (Hj : (j < SKIPLIST_MAXLEVEL)%nat).
    { apply lookup_lt_Some in Hl. lia. }
    destruct (rep_links _ _ HRep j 0%nat (header_cell (sl_header sl)) eq_refl Hj)
      as (lv & Hlv & Hlink).
    unfold getLevel in Hlv. simpl in Hlv. rewrite Hn in Hlv. simpl in Hlv.
    rewrite Hl in Hlv. injection Hlv as <-.
    change (drop 1 (header_cell (sl_header sl) :: L)) with L in Hlink.
    destruct L as [|c L'].
    + simpl in Hlink. rewrite Hlink. split; [by intros [? ?]|lia].
    + rewrite <- (nxt_is_Some_max_height j (c :: L')); [|  |done].
      * destruct (nxt j (c :: L')) as [[d cn]|].
        -- destruct Hlink as [-> _]. split; by eexists.
        -- rewrite Hlink. split; by intros [? ?].
      * eapply Forall_impl; [exact (rep_heights _ _ HRep)|]. simpl. intros; lia.
  - destruct L as [|c L']; [lia|]. rewrite Hlen.
    apply max_height_bound; [unfold SKIPLIST_MAXLEVEL; lia|].
    eapply Forall_impl; [exact (rep_heights _ _ HRep)|]. simpl. intros; lia.
Qed.

Lemma delete_Rep sl L sc e :
  Rep sl L → ∃ sl' b L', delete sl sc e = Some (sl', b) ∧ Rep sl' L'.
Proof.
  intros HRep.
  destruct (delete_spec sl L _ _ sc e HRep (key_test_less sc e) (key_test_eq sc e))
    as (P & _ & _ & _ & Hdel).
  destruct (L !! P) as [cn|]; [destruct (cellEq sc e cn)|].
  - destruct Hdel as (sl' & Hdel & HRep'). by exists sl', true, (take P L ++ drop (S P) L).
  - by exists sl, false, L.
  - by exists sl, false, L.
Qed.

Lemma insert_Rep sl L draws sc e :
  Rep sl L → ∃ sl' a L', insert sl draws sc e = Some (sl', a) ∧ Rep sl' L'.
Proof.
  intros HRep.
  destruct (insert_spec sl L _ sc e draws HRep (key_test_less sc e))
    as (sl' & P & Hins & _ & HRep' & _).
  eauto.
Qed.

Lemma Add_Rep z L draws e sc :
  Rep (zsl z) L → ∃ z' b L', Add z draws e sc = Some (z', b) ∧ Rep (zsl z') L'.
Proof.
  intros HRep. unfold Add. destruct (dict z !! e) as [old|].
  - destruct (SFeqb old sc); [by exists z, false, L|].
    destruct (delete_Rep _ L old e HRep) as (sl1 & b1 & L1 & -> & HRep1). simpl.
    destruct (insert_Rep sl1 L1 draws sc e HRep1) as (sl2 & a & L2 & -> & HRep2). simpl.
    by eexists _, false, L2.
  - destruct (insert_Rep _ L draws sc e HRep) as (sl2 & a & L2 & -> & HRep2). simpl.
    by eexists _, true, L2.
Qed.

Lemma Remove_Rep z L e :
  Rep (zsl z) L → ∃ z' b L', Remove z e = Some (z', b) ∧ Rep (zsl z') L'.
Proof.
  intros HRep. unfold Remove. destruct (dict z !! e) as [sc|].
  - destruct (delete_Rep _ L sc e HRep) as (sl1 & b1 & L1 & -> & HRep1). simpl.
    by eexists _, true, L1.
  - by exists z, false, L.
Qed.

Lemma reachable_any_Rep z : reachable_any z → ∃ L, Rep (zsl z) L.
Proof.
  induction 1 as [z Hnew|z draws e sc z' b _ [L HRep] HAdd|z e z' b _ [L HRep] HRem].
  - exists []. exact (inv_rep _ _ (NewZSet_Inv z Hnew)).
  - destruct (Add_Rep z L draws e sc HRep) as (z1 & b1 & L1 & HAdd1 & HRep1).
    rewrite HAdd in HAdd1. injection HAdd1 as <- _. by exists L1.
  - destruct (Remove_Rep z L e HRep) as (z1 & b1 & L1 & HRem1 & HRep1).
    rewrite HRem in HRem1. injection HRem1 as <- _. by exists L1.
Qed.

Lemma reachable_reachable_any z : reachable z → reachable_any z.
Proof.
  induction 1 as [z Hnew|z draws e sc z' b _ IH _ HAdd|z e z' b _ IH HRem].
  - by apply any_new.
  - by apply (any_add z draws e sc z' b).
  - by apply (any_remove z e z' b).
Qed.

(** C7, as claimed, fails in the empty state, which the claim includes: the
    empty set built by [NewZSet] has level 1 while its header has no forward
    pointer at any level. *)
Lemma C7_empty_set_counterexample :
  reachable_any zset_empty ∧ chain (zsl zset_empty) = [] ∧
  sl_level (zsl zset_empty) = 1%nat ∧ header_top (zsl zset_empty) = 0%nat ∧
  sl_level (zsl zset_empty) ≠ header_top (zsl zset_empty).
Proof.
  split; [exact (reachable_reachable_any _ zset_empty_reachable)|].
  split; [vm_compute; reflexivity|]. split; [reflexivity|].
  split; [vm_compute; reflexivity|]. vm_compute. discriminate.
Qed.

(** C7 (level consistency), amended.  In every state that completed [Add]
    and [Remove] calls produce from the empty set, whatever the scores:
    when the skiplist holds a node, the level field equals the highest level
    (counted from 1) at which the header has a non-null forward pointer;
    when it holds none, the header has no forward pointer at all and the
    level field is 1. *)
Theorem C7_level_field z :
  reachable_any z →
  match chain (zsl z) with
  | [] => sl_level (zsl z) = 1%nat ∧ header_top (zsl z) = 0%nat
  | _ :: _ => sl_level (zsl z) = header_top (zsl z)
  end.
Proof.
  intros Hz. destruct (reachable_any_Rep z Hz) as [L HRep].
  rewrite (Rep_chain _ L HRep), (Rep_header_top _ L HRep), (rep_level _ _ HRep).
  by destruct L.
Qed.

Lemma C7_level_field_witness :
  reachable_any zset_sample ∧
  match chain (zsl zset_sample) with
  | [] => sl_level (zsl zset_sample) = 1%nat ∧ header_top (zsl zset_sample) = 0%nat
  | _ :: _ => sl_level (zsl zset_sample) = header_top (zsl zset_sample)
  end.
Proof.
  split; [exact (reachable_reachable_any _ zset_sample_reachable)|].
  exact (C7_level_field zset_sample (reachable_reachable_any _ zset_sample_reachable)).
Defined.

(** ** Observations depend on the pairs only *)

Lemma pair_lt_asym p1 p2 : pair_lt p1 p2 → pair_lt p2 p1 → False.
Proof.
  unfold pair_lt. intros H1 H2.
  exact (pair_lt_irrefl p1 (key_lt_trans _ _ _ _ _ _ H1 H2)).
Qed.

Lemma Inv_pairs_unique z1 z2 L1 L2 :
  Inv z1 L1 → Inv z2 L2 → dict z1 = dict z2 →
  cell_pair <$> L1 = cell_pair <$> L2.
Proof.
  intros HI1 HI2 Hd.
  apply (StronglySorted_unique_strong pair_lt).
  - intros p1 p2 _ _ H1 H2. destruct (pair_lt_asym p1 p2 H1 H2).
  - by apply (Inv_pairs_sorted z1).
  - by apply (Inv_pairs_sorted z2).
  - apply NoDup_Permutation.
    + apply sorted_pairs_NoDup, (Inv_pairs_sorted z1 L1 HI1).
    + apply sorted_pairs_NoDup, (Inv_pairs_sorted z2 L2 HI2).
    + intros [m s]. by rewrite <- (Inv_dict_pairs z1 L1 m s HI1),
        <- (Inv_dict_pairs z2 L2 m s HI2), Hd.
Qed.

Lemma pairs_lookup (L1 L2 : list cell) k c1 :
  cell_pair <$> L1 = cell_pair <$> L2 → L1 !! k = Some c1 →
  ∃ c2, L2 !! k = Some c2 ∧ c_ele c2 = c_ele c1 ∧ c_score c2 = c_score c1.
Proof.
  intros Hp Hk.
  assert (Hk2 : (cell_pair <$> L2) !! k = Some (cell_pair c1)).
  { by rewrite <- Hp, list_lookup_fmap, Hk. }
  rewrite list_lookup_fmap in Hk2. destruct (L2 !! k) as [c2|]; [|done].
  injection Hk2 as He Hs. by exists c2.
Qed.

Lemma pairs_length (L1 L2 : list cell) :
  cell_pair <$> L1 = cell_pair <$> L2 → base.length L1 = base.length L2.
Proof. intros Hp. by rewrite <- (length_fmap cell_pair L1), Hp, length_fmap. Qed.

Lemma Score_pairs z1 z2 e : dict z1 = dict z2 → Score z1 e = Score z2 e.
Proof. intros Hd. unfold Score. by rewrite Hd. Qed.

Lemma Len_pairs z1 z2 L1 L2 :
  Inv z1 L1 → Inv z2 L2 → cell_pair <$> L1 = cell_pair <$> L2 → Len z1 = Len z2.
Proof.
  intros HI1 HI2 Hp. unfold Len.
  by rewrite (rep_length _ _ (inv_rep _ _ HI1)), (rep_length _ _ (inv_rep _ _ HI2)),
    (pairs_length L1 L2 Hp).
Qed.

Lemma Rank_pairs z1 z2 L1 L2 e reverse :
  Inv z1 L1 → Inv z2 L2 → cell_pair <$> L1 = cell_pair <$> L2 → dict z1 = dict z2 →
  Z.of_nat (base.length L1) < 2 ^ 63 →
  ∃ r, Rank z1 e reverse = Some r ∧ Rank z2 e reverse = Some r.
Proof.
  intros HI1 HI2 Hp Hd Hsize. pose proof (pairs_length L1 L2 Hp) as Hlen.
  destruct (dict z1 !! e) as [s|] eqn:He.
  - destruct (dict_present _ _ _ _ HI1 He) as (k & c1 & Hk & <- & _).
    destruct (pairs_lookup L1 L2 k c1 Hp Hk) as (c2 & Hk2 & He2 & _).
    eexists. split; [apply (Rank_present z1 L1 k c1 reverse HI1 Hsize Hk)|].
    rewrite <- He2, Hlen. apply (Rank_present z2 L2 k c2 reverse HI2); [lia|done].
  - exists (-1). split; apply Rank_absent; [done|by rewrite <- Hd].
Qed.

Lemma GetByRank_pairs z1 z2 L1 L2 rank (reverse : bool) :
  Inv z1 L1 → Inv z2 L2 → cell_pair <$> L1 = cell_pair <$> L2 →
  Z.of_nat (base.length L1) < 2 ^ 63 →
  ∃ r, GetByRank z1 rank reverse = Some r ∧ GetByRank z2 rank reverse = Some r.
Proof.
  intros HI1 HI2 Hp Hsize. pose proof (pairs_length L1 L2 Hp) as Hlen.
  destruct (decide (rank < 0 ∨ Z.of_nat (base.length L1) ≤ rank)) as [Hout|Hin].
  - eexists. split; [by apply (GetByRank_out z1 L1)|].
    apply (GetByRank_out z2 L2); [done|lia|lia].
  - set (r := Z.to_nat (if reverse then Z.of_nat (base.length L1) - 1 - rank else rank)).
    assert (Hr : (r < base.length L1)%nat) by (unfold r; destruct reverse; lia).
    destruct (lookup_lt_is_Some_2 L1 r Hr) as [c1 Hk].
    destruct (pairs_lookup L1 L2 r c1 Hp Hk) as (c2 & Hk2 & He2 & Hs2).
    eexists. split; [apply (GetByRank_in z1 L1 rank reverse r c1); [done|lia|lia|done|done]|].
    rewrite <- He2, <- Hs2.
    apply (GetByRank_in z2 L2 rank reverse r c2); [done|lia|lia| |done].
    unfold r. by rewrite Hlen.
Qed.

Lemma RangeByScore_pairs z1 z2 L1 L2 min max offset count :
  Inv z1 L1 → Inv z2 L2 → cell_pair <$> L1 = cell_pair <$> L2 →
  Z.of_nat (base.length L1) < 2 ^ 63 →
  ∃ r, RangeByScore z1 min max offset count = Some r ∧
       RangeByScore z2 min max offset count = Some r.
Proof.
  intros HI1 HI2 Hp Hsize. pose proof (pairs_length L1 L2 Hp) as Hlen.
  eexists. split; [by apply (RangeByScore_chain z1 L1)|].
  rewrite Hp. apply (RangeByScore_chain z2 L2); [done|lia].
Qed.

Lemma card_insert z z' e sc :
  dict z' = <[e := sc]> (dict z) → card z' ≤ card z + 1.
Proof.
  intros Hd. unfold card. rewrite Hd, map_size_insert.
  destruct (dict z !! e); simpl; lia.
Qed.

Lemma card_delete z z' e :
  dict z' = base.delete e (dict z) → card z' ≤ card z + 1.
Proof.
  intros Hd. unfold card. rewrite Hd, map_size_delete.
  destruct (dict z !! e); simpl; lia.
Qed.

(** One operation, run on two states that hold the same pairs, with
    different draws: same return value, and again the same pairs. *)
Lemma step_pairs_only z1 z2 d1 d2 o :
  reachable z1 → reachable z2 → dict z1 = dict z2 → card z1 < 2 ^ 63 → op_ok o →
  ∃ z1' z2' r,
    step z1 d1 o = Some (z1', r) ∧ step z2 d2 o = Some (z2', r) ∧
    dict z1' = dict z2' ∧ card z1' ≤ card z1 + 1.
Proof.
  intros Hz1 Hz2 Hd Hsize Hok.
  destruct (reachable_Inv z1 Hz1) as [L1 HI1].
  destruct (reachable_Inv z2 Hz2) as [L2 HI2].
  pose proof (Inv_pairs_unique z1 z2 L1 L2 HI1 HI2 Hd) as Hp.
  pose proof Hsize as HsizeL. rewrite (Inv_card z1 L1 HI1) in HsizeL.
  destruct o as [e sc|e|e|e reverse|rank reverse|min max offset count|]; simpl in *.
  - destruct (dict z1 !! e) as [old|] eqn:He.
    + assert (He2 : dict z2 !! e = Some old) by by rewrite <- Hd.
      destruct (SFeqb old sc) eqn:Heq.
      * exists z1, z2, (RetBool false).
        rewrite (Add_same z1 d1 e sc old He Heq), (Add_same z2 d2 e sc old He2 Heq).
        split_and!; [done|done|done|lia].
      * destruct (Add_update z1 L1 d1 e sc old HI1 Hok He Heq)
          as (z1' & ? & ? & ? & ? & _ & _ & _ & HA1 & Hd1 & _).
        destruct (Add_update z2 L2 d2 e sc old HI2 Hok He2 Heq)
          as (z2' & ? & ? & ? & ? & _ & _ & _ & HA2 & Hd2 & _).
        exists z1', z2', (RetBool false). rewrite HA1, HA2.
        split_and!; [done|done|by rewrite Hd1, Hd2, Hd|by apply (card_insert z1 z1' e sc)].
    + assert (He2 : dict z2 !! e = None) by by rewrite <- Hd.
      destruct (Add_absent z1 L1 d1 e sc HI1 Hok He) as (z1' & ? & HA1 & _ & Hd1 & _).
      destruct (Add_absent z2 L2 d2 e sc HI2 Hok He2) as (z2' & ? & HA2 & _ & Hd2 & _).
      exists z1', z2', (RetBool true). rewrite HA1, HA2.
      split_and!; [done|done|by rewrite Hd1, Hd2, Hd|by apply (card_insert z1 z1' e sc)].
  - destruct (dict z1 !! e) as [sc|] eqn:He.
    + assert (He2 : dict z2 !! e = Some sc) by by rewrite <- Hd.
      destruct (Remove_present z1 L1 e sc HI1 He)
        as (z1' & ? & ? & _ & _ & _ & HR1 & Hd1 & _).
      destruct (Remove_present z2 L2 e sc HI2 He2)
        as (z2' & ? & ? & _ & _ & _ & HR2 & Hd2 & _).
      exists z1', z2', (RetBool true). rewrite HR1, HR2.
      split_and!; [done|done|by rewrite Hd1, Hd2, Hd|by apply (card_delete z1 z1' e)].
    + assert (He2 : dict z2 !! e = None) by by rewrite <- Hd.
      exists z1, z2, (RetBool false).
      rewrite (Remove_absent z1 e He), (Remove_absent z2 e He2).
      split_and!; [done|done|done|lia].
  - rewrite <- (Score_pairs z1 z2 e Hd). destruct (Score z1 e) as [sc ok].
    exists z1, z2, (RetScore sc ok). split_and!; [done|done|done|lia].
  - destruct (Rank_pairs z1 z2 L1 L2 e reverse HI1 HI2 Hp Hd HsizeL) as (r & -> & ->).
    exists z1, z2, (RetRank r). split_and!; [done|done|done|lia].
  - destruct (GetByRank_pairs z1 z2 L1 L2 rank reverse HI1 HI2 Hp HsizeL)
      as ([[e sc] ok] & -> & ->).
    exists z1, z2, (RetElem e sc ok). split_and!; [done|done|done|lia].
  - destruct (RangeByScore_pairs z1 z2 L1 L2 min max offset count HI1 HI2 Hp HsizeL)
      as (r & -> & ->).
    exists z1, z2, (RetRange r). split_and!; [done|done|done|lia].
  - exists z1, z2, (RetLen (Len z1)).
    rewrite <- (Len_pairs z1 z2 L1 L2 HI1 HI2 Hp). split_and!; [done|done|done|lia].
Qed.

Lemma run_from_pairs_only ops rnd1 rnd2 :
  ∀ z1 z2 k1 k2,
    reachable z1 → reachable z2 → dict z1 = dict z2 → Forall op_ok ops →
    card z1 + Z.of_nat (base.length ops) < 2 ^ 63 →
    ∃ z1' z2' rs,
      run_from z1 ops rnd1 k1 = Some (z1', rs) ∧
      run_from z2 ops rnd2 k2 = Some (z2', rs) ∧
      dict z1' = dict z2' ∧ reachable z1' ∧ reachable z2'.
Proof.
  induction ops as [|o ops IH]; intros z1 z2 k1 k2 Hz1 Hz2 Hd Hok Hsize; simpl in *.
  { by exists z1, z2, []. }
  apply Forall_cons in Hok as [Ho Hok].
  assert (Hc : 0 ≤ card z1) by (unfold card; lia).
  destruct (step_pairs_only z1 z2 (rnd1 k1) (rnd2 k2) o Hz1 Hz2 Hd ltac:(lia) Ho)
    as (z1' & z2' & r & Hs1 & Hs2 & Hd' & Hcard).
  pose proof (step_reachable _ _ _ _ _ Hz1 Ho Hs1) as Hz1'.
  pose proof (step_reachable _ _ _ _ _ Hz2 Ho Hs2) as Hz2'.
  destruct (IH z1' z2' (S k1) (S k2) Hz1' Hz2' Hd' Hok ltac:(lia))
    as (z1'' & z2'' & rs & Hr1 & Hr2 & Hd'' & Hz1'' & Hz2'').
  exists z1'', z2'', (r :: rs). rewrite Hs1, Hs2. simpl. rewrite Hr1, Hr2. simpl.
  by split_and!.
Qed.

(** C10 (the random levels are not observable).  For every sequence of
    operations run from the empty set (the scores added are not NaN; fewer
    than 2^63 operations) and any two outcomes of the random level draws,
    both runs complete, every operation — Add, Remove, Score, Rank,
    GetByRank, RangeByScore, Len — returns the same value in both, and both
    end with the same dictionary and the same chain of (member, score)
    pairs. *)
Theorem C10_draws_not_observable ops rnd1 rnd2 :
  Forall op_ok ops → Z.of_nat (base.length ops) < 2 ^ 63 →
  ∃ z1 z2 rs,
    run ops rnd1 = Some (z1, rs) ∧ run ops rnd2 = Some (z2, rs) ∧
    dict z1 = dict z2 ∧ chain (zsl z1) = chain (zsl z2).
Proof.
  intros Hok Hsize. rewrite !run_unfold.
  assert (Hc : card zset_empty = 0) by (vm_compute; reflexivity).
  destruct (run_from_pairs_only ops rnd1 rnd2 zset_empty zset_empty 0%nat 0%nat
              zset_empty_reachable zset_empty_reachable eq_refl Hok ltac:(lia))
    as (z1 & z2 & rs & Hr1 & Hr2 & Hd & Hz1 & Hz2).
  exists z1, z2, rs. split_and!; [done|done|done|].
  destruct (reachable_Inv z1 Hz1) as [L1 HI1].
  destruct (reachable_Inv z2 Hz2) as [L2 HI2].
  rewrite (Inv_chain z1 L1 HI1), (Inv_chain z2 L2 HI2).
  by apply (Inv_pairs_unique z1 z2).
Qed.

Lemma C10_draws_not_observable_witness :
  Forall op_ok (sample_ops ++ sample_queries) ∧
  Z.of_nat (base.length (sample_ops ++ sample_queries)) < 2 ^ 63 ∧
  ∃ z1 z2 rs,
    run (sample_ops ++ sample_queries) sample_rnd = Some (z1, rs) ∧
    run (sample_ops ++ sample_queries) (λ _, []) = Some (z2, rs) ∧
    dict z1 = dict z2 ∧ chain (zsl z1) = chain (zsl z2).
Proof.
  assert (Hok : Forall op_ok (sample_ops ++ sample_queries)).
  { repeat first [apply Forall_nil_2 | apply Forall_cons_2; [vm_compute; try reflexivity; exact I|]]. }
  split; [exact Hok|]. split; [vm_compute; reflexivity|].
  apply (C10_draws_not_observable (sample_ops ++ sample_queries) sample_rnd (λ _, []) Hok).
  vm_compute; reflexivity.
Defined.

(** * Further properties of the code *)

Lemma randomLevel_loop_spec room draws lvl :
  randomLevel_loop room draws lvl
  = (lvl + Nat.min room (base.length (take_while id draws)))%nat.
Proof.
  revert room lvl. induction draws as [|d ds IH]; intros room lvl.
  { destruct room; simpl; lia. }
  destruct d, room as [|r]; simpl; try lia.
  rewrite IH. lia.
Qed.

(** X1 (randomLevel).  The level drawn is 1 plus the number of leading
    draws that fall below [SKIPLIST_P], capped at [SKIPLIST_MAXLEVEL]; so it
    always lies between 1 and [SKIPLIST_MAXLEVEL]. *)
Theorem randomLevel_leading_successes draws :
  randomLevel draws
  = Nat.min SKIPLIST_MAXLEVEL (1 + base.length (take_while id draws)) ∧
  (1 ≤ randomLevel draws ≤ SKIPLIST_MAXLEVEL)%nat.
Proof.
  unfold randomLevel. rewrite randomLevel_loop_spec. unfold SKIPLIST_MAXLEVEL. lia.
Qed.

Lemma zset_empty_Inv : Inv zset_empty [].
Proof. exact (NewZSet_Inv zset_empty zset_empty_new). Qed.

(** X2 (the empty set).  On the set that [NewZSet] builds every query
    reports absence: [Len] is 0, [Score] returns (0, false), [Rank] returns
    -1, [GetByRank] returns ("", 0, false) for every rank, [RangeByScore]
    returns no pair whatever its arguments, and [Remove] returns false
    without changing the set. *)
Theorem NewZSet_is_empty :
  ∃ z, NewZSet = Some z ∧ Len z = 0 ∧ chain (zsl z) = [] ∧
    (∀ m, Score z m = (S754_zero false, false)) ∧
    (∀ m reverse, Rank z m reverse = Some (-1)) ∧
    (∀ rank reverse, GetByRank z rank reverse = Some (EmptyString, S754_zero false, false)) ∧
    (∀ min max offset count, RangeByScore z min max offset count = Some []) ∧
    (∀ m, Remove z m = Some (z, false)).
Proof.
  exists zset_empty. pose proof zset_empty_Inv as HI.
  assert (Hd : ∀ m, dict zset_empty !! m = None) by (intros m; apply lookup_empty).
  split_and!.
  - exact zset_empty_new.
  - reflexivity.
  - by rewrite (Inv_chain _ _ HI).
  - intros m. unfold Score. by rewrite Hd.
  - intros m reverse. by apply Rank_absent.
  - intros rank reverse. apply (GetByRank_out _ [] rank reverse HI); simpl; lia.
  - intros min max offset count.
    rewrite (RangeByScore_chain _ [] min max offset count HI) by (simpl; lia).
    reflexivity.
  - intros m. by apply Remove_absent.
Qed.

(** What [Add] does to the dictionary, on any well-formed skiplist. *)
Lemma Add_dict z L draws e sc :
  Rep (zsl z) L →
  ∃ z' L',
    Add z draws e sc = Some (z', bool_decide (dict z !! e = None)) ∧
    Rep (zsl z') L' ∧
    ((dict z' = <[e := sc]> (dict z) ∧
      ∀ old, dict z !! e = Some old → SFeqb old sc = false) ∨
     (z' = z ∧ ∃ old, dict z !! e = Some old ∧ SFeqb old sc = true)).
Proof.
  intros HRep. unfold Add. destruct (dict z !! e) as [old|] eqn:Hd.
  - rewrite bool_decide_eq_false_2 by done.
    destruct (SFeqb old sc) eqn:Heq.
    { exists z, L. split_and!; [done|done|]. right. split; [done|by exists old]. }
    destruct (delete_Rep _ L old e HRep) as (sl1 & b1 & L1 & -> & HRep1). simpl.
    destruct (insert_Rep sl1 L1 draws sc e HRep1) as (sl2 & a & L2 & -> & HRep2). simpl.
    eexists _, L2. split_and!; [done|done|]. left. split; [done|]. by intros ? [= <-].
  - rewrite bool_decide_eq_true_2 by done.
    destruct (insert_Rep _ L draws sc e HRep) as (sl2 & a & L2 & -> & HRep2). simpl.
    eexists _, L2. split_and!; [done|done|]. left. split; [done|]. by intros ? [=].
Qed.

Lemma Remove_dict z L e :
  Rep (zsl z) L →
  ∃ z' L',
    Remove z e = Some (z', bool_decide (is_Some (dict z !! e))) ∧
    Rep (zsl z') L' ∧ dict z' = base.delete e (dict z).
Proof.
  intros HRep. unfold Remove. destruct (dict z !! e) as [sc|] eqn:Hd.
  - rewrite bool_decide_eq_true_2 by by eexists.
    destruct (delete_Rep _ L sc e HRep) as (sl1 & b1 & L1 & -> & HRep1). simpl.
    by eexists _, L1.
  - rewrite bool_decide_eq_false_2 by (by intros [? ?]).
    exists z, L. split_and!; [done|done|]. by rewrite delete_id.
Qed.

(** X3 (no failure).  In every state that [Add] and [Remove] calls produce
    from the empty set, whatever the scores (NaN included) and the draws,
    [Add] and [Remove] return normally — no nil dereference, no index out of
    range, no endless walk; [Add] returns true exactly when the member was
    absent and [Remove] exactly when it was present. *)
Theorem Add_Remove_return z :
  reachable_any z →
  (∀ draws m s, ∃ z', Add z draws m s = Some (z', bool_decide (dict z !! m = None))) ∧
  (∀ m, ∃ z', Remove z m = Some (z', bool_decide (is_Some (dict z !! m)))).
Proof.
  intros Hz. destruct (reachable_any_Rep z Hz) as [L HRep]. split.
  - intros draws m s. destruct (Add_dict z L draws m s HRep) as (z' & _ & HAdd & _).
    by exists z'.
  - intros m. destruct (Remove_dict z L m HRep) as (z' & _ & HRem & _). by exists z'.
Qed.

Lemma Add_Remove_return_witness :
  reachable_any zset_sample ∧
  (∀ draws m s, ∃ z',
      Add zset_sample draws m s = Some (z', bool_decide (dict zset_sample !! m = None))) ∧
  (∀ m, ∃ z',
      Remove zset_sample m = Some (z', bool_decide (is_Some (dict zset_sample !! m)))).
Proof.
  split; [exact (reachable_reachable_any _ zset_sample_reachable)|].
  exact (Add_Remove_return zset_sample (reachable_reachable_any _ zset_sample_reachable)).
Defined.

(** X4 (Remove).  In every reachable state: removing an absent member
    returns false and changes nothing; removing a present member returns
    true, takes exactly its pair out of the chain — the other pairs keep
    their order — and deletes its dictionary entry. *)
Theorem Remove_cases z m :
  reachable z →
  match dict z !! m with
  | None => Remove z m = Some (z, false)
  | Some s =>
      ∃ z' l1 l2,
        Remove z m = Some (z', true) ∧
        chain (zsl z) = l1 ++ (m, s) :: l2 ∧
        chain (zsl z') = l1 ++ l2 ∧
        dict z' = base.delete m (dict z)
  end.
Proof.
  intros Hz. destruct (reachable_Inv z Hz) as [L HI].
  destruct (dict z !! m) as [s|] eqn:Hd; [|by apply Remove_absent].
  destruct (Remove_present z L m s HI Hd)
    as (z' & k & c0 & Hk & He & Hs & HRem & Hd' & HI').
  exists z', (cell_pair <$> take k L), (cell_pair <$> drop (S k) L).
  split_and!; [done| | |done].
  - rewrite (Inv_chain z L HI). rewrite <- (take_drop k L) at 1.
    rewrite (drop_S _ _ _ Hk), fmap_app, fmap_cons. unfold cell_pair at 2.
    by rewrite He, Hs.
  - by rewrite (Inv_chain z' _ HI'), fmap_app.
Qed.

Lemma Remove_cases_witness :
  reachable zset_sample ∧
  match dict zset_sample !! "c"%string with
  | None => Remove zset_sample "c" = Some (zset_sample, false)
  | Some s =>
      ∃ z' l1 l2,
        Remove zset_sample "c" = Some (z', true) ∧
        chain (zsl zset_sample) = l1 ++ ("c"%string, s) :: l2 ∧
        chain (zsl z') = l1 ++ l2 ∧
        dict z' = base.delete "c"%string (dict zset_sample)
  end.
Proof.
  split; [exact zset_sample_reachable|].
  exact (Remove_cases zset_sample "c" zset_sample_reachable).
Defined.

(** X5 (after Remove).  In every state produced by [Add] and [Remove] calls
    (any scores), once [Remove m] has returned the member is absent:
    [Score m] is (0, false), [Rank m] is -1, a second [Remove m] returns
    false and changes nothing, and the score of every other member is what
    it was. *)
Theorem Remove_then_absent z m :
  reachable_any z →
  ∃ z' b,
    Remove z m = Some (z', b) ∧
    Score z' m = (S754_zero false, false) ∧
    (∀ reverse, Rank z' m reverse = Some (-1)) ∧
    Remove z' m = Some (z', false) ∧
    ∀ m', m' ≠ m → Score z' m' = Score z m'.
Proof.
  intros Hz. destruct (reachable_any_Rep z Hz) as [L HRep].
  destruct (Remove_dict z L m HRep) as (z' & L' & HRem & _ & Hd).
  assert (Hm : dict z' !! m = None) by (rewrite Hd; apply lookup_delete_eq).
  exists z', (bool_decide (is_Some (dict z !! m))). split_and!.
  - done.
  - unfold Score. by rewrite Hm.
  - intros reverse. by apply Rank_absent.
  - by apply Remove_absent.
  - intros m' Hne. unfold Score. by rewrite Hd, lookup_delete_ne.
Qed.

Lemma Remove_then_absent_witness :
  reachable_any zset_sample ∧
  ∃ z' b,
    Remove zset_sample "c" = Some (z', b) ∧
    Score z' "c" = (S754_zero false, false) ∧
    (∀ reverse, Rank z' "c" reverse = Some (-1)) ∧
    Remove z' "c" = Some (z', false) ∧
    ∀ m', m' ≠ "c"%string → Score z' m' = Score zset_sample m'.
Proof.
  split; [exact (reachable_reachable_any _ zset_sample_reachable)|].
  exact (Remove_then_absent zset_sample "c"
           (reachable_reachable_any _ zset_sample_reachable)).
Defined.

(** X6 (Add, then Score).  In every state produced by [Add] and [Remove]
    calls (any scores), after [Add m s] the member [m] is present and
    [Score m] returns [s] itself — or, when [m] already had a score that
    Go's [==] equates with [s], that stored score — and the score of every
    other member is what it was. *)
Theorem Add_then_Score z draws m s :
  reachable_any z →
  ∃ z' b s',
    Add z draws m s = Some (z', b) ∧
    Score z' m = (s', true) ∧ (s' = s ∨ SFeqb s' s = true) ∧
    ∀ m', m' ≠ m → Score z' m' = Score z m'.
Proof.
  intros Hz. destruct (reachable_any_Rep z Hz) as [L HRep].
  destruct (Add_dict z L draws m s HRep) as (z' & L' & HAdd & _ & [[Hd _]|(-> & old & Hold & Heq)]).
  - exists z', (bool_decide (dict z !! m = None)), s. split_and!; [done| |by left|].
    + unfold Score. by rewrite Hd, lookup_insert_eq.
    + intros m' Hne. unfold Score. by rewrite Hd, lookup_insert_ne.
  - exists z, (bool_decide (dict z !! m = None)), old. split_and!; [done| |by right|done].
    unfold Score. by rewrite Hold.
Qed.

Lemma Add_then_Score_witness :
  reachable_any zset_sample ∧
  ∃ z' b s',
    Add zset_sample [true] "e" (float64_of_Z 7) = Some (z', b) ∧
    Score z' "e" = (s', true) ∧
    (s' = float64_of_Z 7 ∨ SFeqb s' (float64_of_Z 7) = true) ∧
    ∀ m', m' ≠ "e"%string → Score z' m' = Score zset_sample m'.
Proof.
  split; [exact (reachable_reachable_any _ zset_sample_reachable)|].
  exact (Add_then_Score zset_sample [true] "e" (float64_of_Z 7)
           (reachable_reachable_any _ zset_sample_reachable)).
Defined.

(** X7 (Add twice).  In every state produced by [Add] and [Remove] calls,
    for a score that is not NaN: a second [Add] of the same member with the
    same score returns false and leaves the state exactly as the first left
    it, whatever the draws. *)
Theorem Add_same_twice z d1 d2 m s :
  reachable_any z → is_NaN s = false →
  ∃ z' b, Add z d1 m s = Some (z', b) ∧ Add z' d2 m s = Some (z', false).
Proof.
  intros Hz Hs. destruct (reachable_any_Rep z Hz) as [L HRep].
  destruct (Add_dict z L d1 m s HRep) as (z' & L' & HAdd & _ & [[Hd _]|(-> & old & Hold & Heq)]).
  - exists z', (bool_decide (dict z !! m = None)). split; [done|].
    apply (Add_same z' d2 m s s); [by rewrite Hd, lookup_insert_eq|by apply SFeqb_refl].
  - exists z, (bool_decide (dict z !! m = None)). split; [done|].
    by apply (Add_same z d2 m s old).
Qed.

Lemma Add_same_twice_witness :
  reachable_any zset_sample ∧ is_NaN (float64_of_Z 7) = false ∧
  ∃ z' b,
    Add zset_sample [true] "e" (float64_of_Z 7) = Some (z', b) ∧
    Add z' [] "e" (float64_of_Z 7) = Some (z', false).
Proof.
  split; [exact (reachable_reachable_any _ zset_sample_reachable)|].
  split; [reflexivity|].
  apply (Add_same_twice zset_sample [true] [] "e" (float64_of_Z 7)
           (reachable_reachable_any _ zset_sample_reachable)).
  reflexivity.
Defined.

Lemma Add_dict_lookup z L draws e sc :
  Rep (zsl z) L →
  ∃ z' L',
    Add z draws e sc = Some (z', bool_decide (dict z !! e = None)) ∧
    Rep (zsl z') L' ∧
    ∀ k, dict z' !! k =
         if decide (k = e) then
           Some (match dict z !! e with
                 | Some old => if SFeqb old sc then old else sc
                 | None => sc
                 end)
         else dict z !! k.
Proof.
  intros HRep.
  destruct (Add_dict z L draws e sc HRep)
    as (z' & L' & HAdd & HRep' & [[Hd Hn]|(-> & old & Hold & Heq)]).
  - exists z', L'. split_and!; [done|done|]. intros k. rewrite Hd.
    destruct (decide (k = e)) as [->|Hne]; [|by rewrite lookup_insert_ne].
    rewrite lookup_insert_eq. destruct (dict z !! e) as [old|]; [|done].
    by rewrite (Hn old eq_refl).
  - exists z, L. split_and!; [done|done|]. intros k.
    destruct (decide (k = e)) as [->|Hne]; [|done]. by rewrite Hold, Heq.
Qed.

(** X8 (Add commutes).  In every reachable state, two [Add]s of different
    members with scores that are not NaN can be swapped: each call returns
    the same boolean in both orders, and both orders end with the same
    dictionary and the same chain, whatever the draws of the four calls. *)
Theorem Add_commute z d1 d2 d3 d4 m1 s1 m2 s2 :
  reachable z → is_NaN s1 = false → is_NaN s2 = false → m1 ≠ m2 →
  ∃ za za' zb zb' b1 b2,
    Add z d1 m1 s1 = Some (za, b1) ∧ Add za d2 m2 s2 = Some (za', b2) ∧
    Add z d3 m2 s2 = Some (zb, b2) ∧ Add zb d4 m1 s1 = Some (zb', b1) ∧
    dict za' = dict zb' ∧ chain (zsl za') = chain (zsl zb').
Proof.
  intros Hz Hs1 Hs2 Hne.
  destruct (reachable_Inv z Hz) as [L HI].
  destruct (Add_dict_lookup z L d1 m1 s1 (inv_rep _ _ HI)) as (za & La & HAa & HRa & Hda).
  destruct (Add_dict_lookup z L d3 m2 s2 (inv_rep _ _ HI)) as (zb & Lb & HAb & HRb & Hdb).
  destruct (Add_dict_lookup za La d2 m2 s2 HRa) as (za' & La' & HAa' & _ & Hda').
  destruct (Add_dict_lookup zb Lb d4 m1 s1 HRb) as (zb' & Lb' & HAb' & _ & Hdb').
  assert (Ha2 : dict za !! m2 = dict z !! m2).
  { rewrite Hda. by rewrite decide_False by done. }
  assert (Hb1 : dict zb !! m1 = dict z !! m1).
  { rewrite Hdb. by rewrite decide_False by done. }
  rewrite Ha2 in HAa', Hda'. rewrite Hb1 in HAb', Hdb'.
  assert (Hd : dict za' = dict zb').
  { apply map_eq. intros k. rewrite Hda', Hdb', Hda, Hdb.
    destruct (decide (k = m2)) as [Hk2|Hk2]; destruct (decide (k = m1)) as [Hk1|Hk1];
      congruence. }
  pose proof (reach_add z d1 m1 s1 za _ Hz Hs1 HAa) as Hza.
  pose proof (reach_add z d3 m2 s2 zb _ Hz Hs2 HAb) as Hzb.
  pose proof (reach_add za d2 m2 s2 za' _ Hza Hs2 HAa') as Hza'.
  pose proof (reach_add zb d4 m1 s1 zb' _ Hzb Hs1 HAb') as Hzb'.
  exists za, za', zb, zb', (bool_decide (dict z !! m1 = None)),
    (bool_decide (dict z !! m2 = None)).
  split_and!; [done|done|done|done|done|].
  destruct (reachable_Inv za' Hza') as [L1 HI1].
  destruct (reachable_Inv zb' Hzb') as [L2 HI2].
  rewrite (Inv_chain za' L1 HI1), (Inv_chain zb' L2 HI2).
  by apply (Inv_pairs_unique za' zb').
Qed.

Lemma Add_commute_witness :
  reachable zset_sample ∧ is_NaN (float64_of_Z 7) = false ∧
  is_NaN (float64_of_Z 1) = false ∧ "e"%string ≠ "a"%string ∧
  ∃ za za' zb zb' b1 b2,
    Add zset_sample [true] "e" (float64_of_Z 7) = Some (za, b1) ∧
    Add za [] "a" (float64_of_Z 1) = Some (za', b2) ∧
    Add zset_sample [true; true] "a" (float64_of_Z 1) = Some (zb, b2) ∧
    Add zb [true] "e" (float64_of_Z 7) = Some (zb', b1) ∧
    dict za' = dict zb' ∧ chain (zsl za') = chain (zsl zb').
Proof.
  split; [exact zset_sample_reachable|]. split; [reflexivity|]. split; [reflexivity|].
  split; [discriminate|].
  apply (Add_commute zset_sample [true] [] [true; true] [true] "e" (float64_of_Z 7)
           "a" (float64_of_Z 1) zset_sample_reachable); [reflexivity|reflexivity|discriminate].
Defined.

(** X9 (Len counts the members).  In every reachable state with room for
    one more member below 2^64: [Len] is the number of dictionary entries;
    an [Add] of a score that is not NaN raises it by one exactly when it
    returns true, and a [Remove] lowers it by one exactly when it returns
    true. *)
Theorem Len_counts_members z :
  reachable z → card z + 1 < 2 ^ 64 →
  Len z = card z ∧
  (∀ draws m s, is_NaN s = false →
     ∃ z' b, Add z draws m s = Some (z', b) ∧
             Len z' = Len z + (if b then 1 else 0)) ∧
  (∀ m, ∃ z' b, Remove z m = Some (z', b) ∧
                Len z' = Len z - (if b then 1 else 0)).
Proof.
  intros Hz Hsize. destruct (reachable_Inv z Hz) as [L HI].
  assert (HLen : ∀ z0, reachable z0 → card z0 < 2 ^ 64 → Len z0 = card z0).
  { intros z0 Hz0 Hs0. destruct (reachable_Inv z0 Hz0) as [L0 HI0].
    rewrite (Inv_card z0 L0 HI0) in *. by apply Inv_Len. }
  split_and!.
  - apply HLen; [done|lia].
  - intros draws m s Hs.
    destruct (Add_dict z L draws m s (inv_rep _ _ HI)) as (z' & L' & HAdd & _ & Hd).
    exists z', (bool_decide (dict z !! m = None)). split; [done|].
    pose proof (reach_add z draws m s z' _ Hz Hs HAdd) as Hz'.
    assert (Hc : card z' = card z + (if bool_decide (dict z !! m = None) then 1 else 0)).
    { destruct Hd as [[Hd _]|(-> & old & Hold & _)].
      - unfold card. rewrite Hd, map_size_insert.
        destruct (dict z !! m);
          [rewrite bool_decide_eq_false_2 by done|rewrite bool_decide_eq_true_2 by done];
          simpl; lia.
      - rewrite Hold, bool_decide_eq_false_2 by done. lia. }
    rewrite (HLen z' Hz'), (HLen z Hz), Hc by (destruct (bool_decide _); lia). done.
  - intros m.
    destruct (Remove_dict z L m (inv_rep _ _ HI)) as (z' & L' & HRem & _ & Hd).
    exists z', (bool_decide (is_Some (dict z !! m))). split; [done|].
    pose proof (reach_remove z m z' _ Hz HRem) as Hz'.
    assert (Hc : card z' = card z - (if bool_decide (is_Some (dict z !! m)) then 1 else 0)).
    { unfold card. rewrite Hd, map_size_delete.
      assert (Hpos : is_Some (dict z !! m) → size (dict z) ≠ 0%nat).
      { intros [s Hm] H0. apply map_size_empty_inv in H0. by rewrite H0 in Hm. }
      destruct (dict z !! m) as [s|].
      - rewrite bool_decide_eq_true_2 by (by eexists).
        specialize (Hpos ltac:(by eexists)). simpl. lia.
      - rewrite bool_decide_eq_false_2 by (by intros [? ?]). simpl. lia. }
    rewrite (HLen z' Hz'), (HLen z Hz), Hc by (destruct (bool_decide _); unfold card in *; lia).
    done.
Qed.

Lemma Len_counts_members_witness :
  reachable zset_sample ∧ card zset_sample + 1 < 2 ^ 64 ∧
  Len zset_sample = card zset_sample ∧
  (∀ draws m s, is_NaN s = false →
     ∃ z' b, Add zset_sample draws m s = Some (z', b) ∧
             Len z' = Len zset_sample + (if b then 1 else 0)) ∧
  (∀ m, ∃ z' b, Remove zset_sample m = Some (z', b) ∧
                Len z' = Len zset_sample - (if b then 1 else 0)).
Proof.
  split; [exact zset_sample_reachable|]. split; [by vm_compute|].
  apply (Len_counts_members zset_sample zset_sample_reachable). by vm_compute.
Defined.

Lemma chain_addrs_node sl L k a n :
  Rep sl L → chain_addrs sl !! k = Some a → sl_nodes sl !! a = Some n →
  ∃ c, L !! k = Some c ∧ c_addr c = a ∧ ele n = c_ele c ∧ score n = c_score c ∧
       base.length (level n) = c_height c.
Proof.
  intros HRep Hk Hn. rewrite (Rep_chain_addrs sl L HRep), list_lookup_fmap in Hk.
  destruct (L !! k) as [c|] eqn:Hc; [|done]. injection Hk as <-.
  pose proof (rep_cells _ _ HRep) as Hall. apply Forall_cons in Hall as [_ Hall].
  pose proof (proj1 (Forall_lookup _ _) Hall k c Hc) as Hok.
  destruct (cell_ok_lookup _ _ Hok) as (n' & Hn' & He & Hs & Hh).
  rewrite Hn in Hn'. injection Hn' as <-. by exists c.
Qed.

(** X10 (backward pointers and tail).  In every state produced by [Add] and
    [Remove] calls (any scores): [tail] is the last node of the level-0
    chain, nil when the chain is empty; the backward pointer of the first
    node is nil, and that of every other node is the node just before it in
    the chain. *)
Theorem backward_and_tail z :
  reachable_any z →
  sl_tail (zsl z) = last (chain_addrs (zsl z)) ∧
  ∀ k a n,
    chain_addrs (zsl z) !! k = Some a → sl_nodes (zsl z) !! a = Some n →
    backward n = match k with
                 | O => None
                 | S k' => chain_addrs (zsl z) !! k'
                 end.
Proof.
  intros Hz. destruct (reachable_any_Rep z Hz) as [L HRep]. split.
  - by rewrite (rep_tail _ _ HRep), (Rep_chain_addrs _ L HRep), fmap_last.
  - intros k a n Hk Hn.
    destruct (chain_addrs_node _ L k a n HRep Hk Hn) as (c & Hc & Ha & _).
    pose proof (rep_back _ _ HRep k c Hc) as Hb. unfold nodeBack in Hb.
    rewrite Ha, Hn in Hb. simpl in Hb. injection Hb as ->.
    destruct k as [|k']; [done|].
    by rewrite (Rep_chain_addrs _ L HRep), list_lookup_fmap.
Qed.

Lemma backward_and_tail_witness :
  reachable_any zset_sample ∧
  sl_tail (zsl zset_sample) = last (chain_addrs (zsl zset_sample)) ∧
  ∀ k a n,
    chain_addrs (zsl zset_sample) !! k = Some a →
    sl_nodes (zsl zset_sample) !! a = Some n →
    backward n = match k with
                 | O => None
                 | S k' => chain_addrs (zsl zset_sample) !! k'
                 end.
Proof.
  split; [exact (reachable_reachable_any _ zset_sample_reachable)|].
  exact (backward_and_tail zset_sample (reachable_reachable_any _ zset_sample_reachable)).
Defined.

Lemma max_height_attained L :
  L ≠ [] → Forall (λ c, 1 ≤ c_height c)%nat L →
  ∃ k c, L !! k = Some c ∧ c_height c = max_height L.
Proof.
  induction L as [|c L IH]; intros Hne Hall; [done|].
  apply Forall_cons in Hall as [Hc Hall].
  change (max_height (c :: L)) with (Nat.max (c_height c) (max_height L)).
  destruct (decide (max_height L ≤ c_height c)%nat) as [Hle|Hgt].
  - exists 0%nat, c. split; [done|lia].
  - destruct L as [|c' L'].
    { exists 0%nat, c. split; [done|]. simpl. lia. }
    destruct (IH ltac:(done) Hall) as (k & ck & Hk & Hh).
    exists (S k), ck. split; [done|lia].
Qed.

(** X11 (levels).  In every state produced by [Add] and [Remove] calls (any
    scores): the level field lies between 1 and [SKIPLIST_MAXLEVEL]; every
    node of the chain has at least one level and no more than the level
    field; and when the chain is not empty some node has exactly that many
    levels. *)
Theorem level_field_bounds z :
  reachable_any z →
  (1 ≤ sl_level (zsl z) ≤ SKIPLIST_MAXLEVEL)%nat ∧
  (∀ k a n,
     chain_addrs (zsl z) !! k = Some a → sl_nodes (zsl z) !! a = Some n →
     (1 ≤ base.length (level n) ≤ sl_level (zsl z))%nat) ∧
  (chain_addrs (zsl z) ≠ [] →
   ∃ k a n,
     chain_addrs (zsl z) !! k = Some a ∧ sl_nodes (zsl z) !! a = Some n ∧
     base.length (level n) = sl_level (zsl z)).
Proof.
  intros Hz. destruct (reachable_any_Rep z Hz) as [L HRep]. split; [|split].
  - apply (Rep_level_bound _ L HRep).
  - intros k a n Hk Hn.
    destruct (chain_addrs_node _ L k a n HRep Hk Hn) as (c & Hc & _ & _ & _ & ->).
    apply (Rep_height_le _ L c HRep). by apply list_elem_of_lookup_2 in Hc.
  - rewrite (Rep_chain_addrs _ L HRep). intros Hne.
    assert (HL : L ≠ []) by (by intros ->).
    destruct (max_height_attained L HL) as (k & c & Hc & Hh).
    { eapply Forall_impl; [exact (rep_heights _ _ HRep)|]. simpl. intros; lia. }
    pose proof (rep_cells _ _ HRep) as Hall. apply Forall_cons in Hall as [_ Hall].
    pose proof (proj1 (Forall_lookup _ _) Hall k c Hc) as Hok.
    destruct (cell_ok_lookup _ _ Hok) as (n & Hn & _ & _ & Hlen).
    exists k, (c_addr c), n. split_and!; [by rewrite list_lookup_fmap, Hc|done|].
    by rewrite Hlen, Hh, (rep_level _ _ HRep).
Qed.

Lemma level_field_bounds_witness :
  reachable_any zset_sample ∧
  (1 ≤ sl_level (zsl zset_sample) ≤ SKIPLIST_MAXLEVEL)%nat ∧
  (∀ k a n,
     chain_addrs (zsl zset_sample) !! k = Some a →
     sl_nodes (zsl zset_sample) !! a = Some n →
     (1 ≤ base.length (level n) ≤ sl_level (zsl zset_sample))%nat) ∧
  (chain_addrs (zsl zset_sample) ≠ [] →
   ∃ k a n,
     chain_addrs (zsl zset_sample) !! k = Some a ∧
     sl_nodes (zsl zset_sample) !! a = Some n ∧
     base.length (level n) = sl_level (zsl zset_sample)).
Proof.
  split; [exact (reachable_reachable_any _ zset_sample_reachable)|].
  exact (level_field_bounds zset_sample (reachable_reachable_any _ zset_sample_reachable)).
Defined.

(** X12 (GetByRank out of range).  In every reachable state (fewer than
    2^63 members): for a negative rank and for a rank at or beyond [Len],
    [GetByRank] returns ("", 0, false), in either direction. *)
Theorem GetByRank_out_of_range z rank reverse :
  reachable z → card z < 2 ^ 63 →
  rank < 0 ∨ Len z ≤ rank →
  GetByRank z rank reverse = Some (EmptyString, S754_zero false, false).
Proof.
  intros Hz Hsize Hout. destruct (reachable_Inv z Hz) as [L HI].
  rewrite (Inv_card z L HI) in Hsize. rewrite (Inv_Len z L HI) in Hout by lia.
  by apply (GetByRank_out z L).
Qed.

Lemma GetByRank_out_of_range_witness :
  reachable zset_sample ∧ card zset_sample < 2 ^ 63 ∧
  (3 < 0 ∨ Len zset_sample ≤ 3) ∧
  GetByRank zset_sample 3 true = Some (EmptyString, S754_zero false, false).
Proof.
  split; [exact zset_sample_reachable|]. split; [by vm_compute|].
  split; [right; by vm_compute|].
  apply (GetByRank_out_of_range zset_sample 3 true zset_sample_reachable);
    [by vm_compute|right; by vm_compute].
Defined.

(** X13 (GetByRank in range).  In every reachable state (fewer than 2^63
    members), for [0 <= rank < Len]: [GetByRank rank false] returns, with
    true, the pair at position [rank] of the ascending chain, and
    [GetByRank rank true] the pair at position [Len - 1 - rank]. *)
Theorem GetByRank_position z rank (reverse : bool) :
  reachable z → card z < 2 ^ 63 →
  0 ≤ rank < Len z →
  ∃ m s,
    GetByRank z rank reverse = Some (m, s, true) ∧
    chain (zsl z) !! Z.to_nat (if reverse then Len z - 1 - rank else rank) = Some (m, s).
Proof.
  intros Hz Hsize Hin. destruct (reachable_Inv z Hz) as [L HI].
  rewrite (Inv_card z L HI) in Hsize. rewrite (Inv_Len z L HI) in * by lia.
  set (r := Z.to_nat (if reverse then Z.of_nat (base.length L) - 1 - rank else rank)).
  assert (Hr : (r < base.length L)%nat) by (unfold r; destruct reverse; lia).
  destruct (lookup_lt_is_Some_2 L r Hr) as [c Hc].
  exists (c_ele c), (c_score c). split.
  - by apply (GetByRank_in z L rank reverse r c).
  - by rewrite (Inv_chain z L HI), list_lookup_fmap, Hc.
Qed.

Lemma GetByRank_position_witness :
  reachable zset_sample ∧ card zset_sample < 2 ^ 63 ∧
  0 ≤ 0 < Len zset_sample ∧
  ∃ m s,
    GetByRank zset_sample 0 true = Some (m, s, true) ∧
    chain (zsl zset_sample) !! Z.to_nat (Len zset_sample - 1 - 0) = Some (m, s).
Proof.
  split; [exact zset_sample_reachable|]. split; [by vm_compute|].
  split; [by vm_compute|].
  apply (GetByRank_position zset_sample 0 true zset_sample_reachable); by vm_compute.
Defined.

(** X14 (Rank of GetByRank).  In every reachable state (fewer than 2^63
    members): when [GetByRank rank reverse] returns (m, s, true), [Rank m
    reverse] returns that same rank and [Score m] returns (s, true). *)
Theorem Rank_of_GetByRank z rank (reverse : bool) m s :
  reachable z → card z < 2 ^ 63 →
  GetByRank z rank reverse = Some (m, s, true) →
  Rank z m reverse = Some rank ∧ Score z m = (s, true).
Proof.
  intros Hz Hsize Hget. destruct (reachable_Inv z Hz) as [L HI].
  rewrite (Inv_card z L HI) in Hsize.
  destruct (decide (rank < 0 ∨ Z.of_nat (base.length L) ≤ rank)) as [Hout|Hin].
  { by rewrite (GetByRank_out z L rank reverse HI Hsize Hout) in Hget. }
  set (r := Z.to_nat (if reverse then Z.of_nat (base.length L) - 1 - rank else rank)).
  assert (Hr : (r < base.length L)%nat) by (unfold r; destruct reverse; lia).
  destruct (lookup_lt_is_Some_2 L r Hr) as [c Hc].
  rewrite (GetByRank_in z L rank reverse r c HI Hsize ltac:(lia) eq_refl Hc) in Hget.
  injection Hget as <- <-. split.
  - rewrite (Rank_present z L r c reverse HI Hsize Hc). f_equal.
    unfold r. destruct reverse; lia.
  - unfold Score. by rewrite (Inv_dict_lookup z L r c HI Hc).
Qed.

Lemma Rank_of_GetByRank_witness :
  reachable zset_sample ∧ card zset_sample < 2 ^ 63 ∧
  GetByRank zset_sample 1 false = Some ("c"%string, float64_of_Z 3, true) ∧
  Rank zset_sample "c" false = Some 1 ∧ Score zset_sample "c" = (float64_of_Z 3, true).
Proof.
  split; [exact zset_sample_reachable|]. split; [by vm_compute|].
  split; [by vm_compute|].
  apply (Rank_of_GetByRank zset_sample 1 false "c" (float64_of_Z 3)
           zset_sample_reachable); by vm_compute.
Defined.

(** X15 (Rank follows the order).  In every reachable state (fewer than
    2^63 members), for present members [m1] and [m2]: both ascending ranks
    lie in [0, Len), the rank of [m1] is below that of [m2] exactly when
    (score, member) of [m1] is below that of [m2] in the composite order,
    and the ranks are equal only for the same member. *)
Theorem Rank_follows_order z m1 s1 m2 s2 :
  reachable z → card z < 2 ^ 63 →
  Score z m1 = (s1, true) → Score z m2 = (s2, true) →
  ∃ r1 r2,
    Rank z m1 false = Some r1 ∧ Rank z m2 false = Some r2 ∧
    0 ≤ r1 < Len z ∧ 0 ≤ r2 < Len z ∧
    (r1 < r2 ↔ key_lt s1 m1 s2 m2 = true) ∧
    (r1 = r2 ↔ m1 = m2).
Proof.
  intros Hz Hsize H1 H2. destruct (reachable_Inv z Hz) as [L HI].
  rewrite (Inv_card z L HI) in Hsize. rewrite (Inv_Len z L HI) by lia.
  unfold Score in H1, H2.
  destruct (dict z !! m1) as [s1'|] eqn:Hd1; [|done]. injection H1 as ->.
  destruct (dict z !! m2) as [s2'|] eqn:Hd2; [|done]. injection H2 as ->.
  destruct (dict_present _ _ _ _ HI Hd1) as (k1 & c1 & Hk1 & He1 & Hs1).
  destruct (dict_present _ _ _ _ HI Hd2) as (k2 & c2 & Hk2 & He2 & Hs2).
  exists (Z.of_nat k1), (Z.of_nat k2).
  pose proof (lookup_lt_Some _ _ _ Hk1). pose proof (lookup_lt_Some _ _ _ Hk2).
  assert (Hlt : ∀ i j a b, L !! i = Some a → L !! j = Some b →
                  (i < j)%nat ↔ cell_lt a b).
  { intros i j a b Hi Hj.
    split; [intros Hij; by apply (sorted_lookup L i j a b (inv_sorted _ _ HI))|].
    intros Hab. destruct (decide (i < j)%nat) as [|Hge]; [done|]. exfalso.
    destruct (decide (i = j)) as [->|Hne].
    - rewrite Hi in Hj. injection Hj as ->. by apply (cell_lt_irrefl b).
    - assert (Hba : cell_lt b a) by (apply (sorted_lookup L j i); [apply (inv_sorted _ _ HI)|lia|done|done]).
      apply (cell_lt_irrefl a). by apply (cell_lt_trans a b a). }
  split_and!.
  - rewrite <- He1. apply (Rank_present z L k1 c1 false HI Hsize Hk1).
  - rewrite <- He2. apply (Rank_present z L k2 c2 false HI Hsize Hk2).
  - lia.
  - lia.
  - lia.
  - lia.
  - rewrite <- He1, <- Hs1, <- He2, <- Hs2. rewrite <- (Hlt k1 k2 c1 c2 Hk1 Hk2). lia.
  - split.
    + intros Heq. assert (k1 = k2) as -> by lia. rewrite Hk1 in Hk2.
      injection Hk2 as ->. by rewrite <- He1, <- He2.
    + intros ->. f_equal. apply (NoDup_lookup _ k1 k2 m2 (inv_uniq _ _ HI)).
      * by rewrite list_lookup_fmap, Hk1; simpl; rewrite He1.
      * by rewrite list_lookup_fmap, Hk2; simpl; rewrite He2.
Qed.

Lemma Rank_follows_order_witness :
  reachable zset_sample ∧ card zset_sample < 2 ^ 63 ∧
  Score zset_sample "d" = (float64_of_Z 2, true) ∧
  Score zset_sample "a" = (float64_of_Z 5, true) ∧
  ∃ r1 r2,
    Rank zset_sample "d" false = Some r1 ∧ Rank zset_sample "a" false = Some r2 ∧
    0 ≤ r1 < Len zset_sample ∧ 0 ≤ r2 < Len zset_sample ∧
    (r1 < r2 ↔ key_lt (float64_of_Z 2) "d" (float64_of_Z 5) "a" = true) ∧
    (r1 = r2 ↔ "d"%string = "a"%string).
Proof.
  split; [exact zset_sample_reachable|]. split; [by vm_compute|].
  split; [by vm_compute|]. split; [by vm_compute|].
  apply (Rank_follows_order zset_sample "d" (float64_of_Z 2) "a" (float64_of_Z 5)
           zset_sample_reachable); by vm_compute.
Defined.

(** ** RangeByScore as a page of the pairs in range *)

Lemma key_lt_score_gt s1 e1 s2 e2 m :
  key_lt s1 e1 s2 e2 = true → SFltb m s1 = true → SFltb m s2 = true.
Proof.
  unfold key_lt, SFltb, SFeqb.
  destruct (SFcompare s1 s2) as [[]|] eqn:H12; simpl; try done.
  - by rewrite (SFcompare_eq_r m _ _ H12).
  - destruct (SFcompare m s1) as [[]|] eqn:Hm1; try done.
    by rewrite (SFcompare_trans _ _ _ _ Hm1 H12).
Qed.

Lemma drop_take_while {A} (p : A → bool) (l : list A) o :
  drop o (take_while p l)
  = if forallb p (take o l) then take_while p (drop o l) else [].
Proof.
  revert o. induction l as [|a l IH]; intros o.
  { by destruct o. }
  destruct o as [|o]; [done|]. simpl.
  destruct (p a); simpl; [apply IH|done].
Qed.

Lemma drop_while_all {A} (p : A → bool) (l : list A) :
  Forall (λ a, p a = false) l → drop_while p l = l.
Proof. intros Hall. destruct Hall as [|a l Ha _]; simpl; [done|by rewrite Ha]. Qed.

Lemma take_while_none {A} (p : A → bool) (l : list A) :
  Forall (λ a, p a = false) l → take_while p l = [].
Proof. intros Hall. destruct Hall as [|a l Ha _]; simpl; [done|by rewrite Ha]. Qed.

Lemma filter_sorted_window {A} (R : A → A → Prop) (p1 p2 : A → bool) (K : list A) :
  StronglySorted R K →
  (∀ a b, a ∈ K → b ∈ K → R a b → p1 a = true → p1 b = true) →
  (∀ a b, a ∈ K → b ∈ K → R a b → p2 b = true → p2 a = true) →
  List.filter (λ x, p1 x && p2 x) K
  = take_while p2 (drop_while (λ x, negb (p1 x)) K).
Proof.
  induction 1 as [|a K HK IH Ha]; intros Hup Hdown; [done|].
  assert (IH' : List.filter (λ x, p1 x && p2 x) K
                = take_while p2 (drop_while (λ x, negb (p1 x)) K)).
  { apply IH.
    - intros x y Hx Hy. apply Hup; by apply elem_of_cons; right.
    - intros x y Hx Hy. apply Hdown; by apply elem_of_cons; right. }
  rewrite Forall_forall in Ha. simpl.
  destruct (p1 a) eqn:H1; simpl; [|done].
  assert (Hall : Forall (λ b, negb (p1 b) = false) K).
  { apply Forall_forall. intros b Hb.
    rewrite (Hup a b); [done|by apply elem_of_cons; left|by apply elem_of_cons; right|
                        by apply Ha|done]. }
  rewrite (drop_while_all _ K Hall) in IH'.
  destruct (p2 a) eqn:H2; [by rewrite IH'|].
  rewrite IH'. apply take_while_none, Forall_forall. intros b Hb.
  destruct (p2 b) eqn:H2b; [|done].
  rewrite (Hdown a b) in H2; [done|by apply elem_of_cons; left|by apply elem_of_cons; right|
                               by apply Ha|done].
Qed.

Lemma existsb_negb_forallb {A} (p q : A → bool) (l : list A) :
  Forall (λ a, q a = negb (p a)) l → existsb q l = negb (forallb p l).
Proof.
  induction 1 as [|a l Ha _ IH]; simpl; [done|].
  rewrite Ha, IH. by destruct (p a).
Qed.

Lemma range_spec_page K min max offset count :
  StronglySorted pair_lt K → Forall (λ p, is_NaN p.2 = false) K →
  is_NaN min = false → is_NaN max = false →
  range_by_score_spec K min max offset count
  = page (Z.max 0 offset) count (List.filter (in_score_range min max) K).
Proof.
  intros Hsorted Hnan Hmin Hmax. unfold range_by_score_spec, page.
  rewrite Forall_forall in Hnan.
  assert (Ho : Z.to_nat (if decide (offset < 0) then 0 else offset)
               = Z.to_nat (Z.max 0 offset)) by (case_decide; lia).
  rewrite Ho. set (o := Z.to_nat (Z.max 0 offset)).
  set (from := drop_while (λ p : string * float64, negb (SFleb min p.2)) K).
  assert (HF : List.filter (in_score_range min max) K
               = take_while (λ p : string * float64, SFleb p.2 max) from).
  { apply (filter_sorted_window pair_lt (λ p, SFleb min p.2) (λ p, SFleb p.2 max) K Hsorted).
    - intros a b Ha Hb Hab.
      rewrite !(SFleb_negb_ltb min) by auto.
      destruct (SFltb b.2 min) eqn:Hbm; [|done].
      by rewrite (key_lt_score_lt _ _ _ _ _ Hab Hbm).
    - intros a b Ha Hb Hab.
      rewrite !(SFleb_negb_ltb _ max) by auto.
      destruct (SFltb max a.2) eqn:Hma; [|done].
      by rewrite (key_lt_score_gt _ _ _ _ _ Hab Hma). }
  rewrite HF, drop_take_while.
  rewrite (existsb_negb_forallb (λ p : string * float64, SFleb p.2 max)).
  2:{ apply Forall_forall. intros p Hp. rewrite (SFleb_negb_ltb p.2 max), negb_involutive; [done| |done].
      apply Hnan. eapply elem_of_sublist; [|apply drop_while_sublist].
      eapply elem_of_sublist; [exact Hp|apply sublist_take]. }
  destruct (forallb _ (take o from)); simpl; [done|].
  destruct (decide (count < 0)); [done|by rewrite take_nil].
Qed.

(** X16 (RangeByScore pages the score range).  In every reachable state
    (fewer than 2^63 members), for bounds that are not NaN: [RangeByScore min
    max offset count] returns the pairs of the ascending chain whose score
    lies in [[min, max]], without the first [offset] of them (none dropped
    for a negative offset) and cut to [count] pairs unless [count] is
    negative. *)
Theorem RangeByScore_page z min max offset count :
  reachable z → card z < 2 ^ 63 →
  is_NaN min = false → is_NaN max = false →
  RangeByScore z min max offset count
  = Some (page (Z.max 0 offset) count
            (List.filter (in_score_range min max) (chain (zsl z)))).
Proof.
  intros Hz Hsize Hmin Hmax. destruct (reachable_Inv z Hz) as [L HI].
  rewrite (Inv_card z L HI) in Hsize. rewrite (Inv_chain z L HI).
  rewrite (RangeByScore_spec z L min max offset count HI Hsize Hmin Hmax). f_equal.
  apply range_spec_page; [by apply (Inv_pairs_sorted z)| |done|done].
  apply Forall_fmap. eapply Forall_impl; [apply (inv_nonan _ _ HI)|]. done.
Qed.

Lemma RangeByScore_page_witness :
  reachable zset_sample ∧ card zset_sample < 2 ^ 63 ∧
  is_NaN (float64_of_Z 3) = false ∧ is_NaN (float64_of_Z 9) = false ∧
  RangeByScore zset_sample (float64_of_Z 3) (float64_of_Z 9) 1 5
  = Some (page (Z.max 0 1) 5
            (List.filter (in_score_range (float64_of_Z 3) (float64_of_Z 9))
               (chain (zsl zset_sample)))).
Proof.
  split; [exact zset_sample_reachable|]. split; [by vm_compute|].
  split; [reflexivity|]. split; [reflexivity|].
  apply (RangeByScore_page zset_sample (float64_of_Z 3) (float64_of_Z 9) 1 5
           zset_sample_reachable); by vm_compute.
Defined.








(** ** The skiplist operations on their own *)

Lemma delete_miss_Rep sl L sc e :
  Rep sl L → (∀ c, c ∈ L → cellEq sc e c = false) →
  delete sl sc e = Some (sl, false).
Proof.
  intros HRep Hmiss.
  destruct (delete_spec sl L _ _ sc e HRep (key_test_less sc e) (key_test_eq sc e))
    as (P & _ & _ & _ & Hdel).
  destruct (L !! P) as [cn|] eqn:Hcn; [|done].
  by rewrite (Hmiss cn (list_elem_of_lookup_2 _ _ _ Hcn)) in Hdel.
Qed.

Lemma SFltb_nan_r x : SFltb x S754_nan = false.
Proof. by destruct x as [[]|[]| |[] m e]. Qed.

Lemma SFeqb_nan_r x : SFeqb x S754_nan = false.
Proof. by destruct x as [[]|[]| |[] m e]. Qed.

(** X18 (delete misses).  In every state produced by [Add] and [Remove]
    calls (any scores): [delete score ele] on the skiplist returns false and
    leaves the skiplist as it is when no pair of the chain has that member
    with a score that Go's [==] equates with [score]; in particular for a
    NaN [score], whatever the chain holds. *)
Theorem delete_missing z sc e :
  reachable_any z →
  (∀ p, p ∈ chain (zsl z) → SFeqb p.2 sc && String.eqb p.1 e = false) →
  delete (zsl z) sc e = Some (zsl z, false) ∧
  delete (zsl z) S754_nan e = Some (zsl z, false).
Proof.
  intros Hz Hmiss. destruct (reachable_any_Rep z Hz) as [L HRep]. split.
  - apply (delete_miss_Rep _ L sc e HRep). intros c Hc.
    apply (Hmiss (cell_pair c)). rewrite (Rep_chain _ L HRep).
    by apply list_elem_of_fmap_2.
  - apply (delete_miss_Rep _ L S754_nan e HRep). intros c _.
    unfold cellEq. by rewrite SFeqb_nan_r.
Qed.

Lemma delete_missing_witness :
  reachable_any zset_sample ∧
  (∀ p, p ∈ chain (zsl zset_sample) →
        SFeqb p.2 (float64_of_Z 2) && String.eqb p.1 "c" = false) ∧
  delete (zsl zset_sample) (float64_of_Z 2) "c" = Some (zsl zset_sample, false) ∧
  delete (zsl zset_sample) S754_nan "c" = Some (zsl zset_sample, false).
Proof.
  assert (Hmiss : ∀ p, p ∈ chain (zsl zset_sample) →
                       SFeqb p.2 (float64_of_Z 2) && String.eqb p.1 "c" = false).
  { intros p Hp. vm_compute in Hp.
    repeat (apply elem_of_cons in Hp as [->|Hp]; [reflexivity|]).
    by apply elem_of_nil in Hp. }
  split; [exact (reachable_reachable_any _ zset_sample_reachable)|]. split; [exact Hmiss|].
  exact (delete_missing zset_sample (float64_of_Z 2) "c"
           (reachable_reachable_any _ zset_sample_reachable) Hmiss).
Defined.

(** X19 (insert).  In every reachable state, [insert score ele] on the
    skiplist returns the address of a fresh node that holds [ele] and
    [score] and has [randomLevel] levels; the pair enters the chain at the
    place the composite order gives it — every pair before it is below
    (score, ele) and no pair after it is — the other pairs keeping their
    order; the length grows by one (modulo 2^64) and the level field becomes
    the larger of its old value and the new node's level. *)
Theorem insert_places_node z draws sc e :
  reachable z →
  ∃ sl' l1 l2 n,
    insert (zsl z) draws sc e = Some (sl', base.length (sl_nodes (zsl z))) ∧
    chain (zsl z) = l1 ++ l2 ∧ chain sl' = l1 ++ (e, sc) :: l2 ∧
    (∀ p, p ∈ l1 → key_lt p.2 p.1 sc e = true) ∧
    (∀ p, p ∈ l2 → key_lt p.2 p.1 sc e = false) ∧
    sl_nodes sl' !! base.length (sl_nodes (zsl z)) = Some n ∧
    ele n = e ∧ score n = sc ∧ base.length (level n) = randomLevel draws ∧
    sl_length sl' = u64 (sl_length (zsl z) + 1) ∧
    sl_level sl' = Nat.max (sl_level (zsl z)) (randomLevel draws).
Proof.
  intros Hz. destruct (reachable_Inv z Hz) as [L HI].
  pose proof (inv_rep _ _ HI) as HRep. pose proof (inv_sorted _ _ HI) as Hsorted.
  destruct (insert_spec (zsl z) L _ sc e draws HRep (key_test_less sc e))
    as (sl' & P & Hins & HP & HRep' & Hbefore & Hafter).
  set (cx := mkCell (base.length (sl_nodes (zsl z))) e sc (randomLevel draws)) in *.
  assert (Hcx : cell_ok (sl_nodes sl') cx).
  { pose proof (rep_cells _ _ HRep') as Hall. apply Forall_cons in Hall as [_ Hall].
    apply (proj1 (Forall_lookup _ _) Hall P cx). by apply insert_mid_lookup. }
  destruct (cell_ok_lookup _ _ Hcx) as (n & Hn & He & Hs & Hh).
  exists sl', (cell_pair <$> take P L), (cell_pair <$> drop P L), n.
  split_and!; [done| | | | |done|done|done|done| |].
  - by rewrite (Rep_chain _ L HRep), <- fmap_app, take_drop.
  - by rewrite (Rep_chain _ _ HRep'), fmap_app.
  - intros p Hp. apply list_elem_of_fmap in Hp as (c & -> & Hc).
    apply list_elem_of_lookup in Hc as [i Hi].
    pose proof (lookup_lt_Some _ _ _ Hi) as Hlt. rewrite length_take in Hlt.
    rewrite lookup_take_lt in Hi by lia.
    destruct (lookup_lt_is_Some_2 L (P - 1)%nat ltac:(lia)) as [c' Hc'].
    pose proof (Hbefore c' ltac:(lia) Hc') as Hlast. unfold cellLess in Hlast.
    destruct (decide (i = P - 1)%nat) as [->|Hne].
    + rewrite Hi in Hc'. by injection Hc' as ->.
    + pose proof (sorted_lookup L i (P - 1)%nat c c' Hsorted ltac:(lia) Hi Hc') as Hcc.
      exact (key_lt_trans _ _ _ _ _ _ Hcc Hlast).
  - intros p Hp. apply list_elem_of_fmap in Hp as (c & -> & Hc).
    apply list_elem_of_lookup in Hc as [j Hj]. rewrite lookup_drop in Hj.
    pose proof (lookup_lt_Some _ _ _ Hj) as Hlt.
    destruct (lookup_lt_is_Some_2 L P ltac:(lia)) as [c' Hc'].
    pose proof (Hafter c' Hc') as Hfirst. unfold cellLess in Hfirst.
    destruct (decide (j = 0)%nat) as [->|Hne].
    + replace (P + 0)%nat with P in Hj by lia. rewrite Hj in Hc'. by injection Hc' as ->.
    + pose proof (sorted_lookup L P (P + j)%nat c' c Hsorted ltac:(lia) Hc' Hj) as Hcc.
      simpl. destruct (key_lt (c_score c) (c_ele c) sc e) eqn:Hlt'; [|done].
      by rewrite (key_lt_trans _ _ _ _ _ _ Hcc Hlt') in Hfirst.
  - rewrite (rep_length _ _ HRep'), (rep_length _ _ HRep), length_app, length_take.
    simpl. rewrite length_drop. u64_eq.
  - rewrite (rep_level _ _ HRep'), (rep_level _ _ HRep), max_height_app.
    change (max_height (cx :: drop P L))
      with (Nat.max (randomLevel draws) (max_height (drop P L))).
    rewrite <- (take_drop P L) at 3. rewrite max_height_app. lia.
Qed.

Lemma insert_places_node_witness :
  reachable zset_sample ∧
  ∃ sl' l1 l2 n,
    insert (zsl zset_sample) [true] (float64_of_Z 4) "b"
    = Some (sl', base.length (sl_nodes (zsl zset_sample))) ∧
    chain (zsl zset_sample) = l1 ++ l2 ∧
    chain sl' = l1 ++ ("b"%string, float64_of_Z 4) :: l2 ∧
    (∀ p, p ∈ l1 → key_lt p.2 p.1 (float64_of_Z 4) "b" = true) ∧
    (∀ p, p ∈ l2 → key_lt p.2 p.1 (float64_of_Z 4) "b" = false) ∧
    sl_nodes sl' !! base.length (sl_nodes (zsl zset_sample)) = Some n ∧
    ele n = "b"%string ∧ score n = float64_of_Z 4 ∧
    base.length (level n) = randomLevel [true] ∧
    sl_length sl' = u64 (sl_length (zsl zset_sample) + 1) ∧
    sl_level sl' = Nat.max (sl_level (zsl zset_sample)) (randomLevel [true]).
Proof.
  split; [exact zset_sample_reachable|].
  exact (insert_places_node zset_sample [true] (float64_of_Z 4) "b" zset_sample_reachable).
Defined.

(** X20 (a NaN score leaves a node behind).  In every state produced by
    [Add] and [Remove] calls, for an absent member [m]: [Add m NaN] returns
    true and puts (m, NaN) at the head of the chain, since no score compares
    below NaN; the following [Remove m] returns true and deletes the
    dictionary entry, but its [delete] does not find the node, which stays
    at the head of the chain. *)
Theorem Add_NaN_then_Remove z draws m :
  reachable_any z → dict z !! m = None →
  ∃ z1 z2,
    Add z draws m S754_nan = Some (z1, true) ∧
    chain (zsl z1) = (m, S754_nan) :: chain (zsl z) ∧
    Remove z1 m = Some (z2, true) ∧
    dict z2 = dict z ∧ zsl z2 = zsl z1 ∧
    Score z2 m = (S754_zero false, false).
Proof.
  intros Hz Hd. destruct (reachable_any_Rep z Hz) as [L HRep].
  destruct (insert_spec (zsl z) L _ S754_nan m draws HRep (key_test_less S754_nan m))
    as (sl' & P & Hins & HP & HRep' & Hbefore & _).
  assert (P = 0%nat) as ->.
  { destruct P as [|P']; [done|]. exfalso.
    destruct (lookup_lt_is_Some_2 L P' ltac:(lia)) as [c Hc].
    specialize (Hbefore c ltac:(done)).
    replace (S P' - 1)%nat with P' in Hbefore by lia. specialize (Hbefore Hc).
    unfold cellLess, key_lt in Hbefore.
    by rewrite SFltb_nan_r, SFeqb_nan_r in Hbefore. }
  rewrite take_0, drop_0 in HRep'. simpl in HRep'.
  set (z1 := mkZSet (<[m := S754_nan]> (dict z)) sl').
  assert (HAdd : Add z draws m S754_nan = Some (z1, true)).
  { unfold Add. by rewrite Hd, Hins. }
  assert (Hdel : delete sl' S754_nan m = Some (sl', false)).
  { apply (delete_miss_Rep _ _ S754_nan m HRep'). intros c _.
    unfold cellEq. by rewrite SFeqb_nan_r. }
  exists z1, (mkZSet (base.delete m (dict z1)) sl'). split_and!.
  - done.
  - simpl. rewrite (Rep_chain _ _ HRep'), (Rep_chain _ _ HRep). done.
  - unfold Remove. simpl. by rewrite lookup_insert_eq, Hdel.
  - simpl. by apply delete_insert_id.
  - done.
  - unfold Score. simpl. by rewrite lookup_delete_eq.
Qed.

Lemma Add_NaN_then_Remove_witness :
  reachable_any zset_sample ∧ dict zset_sample !! "b"%string = None ∧
  ∃ z1 z2,
    Add zset_sample [true] "b" S754_nan = Some (z1, true) ∧
    chain (zsl z1) = ("b"%string, S754_nan) :: chain (zsl zset_sample) ∧
    Remove z1 "b" = Some (z2, true) ∧
    dict z2 = dict zset_sample ∧ zsl z2 = zsl z1 ∧
    Score z2 "b" = (S754_zero false, false).
Proof.
  split; [exact (reachable_reachable_any _ zset_sample_reachable)|].
  split; [vm_compute; reflexivity|].
  apply (Add_NaN_then_Remove zset_sample [true] "b"
           (reachable_reachable_any _ zset_sample_reachable)).
  vm_compute; reflexivity.
Defined.

(** X21 (getElementByRank).  In every state produced by [Add] and [Remove]
    calls (any scores) whose chain has fewer than 2^64 nodes, for a rank in
    the range of [uint64]: [getElementByRank] returns nil for rank 0 and for
    a rank beyond the length, and otherwise the node at position [rank - 1]
    of the level-0 chain. *)
Theorem getElementByRank_position z rank :
  reachable_any z → Z.of_nat (base.length (chain_addrs (zsl z))) < 2 ^ 64 →
  0 ≤ rank < 2 ^ 64 →
  getElementByRank (zsl z) rank
  = Some (if decide (1 ≤ rank ≤ sl_length (zsl z))
          then chain_addrs (zsl z) !! Z.to_nat (rank - 1) else None) ∧
  sl_length (zsl z) = Z.of_nat (base.length (chain_addrs (zsl z))).
Proof.
  intros Hz Hsize Hrank. destruct (reachable_any_Rep z Hz) as [L HRep].
  rewrite (Rep_chain_addrs _ L HRep), length_fmap in *.
  assert (Hlen : sl_length (zsl z) = Z.of_nat (base.length L)).
  { rewrite (rep_length _ _ HRep). apply u64_small. lia. }
  split; [|done]. rewrite Hlen.
  destruct (decide (1 ≤ rank ≤ Z.of_nat (base.length L))) as [Hin|Hout].
  - destruct (lookup_lt_is_Some_2 L (Z.to_nat (rank - 1)) ltac:(lia)) as [c Hc].
    rewrite list_lookup_fmap, Hc. simpl.
    rewrite <- (getElementByRank_spec _ L _ c HRep Hsize Hc). f_equal. lia.
  - unfold getElementByRank. rewrite Hlen. by rewrite decide_True by lia.
Qed.

Lemma getElementByRank_position_witness :
  reachable_any zset_sample ∧
  Z.of_nat (base.length (chain_addrs (zsl zset_sample))) < 2 ^ 64 ∧
  0 ≤ 2 < 2 ^ 64 ∧
  getElementByRank (zsl zset_sample) 2
  = Some (if decide (1 ≤ 2 ≤ sl_length (zsl zset_sample))
          then chain_addrs (zsl zset_sample) !! Z.to_nat (2 - 1) else None) ∧
  sl_length (zsl zset_sample) = Z.of_nat (base.length (chain_addrs (zsl zset_sample))).
Proof.
  split; [exact (reachable_reachable_any _ zset_sample_reachable)|].
  split; [by vm_compute|]. split; [lia|].
  apply (getElementByRank_position zset_sample 2
           (reachable_reachable_any _ zset_sample_reachable)); [by vm_compute|lia].
Defined.

(** X22 (the header).  In every state produced by [Add] and [Remove] calls
    (any scores): the header is the node that [createSkiplist] allocated,
    with the empty member, score 0 and [SKIPLIST_MAXLEVEL] levels, and it is
    never a node of the level-0 chain. *)
Theorem header_is_sentinel z :
  reachable_any z →
  ∃ hn,
    sl_nodes (zsl z) !! sl_header (zsl z) = Some hn ∧
    ele hn = EmptyString ∧ score hn = S754_zero false ∧
    base.length (level hn) = SKIPLIST_MAXLEVEL ∧
    sl_header (zsl z) ∉ chain_addrs (zsl z).
Proof.
  intros Hz. destruct (reachable_any_Rep z Hz) as [L HRep].
  pose proof (rep_cells _ _ HRep) as Hall. apply Forall_cons in Hall as [Hhd _].
  destruct (cell_ok_lookup _ _ Hhd) as (hn & Hn & He & Hs & Hh). simpl in *.
  exists hn. split_and!; [done|done|done|done|].
  rewrite (Rep_chain_addrs _ L HRep).
  pose proof (rep_nodup _ _ HRep) as Hnd. rewrite fmap_cons in Hnd.
  by apply NoDup_cons in Hnd as [Hnotin _].
Qed.

Lemma header_is_sentinel_witness :
  reachable_any zset_sample ∧
  ∃ hn,
    sl_nodes (zsl zset_sample) !! sl_header (zsl zset_sample) = Some hn ∧
    ele hn = EmptyString ∧ score hn = S754_zero false ∧
    base.length (level hn) = SKIPLIST_MAXLEVEL ∧
    sl_header (zsl zset_sample) ∉ chain_addrs (zsl zset_sample).
Proof.
  split; [exact (reachable_reachable_any _ zset_sample_reachable)|].
  exact (header_is_sentinel zset_sample (reachable_reachable_any _ zset_sample_reachable)).
Defined.

Lemma getRank_loop_miss sl L sc e :
  Rep sl L → (∀ c, c ∈ L → cellEq sc e c = false) →
  ∀ n P c r,
    (header_cell (sl_header sl) :: L) !! P = Some c → (n ≤ c_height c)%nat →
    getRank_loop sl sc e n (c_addr c) (u64 r) = Some 0.
Proof.
  intros HRep Hmiss n. induction n as [|i IH]; intros P c r HP Hh; [done|].
  simpl.
  destruct (advance_rank_spec _ _ _ i _ (key_test_lessEq sc e)
              (rep_cells _ _ HRep) (rep_links _ _ HRep i)
              (fuel_of (sl_nodes sl)) P c r HP ltac:(lia))
    as (P' & c' & Hadv & HP' & Hle & Hc' & _ & _).
  { pose proof (Rep_fuel _ _ HRep) as Hf. unfold fuel_of. simpl in *. lia. }
  rewrite Hadv. simpl.
  pose proof (rep_cells _ _ HRep) as Hall. rewrite Forall_lookup in Hall.
  destruct (cell_ok_lookup _ _ (Hall _ _ HP')) as (n' & Hn' & He' & Hs' & _).
  rewrite Hn'. simpl. rewrite (key_test_eq sc e n' c' He' Hs').
  assert (Hcont : negb (bool_decide (c_addr c' = sl_header sl)) && cellEq sc e c' = false).
  { destruct P' as [|p'].
    - replace c' with (header_cell (sl_header sl)) by (simpl in HP'; congruence).
      simpl. by rewrite bool_decide_eq_true_2.
    - simpl in HP'. rewrite (Hmiss c' (list_elem_of_lookup_2 _ _ _ HP')).
      apply andb_false_r. }
  rewrite Hcont. apply (IH P' c'); [done|lia].
Qed.

(** X23 (getRank).  In every reachable state (fewer than 2^64 members):
    [getRank score ele] returns the 1-based position of the pair in the
    chain when the chain holds it, and 0 when no pair of the chain has that
    member with a score that Go's [==] equates with [score]. *)
Theorem getRank_position z m s :
  reachable z → card z < 2 ^ 64 →
  (∀ k, chain (zsl z) !! k = Some (m, s) →
        getRank (zsl z) s m = Some (Z.of_nat k + 1)) ∧
  ((∀ p, p ∈ chain (zsl z) → SFeqb p.2 s && String.eqb p.1 m = false) →
   getRank (zsl z) s m = Some 0).
Proof.
  intros Hz Hsize. destruct (reachable_Inv z Hz) as [L HI].
  rewrite (Inv_card z L HI) in Hsize. rewrite (Inv_chain z L HI).
  pose proof (inv_rep _ _ HI) as HRep. split.
  - intros k Hk. rewrite list_lookup_fmap in Hk.
    destruct (L !! k) as [c|] eqn:Hc; [|done]. injection Hk as <- <-.
    rewrite (getRank_spec _ L k c HRep (inv_sorted _ _ HI)
               (Inv_nonan_lookup z L k c HI Hc) Hc).
    f_equal. pose proof (lookup_lt_Some _ _ _ Hc). rewrite u64_small; lia.
  - intros Hmiss. unfold getRank. change 0 with (u64 0) at 1.
    apply (getRank_loop_miss _ L s m HRep) with (P := 0%nat)
      (c := header_cell (sl_header (zsl z))).
    + intros c Hc. apply (Hmiss (cell_pair c)). by apply list_elem_of_fmap_2.
    + done.
    + pose proof (Rep_level_bound _ _ HRep). simpl. lia.
Qed.

Lemma getRank_position_witness :
  reachable zset_sample ∧ card zset_sample < 2 ^ 64 ∧
  (∀ k, chain (zsl zset_sample) !! k = Some ("c"%string, float64_of_Z 3) →
        getRank (zsl zset_sample) (float64_of_Z 3) "c" = Some (Z.of_nat k + 1)) ∧
  ((∀ p, p ∈ chain (zsl zset_sample) →
         SFeqb p.2 (float64_of_Z 3) && String.eqb p.1 "c" = false) →
   getRank (zsl zset_sample) (float64_of_Z 3) "c" = Some 0).
Proof.
  split; [exact zset_sample_reachable|]. split; [by vm_compute|].
  apply (getRank_position zset_sample "c" (float64_of_Z 3) zset_sample_reachable).
  by vm_compute.
Defined.
